(** * AHP survey tool: the numerical core of [app.js]

    A shallow embedding of the functions of [src/app.js] that carry the
    Analytic Hierarchy Process: the pairwise-matrix update, the power
    iteration, the consistency ratio, the inconsistency hints, the
    weighted-sum aggregation with its ranking, and the recovery of a
    persisted state; then the helpers around them: the HTML escaping, the
    judgment sliders, the heat-map colours, the consistency badge and the
    list handlers of the setup page.

    Number model.  A JavaScript number is an IEEE-754 double.  Here a
    number is an exact rational or one of the three special values
    [+Infinity], [-Infinity] and [NaN]: finite arithmetic is exact (no
    rounding, no overflow, no signed zero), and the special values follow
    the IEEE rules, so that a division by zero is [NaN] or an infinity as
    in the source and never a rational.  Theorems over this model are
    statements over exact arithmetic.  The last section has the solver
    over binary64, where the values are those of the source bit for bit,
    and shows where rounding, overflow and underflow make the exact
    results fail. *)

From Stdlib Require Import QArith Qcanon Qround Lqa Ascii PrimFloat.
From stdpp Require Import base numbers option list gmap strings sorting pretty.

Local Open Scope Qc_scope.

(** ** Numbers *)

Inductive num : Type :=
  | Fin (q : Qc)
  | PInf
  | NInf
  | NaN.

Global Instance num_eq_dec : EqDecision num.
Proof. solve_decision. Defined.

(** The infinity that has the sign held by a comparison with zero. *)
Definition inf_of_sign (c : comparison) : num :=
  match c with Gt => PInf | Lt => NInf | Eq => NaN end.

Definition nopp (a : num) : num :=
  match a with
  | Fin x => Fin (- x)
  | PInf => NInf
  | NInf => PInf
  | NaN => NaN
  end.

Definition nadd (a b : num) : num :=
  match a, b with
  | NaN, _ | _, NaN => NaN
  | Fin x, Fin y => Fin (x + y)
  | PInf, NInf | NInf, PInf => NaN
  | PInf, _ | _, PInf => PInf
  | NInf, _ | _, NInf => NInf
  end.

Definition nsub (a b : num) : num := nadd a (nopp b).

Definition nmul (a b : num) : num :=
  match a, b with
  | NaN, _ | _, NaN => NaN
  | Fin x, Fin y => Fin (x * y)
  | Fin x, PInf | PInf, Fin x => inf_of_sign (x ?= 0)
  | Fin x, NInf | NInf, Fin x => inf_of_sign (0 ?= x)
  | PInf, PInf | NInf, NInf => PInf
  | PInf, NInf | NInf, PInf => NInf
  end.

(** [x / y].  A finite non-zero over zero is the infinity of the sign of
    the numerator, zero over zero is [NaN]. *)
Definition ndiv (a b : num) : num :=
  match a, b with
  | NaN, _ | _, NaN => NaN
  | Fin x, Fin y => if decide (y = 0) then inf_of_sign (x ?= 0) else Fin (x / y)
  | Fin _, (PInf | NInf) => Fin 0
  | PInf, Fin y => match y ?= 0 with Lt => NInf | _ => PInf end
  | NInf, Fin y => match y ?= 0 with Lt => PInf | _ => NInf end
  | (PInf | NInf), (PInf | NInf) => NaN
  end.

(** [Math.abs]. *)
Definition nabs (a : num) : num :=
  match a with
  | Fin x => if decide (x < 0) then Fin (- x) else Fin x
  | PInf | NInf => PInf
  | NaN => NaN
  end.

(** [a < b]; false as soon as one side is [NaN]. *)
Definition nlt (a b : num) : bool :=
  match a, b with
  | NaN, _ | _, NaN => false
  | Fin x, Fin y => bool_decide (x < y)
  | NInf, (Fin _ | PInf) => true
  | Fin _, PInf => true
  | _, _ => false
  end.

(** [a > b], [a <= b] and [a >= b] of the source. *)
Definition ngt (a b : num) : bool := nlt b a.

Definition nle (a b : num) : bool :=
  match a, b with
  | NaN, _ | _, NaN => false
  | _, _ => negb (nlt b a)
  end.

(** [Math.max] of two numbers: [NaN] as soon as one of them is. *)
Definition nmax (a b : num) : num :=
  match a, b with
  | NaN, _ | _, NaN => NaN
  | _, _ => if nlt a b then b else a
  end.

(** [Number.isFinite]. *)
Definition isFinite (a : num) : bool :=
  match a with Fin _ => true | _ => false end.

Global Arguments nopp !_ / : assert.
Global Arguments nadd !_ !_ / : assert.
Global Arguments nsub !_ !_ / : assert.
Global Arguments nmul !_ !_ / : assert.
Global Arguments ndiv !_ !_ / : assert.
Global Arguments nabs !_ / : assert.
Global Arguments nlt !_ !_ / : assert.
Global Arguments ngt !_ !_ / : assert.
Global Arguments nle !_ !_ / : assert.
Global Arguments nmax !_ !_ / : assert.

(** The number that an array length or a loop index denotes. *)
Definition of_nat (n : nat) : num := Fin (Qc_of_Z (Z.of_nat n)).

(** A decimal literal [p / q]. *)
Definition lit (p : Z) (q : positive) : num := Fin (Q2Qc (p # q)).

(** ** Arrays and loops *)

(** [l[i]] read as a number: past the end the source gets [undefined],
    which each use in this program (an arithmetic operand, an argument of
    [Number.isFinite], a side of a comparison) turns into [NaN]. *)
Definition rd (l : list num) (i : nat) : num := default NaN (l !! i).

(** [for (let i = 0; i < n; i++) s = body(i, s)]. *)
Definition for_range {S : Type} (n : nat) (body : nat → S → S) (s0 : S) : S :=
  fold_left (λ s i, body i s) (seq 0 n) s0.

(** [l.reduce((a, v, i) => f(a, v, i), s0)] for a dense array. *)
Definition reduce_i {S : Type} (f : S → num → nat → S) (l : list num) (s0 : S) : S :=
  for_range (length l) (λ i a, f a (rd l i) i) s0.

(** [l.reduce((a, b) => a + b, 0)]. *)
Definition reduce_add (l : list num) : num := fold_left nadd l (Fin 0).

(** ** The matrix helpers and the solver *)

Abbreviation matrix := (list (list num)).

(** [identityMatrix(n)]: both branches of [i === j ? 1 : 1] are 1. *)
Definition identityMatrix (n : nat) : matrix :=
  map (λ i, map (λ j, if decide (i = j) then Fin 1 else Fin 1) (seq 0 n)) (seq 0 n).

(** [A[i][j]] where [i < A.length] by the loop bound, so that the row
    exists; a short row yields [undefined] as in [rd]. *)
Definition rd2 (A : matrix) (i j : nat) : num := rd (default [] (A !! i)) j.

(** The loop nest that fills [Aw] (and [Aw2]) with [A * w]. *)
Definition matvec (A : matrix) (w : list num) (n : nat) : list num :=
  for_range n (λ i Aw,
      let s := for_range n (λ j s, nadd s (nmul (rd2 A i j) (rd w j))) (Fin 0) in
      <[i := s]> Aw)
    (replicate n (Fin 0)).

(** One pass of the body of the [for (it ...)] loop: the new vector and
    the value of [diff]. *)
Definition power_step (A : matrix) (n : nat) (w : list num) : list num * num :=
  let Aw := matvec A w n in
  let sum := reduce_add Aw in
  let wNew := map (λ x, ndiv x sum) Aw in
  let diff := for_range n (λ i diff, nmax diff (nabs (nsub (rd wNew i) (rd w i)))) (Fin 0) in
  (wNew, diff).

(** [for (let it = 0; it < maxIter; it++) { ...; if (diff < tol) break; }],
    by recursion on the passes that remain, [maxIter - it].  Beside [w] the
    loop returns the number of passes it made. *)
Fixpoint power_loop (A : matrix) (n : nat) (tol : num) (remaining : nat)
    (w : list num) (passes : nat) : list num * nat :=
  match remaining with
  | O => (w, passes)
  | S remaining' =>
      let '(wNew, diff) := power_step A n w in
      if nlt diff tol then (wNew, S passes)
      else power_loop A n tol remaining' wNew (S passes)
  end.

Record PowerResult : Type := mkPower { p_weights : list num; p_lambdaMax : num }.

Definition powerIterationWeights (A : matrix) (maxIter : nat) (tol : num) : PowerResult :=
  let n := length A in
  let w0 := replicate n (ndiv (Fin 1) (of_nat n)) in
  let w := fst (power_loop A n tol maxIter w0 0) in
  let Aw2 := matvec A w n in
  let lambdaMax := ndiv (reduce_i (λ a v i, nadd a (ndiv v (rd w i))) Aw2 (Fin 0)) (of_nat n) in
  mkPower w lambdaMax.

(** The default arguments [maxIter=1500, tol=1e-11]. *)
Definition maxIter_default : nat := 1500.
Definition tol_default : num := lit 1 100000000000.

(** The passes made by the loop of [powerIterationWeights(A, maxIter, tol)]. *)
Definition power_passes (A : matrix) (maxIter : nat) (tol : num) : nat :=
  let n := length A in
  snd (power_loop A n tol maxIter (replicate n (ndiv (Fin 1) (of_nat n))) 0).

(** [const RI = { 1:0, 2:0, 3:0.58, ..., 10:1.49 }]. *)
Definition RI : gmap nat num :=
  <[1%nat := lit 0 1]> (<[2%nat := lit 0 1]> (<[3%nat := lit 58 100]> (<[4%nat := lit 90 100]>
  (<[5%nat := lit 112 100]> (<[6%nat := lit 124 100]> (<[7%nat := lit 132 100]>
  (<[8%nat := lit 141 100]> (<[9%nat := lit 145 100]> (<[10%nat := lit 149 100]> ∅))))))))).

(** [RI[n] ?? 1.49]. *)
Definition random_index (n : nat) : num := default (lit 149 100) (RI !! n).

Record Consistency : Type := mkCons { c_ci : num; c_cr : num }.

Definition consistency (A : matrix) (lambdaMax : num) : Consistency :=
  let n := length A in
  let ci := ndiv (nsub lambdaMax (of_nat n)) (nsub (of_nat n) (Fin 1)) in
  let ri := random_index n in
  let cr := if decide (ri = Fin 0) then Fin 0 else ndiv ci ri in
  mkCons ci cr.

Record SolveResult : Type :=
  mkSolve { weights : list num; lambdaMax : num; ci : num; cr : num }.

Definition ahpSolve (A : matrix) : SolveResult :=
  let p := powerIterationWeights A maxIter_default tol_default in
  let c := consistency A (p_lambdaMax p) in
  mkSolve (p_weights p) (p_lambdaMax p) (c_ci c) (c_cr c).

Global Arguments power_loop : simpl never.
Global Arguments powerIterationWeights : simpl never.
Global Arguments ahpSolve : simpl never.

(** ** Exceptions *)

(** A computation that returns or throws: a [TypeError] for a property
    read on [undefined] or [null], the [SyntaxError] of [JSON.parse]. *)
Inductive result (A : Type) : Type :=
  | Ok (a : A)
  | Throw.
Global Arguments Ok {A} a.
Global Arguments Throw {A}.

Global Instance result_ret : MRet result := λ A a, Ok a.
Global Instance result_bind : MBind result := λ A B f m,
  match m with Ok a => f a | Throw => Throw end.

(** [x[i]] where [x[i]] is then dereferenced: [undefined] throws. *)
Definition item {A : Type} (l : list A) (i : nat) : result A :=
  match l !! i with Some a => Ok a | None => Throw end.

(** [for (let i = lo; i < hi; i++) s = body(i, s)] with a body that may throw. *)
Definition for_loopE {S : Type} (lo hi : nat) (body : nat → S → result S) (s0 : S) : result S :=
  fold_left (λ acc i, s ← acc; body i s) (seq lo (hi - lo)) (Ok s0).

(** ** Sorting and slicing *)

(** [Array.prototype.sort(cmp)].  ECMAScript requires the sort to be stable
    and reads the comparator as: [cmp(a, b) > 0] puts [b] first, any other
    value (negative, zero, [NaN]) leaves [a] before [b].  The model is the
    stable insertion sort under that reading. *)
Fixpoint sort_insert {A : Type} (cmp : A → A → num) (x : A) (l : list A) : list A :=
  match l with
  | [] => [x]
  | y :: l' => if ngt (cmp x y) (Fin 0) then y :: sort_insert cmp x l' else x :: l
  end.

Definition js_sort {A : Type} (cmp : A → A → num) (l : list A) : list A :=
  foldr (sort_insert cmp) [] l.

(** [l.slice(0, k)] for an integer [k]: a negative [k] counts from the end. *)
Definition slice0 {A : Type} (l : list A) (k : Z) : list A :=
  if decide (k < 0)%Z then take (Z.to_nat (Z.of_nat (length l) + k)) l
  else take (Z.to_nat k) l.

(** ** Inconsistency hints *)

Record issue : Type := mkIssue { score : num; text : string }.

(** The template literal of the hint. *)
Definition hint_text (labels : list string) (i j k : nat) : string :=
  default "undefined" (labels !! i) +:+ " vs " +:+ default "undefined" (labels !! j)
    +:+ " (check with " +:+ default "undefined" (labels !! k) +:+ ")".

Section Diagnostics.

(** [Math.log], a function of the host. *)
Variable Math_log : num → num.

(** The [for (k ...)] loop: [best] and [bestK], where [None] is the
    initial [-1]. *)
Definition witness_loop (A : matrix) (n i j : nat) (direct : num)
    : result (num * option nat) :=
  for_loopE 0 n (λ k '(best, bestK),
      if decide (k = i ∨ k = j) then Ok (best, bestK) else
      Ai ← item A i;
      Ak ← item A k;
      let via := nmul (rd Ai k) (rd Ak j) in
      if negb (isFinite via) || nle via (Fin 0) then Ok (best, bestK) else
      let d := nabs (nsub (Math_log direct) (Math_log via)) in
      if ngt d best then Ok (d, Some k) else Ok (best, bestK))
    (Fin 0, None).

(** The body of the [for (j ...)] loop for the pair [(i, j)]. *)
Definition pair_body (labels : list string) (A : matrix) (n i j : nat)
    (issues : list issue) : result (list issue) :=
  Ai ← item A i;
  let direct := rd Ai j in
  if negb (isFinite direct) || nle direct (Fin 0) then Ok issues else
  '(best, bestK) ← witness_loop A n i j direct;
  match bestK with
  | Some k => Ok (issues ++ [mkIssue best (hint_text labels i j k)])
  | None => Ok issues
  end.

(** The two outer loops: the issues pushed, in the order of the pushes. *)
Definition collect_issues (labels : list string) (A : matrix) : result (list issue) :=
  let n := length labels in
  for_loopE 0 n (λ i issues,
      for_loopE (i + 1) n (λ j issues, pair_body labels A n i j issues) issues)
    [].

Definition inconsistencyHints (labels : list string) (A : matrix) (topK : Z)
    : result (list issue) :=
  issues ← collect_issues labels A;
  Ok (slice0 (js_sort (λ a b, nsub (score b) (score a)) issues) topK).

End Diagnostics.

(** ** Aggregation and ranking *)

Record state : Type := mkState {
  problem : string * string;
  criteria : list string;
  alternatives : list string;
  criteriaMatrix : matrix;
  altMatrices : list matrix;
}.

Record ranked : Type := mkRanked { r_name : string; r_score : num }.

Record results : Type := mkResults {
  criteriaWeights : list num;
  criteriaCR : num;
  altWeightsByCriterion : gmap string (list num);
  altCRByCriterion : gmap string num;
  finalScores : list num;
  ranking : list ranked;
}.

(** The loop nest that fills [scores]. *)
Definition final_scores (crit : SolveResult) (altSolves : list SolveResult) (m n : nat)
    : result (list num) :=
  for_loopE 0 m (λ i scores,
      s ← for_loopE 0 n (λ j s,
             aj ← item altSolves j;
             Ok (nadd s (nmul (rd (weights crit) j) (rd (weights aj) i))))
           (Fin 0);
      Ok (<[i := s]> scores))
    (replicate m (Fin 0)).

(** [alternatives.map((name, i) => ({name, score: scores[i]})).sort(...)]. *)
Definition rank (alternatives : list string) (scores : list num) : list ranked :=
  js_sort (λ a b, nsub (r_score b) (r_score a))
    (imap (λ i name, mkRanked name (rd scores i)) alternatives).

(** [acc[c] = v] on an object that [{}] created, as the map of its own
    properties.  The key [__proto__] is the accessor that
    [Object.prototype] supplies: an assignment to it replaces the prototype
    (for an array value) or does nothing (for a number), and creates no
    own property. *)
Definition set_property {V : Type} (c : string) (v : V) (acc : gmap string V)
    : gmap string V :=
  if decide (c = "__proto__") then acc else <[c := v]> acc.

(** [criteria.reduce((acc, c, i) => { acc[c] = f(altSolves[i]); return acc; }, {})]. *)
Definition by_criterion {V : Type} (f : SolveResult → V) (criteria : list string)
    (altSolves : list SolveResult) : result (gmap string V) :=
  for_loopE 0 (length criteria) (λ i acc,
      a ← item altSolves i;
      Ok (set_property (default "undefined" (criteria !! i)) (f a) acc))
    ∅.

Definition computeResults (st : state) : result results :=
  let crit := ahpSolve (criteriaMatrix st) in
  let altSolves := map ahpSolve (altMatrices st) in
  let m := length (alternatives st) in
  let n := length (criteria st) in
  scores ← final_scores crit altSolves m n;
  let ranking := rank (alternatives st) scores in
  byW ← by_criterion weights (criteria st) altSolves;
  byCR ← by_criterion cr (criteria st) altSolves;
  Ok (mkResults (weights crit) (cr crit) byW byCR scores ranking).

(** ** The store, [cloneMatrix] and [setPairwise]

    [setPairwise] writes into arrays, so a matrix is here a reference to an
    array of references to row arrays, in a store that grows by
    allocation. *)

Abbreviation loc := nat (only parsing).

Inductive object : Type :=
  | ORow (cells : list num)
  | OMat (rows : list loc).

Abbreviation heap := (list object).

(** A computation over the store that may throw. *)
Definition M (A : Type) : Type := heap → result (A * heap).

Definition ret {A : Type} (a : A) : M A := λ h, Ok (a, h).

Definition bind {A B : Type} (m : M A) (f : A → M B) : M B := λ h,
  match m h with Ok (a, h') => f a h' | Throw => Throw end.

Notation "'let*' x ':=' m 'in' k" := (bind m (λ x, k))
  (at level 10, x name, m at level 100, k at level 200).
Notation "'run' m 'then' k" := (bind m (λ _, k))
  (at level 10, m at level 100, k at level 200).

Definition alloc (o : object) : M loc := λ h, Ok (length h, h ++ [o]).

(** The elements of the row array at [r]. *)
Definition get_row (r : loc) : M (list num) := λ h,
  match h !! r with Some (ORow c) => Ok (c, h) | _ => Throw end.

(** The row references of the matrix at [a]. *)
Definition get_mat (a : loc) : M (list loc) := λ h,
  match h !! a with Some (OMat rs) => Ok (rs, h) | _ => Throw end.

(** [B[i]] where a cell of it is then assigned: [undefined] throws. *)
Definition mat_item (b : loc) (i : nat) : M loc :=
  let* rs := get_mat b in
  match rs !! i with Some r => ret r | None => λ _, Throw end.

(** [row[j] = v] on a list: an index past the end extends the array, the
    slots in between are holes (read as [undefined], here [NaN]). *)
Definition write (c : list num) (j : nat) (v : num) : list num :=
  if decide (j < length c)%nat then <[j := v]> c
  else c ++ replicate (j - length c) NaN ++ [v].

Definition set_cell (r : loc) (j : nat) (v : num) : M unit := λ h,
  match h !! r with
  | Some (ORow c) => Ok ((), <[r := ORow (write c j v)]> h)
  | _ => Throw
  end.

Fixpoint mapM_heap {A B : Type} (f : A → M B) (l : list A) : M (list B) :=
  match l with
  | [] => ret []
  | x :: l' => let* y := f x in let* ys := mapM_heap f l' in ret (y :: ys)
  end.

Fixpoint for_heap (ks : list nat) (body : nat → M unit) : M unit :=
  match ks with
  | [] => ret ()
  | k :: ks' => run body k then for_heap ks' body
  end.

(** [A.map(r => r.slice())]. *)
Definition cloneMatrix (a : loc) : M loc :=
  let* rs := get_mat a in
  let* rs' := mapM_heap (λ r, let* c := get_row r in alloc (ORow c)) rs in
  alloc (OMat rs').

Definition setPairwise (a : loc) (i j : nat) (v : num) : M loc :=
  let* b := cloneMatrix a in
  let* bi := mat_item b i in
  run set_cell bi j v then
  let* bj := mat_item b j in
  run set_cell bj i (ndiv (Fin 1) v) then
  let* rs := get_mat b in
  run for_heap (seq 0 (length rs)) (λ k, let* bk := mat_item b k in set_cell bk k (Fin 1)) then
  ret b.

(** The matrix value that the store holds at [a]. *)
Definition read_matrix (h : heap) (a : loc) : option matrix :=
  match h !! a with
  | Some (OMat rs) =>
      mapM (λ r, match h !! r with Some (ORow c) => Some c | _ => None end) rs
  | _ => None
  end.

(** ** The persisted state and [loadState] *)

(** A value produced by [JSON.parse]. *)
#[warnings="-register-all"]
Inductive json : Type :=
  | JNull
  | JBool (b : bool)
  | JNum (x : num)
  | JStr (s : string)
  | JArr (items : list json)
  | JObj (fields : gmap string json).

(** [v.k] for one of the field names of the state; [None] is [undefined].
    [null] throws, a boolean, number, string or array has none of these
    fields. *)
Definition prop (v : json) (k : string) : result (option json) :=
  match v with
  | JNull => Throw
  | JObj f => Ok (f !! k)
  | _ => Ok None
  end.

(** [!v] is false. *)
Definition truthy (v : option json) : bool :=
  match v with
  | None | Some JNull => false
  | Some (JBool b) => b
  | Some (JNum x) => match x with Fin q => bool_decide (q ≠ 0) | NaN => false | _ => true end
  | Some (JStr s) => bool_decide (s ≠ "")
  | Some (JArr _) | Some (JObj _) => true
  end.

Definition isArray (v : option json) : bool :=
  match v with Some (JArr _) => true | _ => false end.

(** [v.length] where the checks made before have left an array in [v]. *)
Definition length_of (v : option json) : result nat :=
  match v with Some (JArr l) => Ok (length l) | _ => Throw end.

Definition json_of_matrix (A : matrix) : json :=
  JArr (map (λ row, JArr (map JNum row)) A).

Definition json_strings (l : list string) : json := JArr (map JStr l).

(** [initMatrices(st)] on the fields of [st]. *)
Definition initMatrices (f : gmap string json) : result (gmap string json) :=
  nc ← length_of (f !! "criteria");
  let f1 := <["criteriaMatrix" := json_of_matrix (identityMatrix nc)]> f in
  cs ← match f1 !! "criteria" with Some (JArr l) => Ok l | _ => Throw end;
  na ← length_of (f1 !! "alternatives");
  Ok (<["altMatrices" := JArr (map (λ _, json_of_matrix (identityMatrix na)) cs)]> f1).

Definition defaultState : json :=
  let st : gmap string json :=
    <["problem" := JObj (<["name" := JStr "Logistics"]>
                        (<["goal" := JStr "Select the best warehouse location"]> ∅))]>
    (<["criteria" := json_strings ["Transportation cost"; "Delivery lead time"; "Service reliability"]]>
    (<["alternatives" := json_strings ["Location A"; "Location B"; "Location C"]]>
    (<["criteriaMatrix" := JArr []]>
    (<["altMatrices" := JArr []]>
    (<["activeCritIdx" := JNum (Fin 0)]> ∅))))) in
  match initMatrices st with Ok st' => JObj st' | Throw => JObj st end.

(** [cond ? initMatrices(st) : nothing]. *)
Definition init_if (c : bool) (f : gmap string json) : result (gmap string json) :=
  if c then initMatrices f else Ok f.

(** The number held by [st.activeCritIdx] once it is known to be one. *)
Definition num_of (v : option json) : num :=
  match v with Some (JNum x) => x | _ => NaN end.

(** [typeof v === "number"]. *)
Definition is_number (v : option json) : bool :=
  match v with Some (JNum _) => true | _ => false end.

Definition zero_if (c : bool) (f : gmap string json) : gmap string json :=
  if c then <["activeCritIdx" := JNum (Fin 0)]> f else f.

(** [m => !Array.isArray(m) || m.length !== na]. *)
Definition bad_alt_matrix (na : nat) (m : json) : bool :=
  match m with JArr rows => bool_decide (length rows ≠ na) | _ => true end.

(** The [try] block after [JSON.parse]: [Ok (Some st')] is [return st],
    [Ok None] is the [return defaultState()] of the first test.  Only an
    object has a truthy [problem], so a value that passes the first test
    is one. *)
Definition loadState_try (st : json) : result (option json) :=
  p ← prop st "problem";
  c ← prop st "criteria";
  a ← prop st "alternatives";
  if negb (truthy p) || negb (isArray c) || negb (isArray a) then Ok None else
  match st with
  | JObj f =>
      f ← init_if (negb (isArray (f !! "criteriaMatrix")) || negb (isArray (f !! "altMatrices"))) f;
      let f := zero_if (negb (is_number (f !! "activeCritIdx"))) f in
      let f := zero_if (nlt (num_of (f !! "activeCritIdx")) (Fin 0)) f in
      nc ← length_of (f !! "criteria");
      let f := zero_if (nle (of_nat nc) (num_of (f !! "activeCritIdx"))) f in
      lm ← length_of (f !! "criteriaMatrix");
      nc ← length_of (f !! "criteria");
      f ← init_if (bool_decide (lm ≠ nc)) f;
      la ← length_of (f !! "altMatrices");
      nc ← length_of (f !! "criteria");
      f ← init_if (bool_decide (la ≠ nc)) f;
      ms ← match f !! "altMatrices" with Some (JArr l) => Ok l | _ => Throw end;
      na ← length_of (f !! "alternatives");
      f ← init_if (existsb (bad_alt_matrix na) ms) f;
      Ok (Some (JObj f))
  | _ => Throw
  end.

Section Storage.

(** [JSON.parse], a function of the host. *)
Variable JSON_parse : string → result json.

(** [loadState()], where [stored] is [localStorage.getItem(STORAGE_KEY)]. *)
Definition loadState (stored : option string) : json :=
  match stored with
  | None => defaultState
  | Some raw =>
      if bool_decide (raw = "") then defaultState else
      match (st ← JSON_parse raw; loadState_try st) with
      | Ok (Some st) => st
      | Ok None => defaultState
      | Throw => defaultState
      end
  end.

End Storage.

(** ** Decidable equality of the results *)

Global Instance result_eq_dec {A : Type} `{EqDecision A} : EqDecision (result A).
Proof. solve_decision. Defined.
Global Instance issue_eq_dec : EqDecision issue.
Proof. solve_decision. Defined.
Global Instance ranked_eq_dec : EqDecision ranked.
Proof. solve_decision. Defined.

(** * Properties *)

(** ** Loops *)

Lemma for_range_S {S : Type} (n : nat) (body : nat → S → S) (s0 : S) :
  for_range (Datatypes.S n) body s0 = body n (for_range n body s0).
Proof. unfold for_range. by rewrite seq_S, fold_left_app. Qed.

Lemma for_loopE_nil {S : Type} (lo hi : nat) (body : nat → S → result S) (s0 : S) :
  (hi ≤ lo)%nat → for_loopE lo hi body s0 = Ok s0.
Proof. intros H. unfold for_loopE. by replace (hi - lo)%nat with 0%nat by lia. Qed.

Lemma for_loopE_last {S : Type} (lo hi : nat) (body : nat → S → result S) (s0 : S) :
  (lo ≤ hi)%nat →
  for_loopE lo (Datatypes.S hi) body s0 = (s ← for_loopE lo hi body s0; body hi s).
Proof.
  intros H. unfold for_loopE.
  replace (Datatypes.S hi - lo)%nat with (Datatypes.S (hi - lo)) by lia.
  rewrite seq_S, fold_left_app. simpl. by replace (lo + (hi - lo))%nat with hi by lia.
Qed.

(** ** The iteration cap (C8) *)

Lemma power_loop_passes (A : matrix) (n : nat) (tol : num) (remaining : nat) :
  ∀ (w : list num) (passes : nat),
    (passes ≤ snd (power_loop A n tol remaining w passes) ≤ passes + remaining)%nat.
Proof.
  induction remaining as [|r IH]; intros w passes; unfold power_loop; fold power_loop.
  - simpl. lia.
  - destruct (power_step A n w) as [wNew diff].
    destruct (nlt diff tol); cbn [snd].
    + lia.
    + specialize (IH wNew (S passes)). lia.
Qed.

(** C8: for every matrix, iteration cap and tolerance, the loop of
    [powerIterationWeights] makes at most [maxIter] passes, whether the
    tolerance is reached or not; with the default arguments, at most 1500.
    The function itself is total: every call returns its record. *)
Theorem powerIteration_pass_bound (A : matrix) (maxIter : nat) (tol : num) :
  (power_passes A maxIter tol ≤ maxIter)%nat
  ∧ (power_passes A maxIter_default tol_default ≤ 1500)%nat
  ∧ ∃ w lam, powerIterationWeights A maxIter tol = mkPower w lam.
Proof.
  unfold power_passes. split; [|split].
  - pose proof (power_loop_passes A (length A) tol maxIter
      (replicate (length A) (ndiv (Fin 1) (of_nat (length A)))) 0). lia.
  - pose proof (power_loop_passes A (length A) tol_default maxIter_default
      (replicate (length A) (ndiv (Fin 1) (of_nat (length A)))) 0).
    unfold maxIter_default in *. lia.
  - destruct (powerIterationWeights A maxIter tol) as [w lam]. by exists w, lam.
Qed.

(** Without convergence the cap is what stops the loop: on a matrix with a
    [NaN] entry all the passes are made. *)
Example power_passes_nan : power_passes [[NaN]] 25 tol_default = 25%nat.
Proof. vm_compute. reflexivity. Qed.

(** ** The Random Index and the consistency ratio (C4) *)

(** The table as the specification words it: Saaty's values for the orders
    1 to 10, and 1.49 above. *)
Definition saaty_table (n : nat) : num :=
  match n with
  | 1 | 2 => lit 0 1
  | 3 => lit 58 100
  | 4 => lit 90 100
  | 5 => lit 112 100
  | 6 => lit 124 100
  | 7 => lit 132 100
  | 8 => lit 141 100
  | 9 => lit 145 100
  | _ => lit 149 100
  end%nat.

Lemma random_index_large (n : nat) : (10 < n)%nat → random_index n = lit 149 100.
Proof.
  intros H. unfold random_index, RI.
  rewrite !lookup_insert_ne by lia. by rewrite lookup_empty.
Qed.

Lemma random_index_table (n : nat) : (1 ≤ n)%nat → random_index n = saaty_table n.
Proof.
  intros H. destruct (decide (10 < n)%nat) as [Hn|Hn].
  - rewrite random_index_large by done.
    do 10 (destruct n as [|n]; [lia|]). done.
  - do 11 (destruct n as [|n]; [first [lia | vm_compute; reflexivity]|]). lia.
Qed.

Lemma lit_zero_iff (p : Z) (q : positive) : lit p q = Fin 0 ↔ p = 0%Z.
Proof.
  unfold lit. split.
  - intros H. assert (Q2Qc (p # q) = Q2Qc 0) as H' by congruence.
    apply Q2Qc_eq_iff in H'. unfold Qeq in H'. simpl in H'. lia.
  - intros ->. f_equal. apply Qc_is_canon. simpl. rewrite Qred_correct. reflexivity.
Qed.

Lemma random_index_zero_iff (n : nat) :
  (1 ≤ n)%nat → random_index n = Fin 0 ↔ (n ≤ 2)%nat.
Proof.
  intros H. rewrite random_index_table by done.
  do 11 (destruct n as [|n]; [first [lia | simpl; rewrite lit_zero_iff; lia]|]).
  simpl. rewrite lit_zero_iff. lia.
Qed.

Lemma consistency_cr_cases (A : matrix) (lam : num) (n : nat) :
  length A = n → (1 ≤ n)%nat →
  ((n ≤ 2)%nat → c_cr (consistency A lam) = Fin 0)
  ∧ ((2 < n)%nat →
     c_cr (consistency A lam) = ndiv (c_ci (consistency A lam)) (saaty_table n)).
Proof.
  intros HA Hn. subst n.
  pose proof (random_index_zero_iff (length A) Hn) as Hz.
  pose proof (random_index_table (length A) Hn) as Ht.
  split.
  - intros Hle. unfold consistency; simpl. by rewrite decide_True by tauto.
  - intros Hlt. unfold consistency; simpl. rewrite decide_False by (rewrite Hz; lia).
    by rewrite Ht.
Qed.

(** C4: for a matrix of order [n >= 1] the consistency evaluator takes the
    Random Index from Saaty's table for [n] in 1..10 and 1.49 for every
    [n > 10]; the index is 0 exactly for [n <= 2], where [cr] is 0, and
    [cr = ci / ri] otherwise. *)
Theorem consistency_random_index (A : matrix) (lam : num) (n : nat) :
  length A = n → (1 ≤ n)%nat →
  random_index n = saaty_table n
  ∧ ((10 < n)%nat → random_index n = lit 149 100)
  ∧ (random_index n = Fin 0 ↔ (n ≤ 2)%nat)
  ∧ c_cr (consistency A lam)
    = (if decide (random_index n = Fin 0) then Fin 0
       else ndiv (c_ci (consistency A lam)) (random_index n))
  ∧ ((n ≤ 2)%nat → c_cr (consistency A lam) = Fin 0)
  ∧ ((2 < n)%nat →
     c_cr (consistency A lam) = ndiv (c_ci (consistency A lam)) (saaty_table n)).
Proof.
  intros HA Hn.
  destruct (consistency_cr_cases A lam n HA Hn) as [Hsmall Hlarge].
  split; [by apply random_index_table|].
  split; [apply random_index_large|].
  split; [by apply random_index_zero_iff|].
  split; [by subst n|].
  by split.
Qed.

Lemma consistency_random_index_witness :
  length (identityMatrix 3) = 3%nat ∧ (1 ≤ 3)%nat
  ∧ random_index 3 = lit 58 100.
Proof.
  split; [reflexivity|]. split; [lia|].
  exact (proj1 (consistency_random_index (identityMatrix 3) (lit 3 1) 3 eq_refl
                  ltac:(lia))).
Defined.

(** ** The order on numbers *)

Definition not_nan (a : num) : Prop := a ≠ NaN.

Global Instance not_nan_dec (a : num) : Decision (not_nan a).
Proof. unfold not_nan. apply _. Defined.

Lemma nle_total (a b : num) : not_nan a → not_nan b → nlt a b = false → nle b a = true.
Proof. unfold not_nan. destruct a, b; simpl; try congruence; by intros _ _ ->. Qed.

Lemma nlt_nle (a b : num) : nlt a b = true → nle a b = true.
Proof.
  destruct a as [x| | |], b as [y| | |]; simpl; try done.
  rewrite bool_decide_eq_true, negb_true_iff, bool_decide_eq_false.
  intros H. by apply Qcle_not_lt, Qclt_le_weak.
Qed.

Lemma nle_trans (a b c : num) : nle a b = true → nle b c = true → nle a c = true.
Proof.
  destruct a as [x| | |], b as [y| | |], c as [z| | |]; simpl; try done.
  rewrite !negb_true_iff, !bool_decide_eq_false. intros H1 H2.
  apply Qcle_not_lt. apply Qcnot_lt_le in H1, H2. by apply Qcle_trans with y.
Qed.

(** The comparator [(a, b) => b - a] is positive exactly when [a < b]. *)
Lemma cmp_desc_gt (a b : num) : ngt (nsub b a) (Fin 0) = nlt a b.
Proof.
  destruct a as [x| | |], b as [y| | |]; simpl; try done.
  apply bool_decide_ext. symmetry. apply Qclt_minus_iff.
Qed.

(** ** The sort *)

Section Sort.

Context {A : Type} (key : A → num).

(** The comparator of both calls of [sort] in the source. *)
Definition by_key_desc (a b : A) : num := nsub (key b) (key a).

(** [a] may stand before [b] in a descending list. *)
Definition desc (a b : A) : Prop := nle (key b) (key a) = true.

Lemma sort_insert_perm (x : A) (l : list A) : sort_insert by_key_desc x l ≡ₚ x :: l.
Proof.
  induction l as [|y l IH]; simpl; [done|].
  destruct (ngt (by_key_desc x y) (Fin 0)); [|done].
  rewrite IH. apply Permutation_swap.
Qed.

Lemma js_sort_perm (l : list A) : js_sort by_key_desc l ≡ₚ l.
Proof.
  induction l as [|x l IH]; simpl; [done|].
  by rewrite sort_insert_perm, IH.
Qed.

Lemma sort_insert_sorted (x : A) (l : list A) :
  not_nan (key x) → Forall (λ a, not_nan (key a)) l →
  StronglySorted desc l → StronglySorted desc (sort_insert by_key_desc x l).
Proof.
  intros Hx Hl Hs. induction Hs as [|y l Hs IH Hy]; simpl.
  - repeat constructor.
  - apply Forall_cons in Hl as [Hky Hl].
    unfold by_key_desc at 1. rewrite cmp_desc_gt.
    destruct (nlt (key x) (key y)) eqn:Hlt.
    + constructor; [by apply IH|].
      rewrite sort_insert_perm. constructor; [|done].
      by apply nlt_nle.
    + assert (desc x y) as Hxy by (by apply nle_total).
      constructor; [by constructor|].
      constructor; [done|].
      eapply Forall_impl; [exact Hy|].
      intros z Hz. unfold desc in *. by apply nle_trans with (key y).
Qed.

Lemma js_sort_sorted (l : list A) :
  Forall (λ a, not_nan (key a)) l → StronglySorted desc (js_sort by_key_desc l).
Proof.
  induction 1 as [|x l Hx Hl IH]; simpl; [constructor|].
  apply sort_insert_sorted; [done| |done].
  by rewrite js_sort_perm.
Qed.

(** Stability: an element never moves past one of the same key. *)
Lemma sort_insert_stable (s : num) (x : A) (l : list A) :
  filter (λ a, key a = s) (sort_insert by_key_desc x l)
  = filter (λ a, key a = s) (x :: l).
Proof.
  induction l as [|y l IH]; simpl; [done|].
  unfold by_key_desc at 1. rewrite cmp_desc_gt.
  destruct (nlt (key x) (key y)) eqn:Hlt; [|done].
  rewrite !filter_cons, IH, filter_cons.
  destruct (decide (key y = s)) as [Hy|Hy], (decide (key x = s)) as [Hx|Hx]; try done.
  exfalso. rewrite Hx, Hy in Hlt. destruct s; simpl in Hlt; try done.
  apply bool_decide_eq_true in Hlt. by apply Qclt_not_eq in Hlt.
Qed.

Lemma js_sort_stable (s : num) (l : list A) :
  filter (λ a, key a = s) (js_sort by_key_desc l) = filter (λ a, key a = s) l.
Proof.
  induction l as [|x l IH]; simpl; [done|].
  by rewrite sort_insert_stable, !filter_cons, IH.
Qed.

End Sort.

Lemma slice0_nil {A : Type} (k : Z) : slice0 (@nil A) k = [].
Proof. unfold slice0. destruct (decide _); by rewrite take_nil. Qed.

(** ** Hints below order three (C10) *)

(** C10: for a label list of length at most 2 and a matrix with as many
    rows, [inconsistencyHints] returns the empty list for every [topK] (and
    every [Math.log]): no index [k] differs from both [i] and [j]. *)
Theorem hints_empty_below_three (Math_log : num → num) (labels : list string)
    (A : matrix) (topK : Z) :
  (length labels ≤ 2)%nat → length A = length labels →
  inconsistencyHints Math_log labels A topK = Ok [].
Proof.
  intros Hn HA.
  destruct labels as [|a [|b [|c labels]]]; simpl in Hn; [| | |lia];
    destruct A as [|r0 [|r1 [|r2 A]]]; simplify_eq/=.
  - unfold inconsistencyHints, collect_issues. simpl. by rewrite slice0_nil.
  - unfold inconsistencyHints, collect_issues. simpl. by rewrite slice0_nil.
  - unfold inconsistencyHints, collect_issues, for_loopE. simpl.
    unfold pair_body, witness_loop, for_loopE. simpl.
    destruct (negb (isFinite (rd r0 1)) || nle (rd r0 1) (Fin 0)); simpl;
      by rewrite slice0_nil.
Qed.

Lemma hints_empty_below_three_witness :
  inconsistencyHints (λ x, x) ["quality"; "price"] [[lit 1 1; lit 7 1]; [lit 1 7; lit 1 1]] 3
  = Ok [].
Proof. apply hints_empty_below_three; simpl; [lia|reflexivity]. Defined.

(** ** Loop invariants *)

Lemma for_loopE_inv {S : Type} (P : nat → S → Prop) (lo hi : nat)
    (body : nat → S → result S) (s0 : S) :
  (lo ≤ hi)%nat → P lo s0 →
  (∀ i s, (lo ≤ i < hi)%nat → P i s → ∃ s', body i s = Ok s' ∧ P (Datatypes.S i) s') →
  ∃ r, for_loopE lo hi body s0 = Ok r ∧ P hi r.
Proof.
  intros Hle H0 Hstep. induction Hle as [|hi Hle IH].
  - exists s0. split; [by apply for_loopE_nil|done].
  - destruct IH as (r & Hr & HP).
    { intros i s Hi. apply Hstep. lia. }
    destruct (Hstep hi r ltac:(lia) HP) as (s' & Hs' & HP').
    exists s'. split; [|done].
    by rewrite for_loopE_last, Hr.
Qed.

Lemma for_loopE_post {S : Type} (P : S → Prop) (lo hi : nat)
    (body : nat → S → result S) (s0 r : S) :
  P s0 → (∀ i s s', P s → body i s = Ok s' → P s') →
  for_loopE lo hi body s0 = Ok r → P r.
Proof.
  intros H0 Hstep. unfold for_loopE.
  generalize (seq lo (hi - lo)). intros l. revert s0 H0.
  induction l as [|i l IH]; intros s0 H0; simpl.
  - by intros [= <-].
  - destruct (body i s0) as [s'|] eqn:Hb.
    + apply IH. by eapply Hstep.
    + clear. induction l as [|k l IHl]; simpl; [done|]. exact IHl.
Qed.

(** ** Finite sums of rationals *)

(** [f 0 + ... + f (n - 1)], added from the left as the loops do. *)
Fixpoint bigsum (f : nat → Qc) (n : nat) : Qc :=
  match n with
  | O => 0
  | S k => bigsum f k + f k
  end.

(** The sum of a list. *)
Definition qsum (l : list Qc) : Qc := foldr Qcplus 0 l.

(** [l[i]] for a list of rationals, 0 past the end. *)
Definition qnth (l : list Qc) (i : nat) : Qc := default 0 (l !! i).

Lemma bigsum_ext (f g : nat → Qc) (n : nat) :
  (∀ i, (i < n)%nat → f i = g i) → bigsum f n = bigsum g n.
Proof.
  induction n as [|n IH]; intros H; simpl; [done|].
  rewrite IH by (intros; apply H; lia). by rewrite H by lia.
Qed.

Lemma bigsum_zero (n : nat) : bigsum (λ _, 0) n = 0.
Proof. induction n as [|n IH]; simpl; [done|]. rewrite IH. ring. Qed.

Lemma bigsum_const (c : Qc) (n : nat) : bigsum (λ _, c) n = Qc_of_Z (Z.of_nat n) * c.
Proof.
  induction n as [|n IH]; simpl bigsum.
  - change (Qc_of_Z (Z.of_nat 0)) with (Qc_of_Z 0). rewrite Z2Qc_inj_0. ring.
  - rewrite IH, Nat2Z.inj_succ, <-Z.add_1_r, Z2Qc_inj_add, Z2Qc_inj_1. ring.
Qed.

Lemma bigsum_plus (f g : nat → Qc) (n : nat) :
  bigsum (λ i, f i + g i) n = bigsum f n + bigsum g n.
Proof. induction n as [|n IH]; simpl; [ring|]. rewrite IH. ring. Qed.

Lemma bigsum_scale_l (c : Qc) (f : nat → Qc) (n : nat) :
  bigsum (λ i, c * f i) n = c * bigsum f n.
Proof. induction n as [|n IH]; simpl; [ring|]. rewrite IH. ring. Qed.

Lemma bigsum_scale_r (c : Qc) (f : nat → Qc) (n : nat) :
  bigsum (λ i, f i * c) n = bigsum f n * c.
Proof. induction n as [|n IH]; simpl; [ring|]. rewrite IH. ring. Qed.

Lemma bigsum_exchange (f : nat → nat → Qc) (n m : nat) :
  bigsum (λ i, bigsum (λ j, f i j) m) n = bigsum (λ j, bigsum (λ i, f i j) n) m.
Proof.
  induction n as [|n IH]; simpl.
  - by rewrite bigsum_zero.
  - by rewrite IH, bigsum_plus.
Qed.

Lemma bigsum_le (f g : nat → Qc) (n : nat) :
  (∀ i, (i < n)%nat → f i ≤ g i) → bigsum f n ≤ bigsum g n.
Proof.
  induction n as [|n IH]; intros H; simpl; [done|].
  apply Qcplus_le_compat; [apply IH; intros; apply H; lia|apply H; lia].
Qed.

Lemma bigsum_pos (f : nat → Qc) (n : nat) :
  (0 < n)%nat → (∀ i, (i < n)%nat → 0 < f i) → 0 < bigsum f n.
Proof.
  intros Hn H. induction n as [|n IH]; [lia|]. simpl.
  destruct n as [|n].
  - simpl. rewrite Qcplus_0_l. apply H. lia.
  - apply Qcplus_pos_pos; [apply IH; [lia|intros; apply H; lia]|apply H; lia].
Qed.

Lemma bigsum_shift (f : nat → Qc) (n : nat) :
  bigsum f (S n) = f 0%nat + bigsum (λ i, f (S i)) n.
Proof.
  induction n as [|n IH]; [simpl; ring|].
  change (bigsum f (S (S n))) with (bigsum f (S n) + f (S n)).
  rewrite IH. simpl. ring.
Qed.

Lemma qsum_bigsum (l : list Qc) : qsum l = bigsum (qnth l) (length l).
Proof.
  induction l as [|x l IH]; [done|].
  change (length (x :: l)) with (S (length l)).
  rewrite bigsum_shift. simpl. by rewrite IH.
Qed.

Lemma qsum_map_seq (f : nat → Qc) (n : nat) : qsum (map f (seq 0 n)) = bigsum f n.
Proof.
  rewrite qsum_bigsum, length_map, length_seq.
  apply bigsum_ext. intros i Hi. unfold qnth.
  by rewrite list_lookup_fmap, lookup_seq_lt.
Qed.

(** ** Arrays of finite numbers *)

Lemma ndiv_fin (x y : Qc) : y ≠ 0 → ndiv (Fin x) (Fin y) = Fin (x / y).
Proof. intros H. simpl. by rewrite decide_False. Qed.

Lemma Qc_pos_ne (x : Qc) : 0 < x → x ≠ 0.
Proof. intros H. by apply not_eq_sym, Qclt_not_eq. Qed.

Lemma rd_map_Fin (l : list Qc) (i : nat) :
  (i < length l)%nat → rd (map Fin l) i = Fin (qnth l i).
Proof.
  intros Hi. unfold rd, qnth. rewrite list_lookup_fmap.
  destruct (lookup_lt_is_Some_2 l i Hi) as [x ->]. done.
Qed.

Lemma rd_map_seq (f : nat → num) (n i : nat) :
  (i < n)%nat → rd (map f (seq 0 n)) i = f i.
Proof. intros Hi. unfold rd. by rewrite list_lookup_fmap, lookup_seq_lt. Qed.

(** The step of a loop that fills an array cell by cell. *)
Lemma fill_next {A : Type} (f : nat → A) (z : A) (m i : nat) :
  (i < m)%nat →
  <[i := f i]> (map f (seq 0 i) ++ replicate (m - i) z)
  = map f (seq 0 (S i)) ++ replicate (m - S i) z.
Proof.
  intros Hi. rewrite insert_app_r_alt by (rewrite length_map, length_seq; lia).
  rewrite length_map, length_seq, Nat.sub_diag.
  replace (m - i)%nat with (S (m - S i)) by lia.
  rewrite seq_S, map_app. simpl. by rewrite <-app_assoc.
Qed.

Lemma qnth_zip_with (f : Qc → list Qc → Qc) (l : list Qc) (k : list (list Qc)) (j : nat) :
  (j < length l)%nat → length k = length l →
  qnth (zip_with f l k) j = f (qnth l j) (default [] (k !! j)).
Proof.
  intros Hj Hk. unfold qnth. rewrite lookup_zip_with.
  destruct (lookup_lt_is_Some_2 l j Hj) as [x ->].
  destruct (lookup_lt_is_Some_2 k j ltac:(lia)) as [v ->]. done.
Qed.

(** ** The aggregator (C6) *)

(** C6: for criteria weights [wC] that sum to 1 and one vector of [m]
    alternative weights per criterion, each summing to 1, the loop nest of
    [computeResults] yields finite scores with
    [score[i] = sum over j of wC[j] * wA_j[i]], and the [m] scores sum to
    1 exactly. *)
Theorem aggregate_scores_sum_one (crit : SolveResult) (altSolves : list SolveResult)
    (wC : list Qc) (wA : list (list Qc)) (m : nat) :
  weights crit = map Fin wC →
  map weights altSolves = map (map Fin) wA →
  length wA = length wC →
  qsum wC = 1 →
  Forall (λ v, length v = m ∧ qsum v = 1) wA →
  ∃ ss : list Qc,
    final_scores crit altSolves m (length wC) = Ok (map Fin ss)
    ∧ length ss = m
    ∧ (∀ i, (i < m)%nat →
         qnth ss i = qsum (zip_with (λ c v, c * qnth v i) wC wA))
    ∧ qsum ss = 1.
Proof.
  intros Hcrit Halt Hlen HsumC HA.
  set (n := length wC).
  set (a := λ j i : nat, qnth (default [] (wA !! j)) i).
  set (sc := λ i : nat, bigsum (λ j, qnth wC j * a j i) n).
  assert (Hrow : ∀ j, (j < n)%nat → ∃ aj v,
             altSolves !! j = Some aj ∧ wA !! j = Some v
             ∧ weights aj = map Fin v ∧ length v = m ∧ qsum v = 1).
  { intros j Hj.
    destruct (lookup_lt_is_Some_2 wA j ltac:(lia)) as [v Hv].
    assert (length altSolves = length wA) as Hl.
    { rewrite <-(length_map weights altSolves), Halt. by rewrite length_map. }
    destruct (lookup_lt_is_Some_2 altSolves j ltac:(lia)) as [aj Haj].
    exists aj, v. repeat split; try done.
    - assert (map weights altSolves !! j = Some (weights aj)) as H1
        by (by rewrite list_lookup_fmap, Haj).
      rewrite Halt, list_lookup_fmap, Hv in H1. simpl in H1. congruence.
    - by apply (Forall_lookup_1 _ _ _ _ HA Hv).
    - by apply (Forall_lookup_1 _ _ _ _ HA Hv). }
  exists (map sc (seq 0 m)).
  split; [|split; [|split]].
  - unfold final_scores.
    destruct (for_loopE_inv
      (λ i scores, scores = map (λ i', Fin (sc i')) (seq 0 i) ++ replicate (m - i) (Fin 0))
      0 m
      (λ i scores,
         s ← for_loopE 0 n (λ j s,
                aj ← item altSolves j;
                Ok (nadd s (nmul (rd (weights crit) j) (rd (weights aj) i))))
              (Fin 0);
         Ok (<[i := s]> scores))
      (replicate m (Fin 0))) as (r & Hr & HP).
    + lia.
    + simpl. by rewrite Nat.sub_0_r.
    + intros i scores Hi ->.
      destruct (for_loopE_inv
        (λ j s, s = Fin (bigsum (λ j', qnth wC j' * a j' i) j))
        0 n
        (λ j s,
           aj ← item altSolves j;
           Ok (nadd s (nmul (rd (weights crit) j) (rd (weights aj) i))))
        (Fin 0)) as (s & Hs & HQ).
      * lia.
      * done.
      * intros j s Hj ->.
        destruct (Hrow j ltac:(lia)) as (aj & v & Haj & Hv & Hw & Hlv & _).
        eexists. split; [|reflexivity].
        unfold item. rewrite Haj. simpl.
        rewrite Hcrit, Hw, !rd_map_Fin by (fold n; lia). simpl.
        unfold a. by rewrite Hv.
      * eexists. split; [rewrite Hs; simpl; reflexivity|].
        rewrite HQ. apply (fill_next (λ i', Fin (sc i'))). lia.
    + rewrite Hr. f_equal. rewrite HP, Nat.sub_diag. simpl.
      by rewrite app_nil_r, map_map.
  - by rewrite length_map, length_seq.
  - intros i Hi. unfold qnth at 1. rewrite list_lookup_fmap, lookup_seq_lt by done.
    simpl. unfold sc. rewrite qsum_bigsum.
    rewrite length_zip_with, Hlen, Nat.min_id. fold n.
    apply bigsum_ext. intros j Hj.
    by rewrite qnth_zip_with by (fold n; lia).
  - rewrite qsum_map_seq. unfold sc.
    rewrite bigsum_exchange.
    rewrite (bigsum_ext _ (qnth wC) n).
    + by rewrite <-qsum_bigsum.
    + intros j Hj. rewrite bigsum_scale_l.
      destruct (Hrow j Hj) as (aj & v & _ & Hv & _ & Hlv & Hsv).
      unfold a. rewrite Hv. simpl.
      rewrite <-Hlv, <-qsum_bigsum, Hsv. ring.
Qed.

Lemma aggregate_scores_sum_one_witness :
  ∃ ss : list Qc,
    final_scores (mkSolve [lit 3 4; lit 1 4] (lit 2 1) (lit 0 1) (lit 0 1))
      [mkSolve [lit 1 2; lit 1 3; lit 1 6] (lit 3 1) (lit 0 1) (lit 0 1);
       mkSolve [lit 1 5; lit 1 5; lit 3 5] (lit 3 1) (lit 0 1) (lit 0 1)] 3 2
    = Ok (map Fin ss)
    ∧ qsum ss = 1.
Proof.
  destruct (aggregate_scores_sum_one
    (mkSolve [lit 3 4; lit 1 4] (lit 2 1) (lit 0 1) (lit 0 1))
    [mkSolve [lit 1 2; lit 1 3; lit 1 6] (lit 3 1) (lit 0 1) (lit 0 1);
     mkSolve [lit 1 5; lit 1 5; lit 3 5] (lit 3 1) (lit 0 1) (lit 0 1)]
    [Q2Qc (3 # 4); Q2Qc (1 # 4)]
    [[Q2Qc (1 # 2); Q2Qc (1 # 3); Q2Qc (1 # 6)]; [Q2Qc (1 # 5); Q2Qc (1 # 5); Q2Qc (3 # 5)]]
    3) as (ss & H1 & _ & _ & H2).
  - reflexivity.
  - reflexivity.
  - reflexivity.
  - apply Qc_is_canon. vm_compute. reflexivity.
  - repeat constructor; apply Qc_is_canon; vm_compute; reflexivity.
  - exists ss. split; [exact H1|exact H2].
Defined.

(** ** The ranking (C7) *)

Lemma final_scores_length (crit : SolveResult) (altSolves : list SolveResult)
    (m n : nat) (scores : list num) :
  final_scores crit altSolves m n = Ok scores → length scores = m.
Proof.
  unfold final_scores. apply (for_loopE_post (λ s, length s = m)).
  - by rewrite length_replicate.
  - intros i s s' Hs Hb.
    destruct (for_loopE 0 n _ (Fin 0)) as [x|]; simplify_eq/=.
    by rewrite length_insert.
Qed.

Lemma computeResults_ranking (st : state) (r : results) :
  computeResults st = Ok r →
  ranking r = rank (alternatives st) (finalScores r)
  ∧ length (finalScores r) = length (alternatives st).
Proof.
  unfold computeResults. intros H.
  destruct (final_scores _ _ _ _) as [scores|] eqn:Hsc; [|done].
  apply final_scores_length in Hsc. simpl in H.
  destruct (by_criterion weights _ _) as [byW|]; [|done]. simpl in H.
  destruct (by_criterion cr _ _) as [byCR|]; [|done]. simpl in H.
  by simplify_eq/=.
Qed.

Lemma imap_ranked_zip (alts : list string) (scores : list num) :
  length scores = length alts →
  imap (λ i name, mkRanked name (rd scores i)) alts = zip_with mkRanked alts scores.
Proof.
  revert scores. induction alts as [|a alts IH]; intros [|s scores] Hl;
    simplify_eq/=; [done|].
  f_equal. rewrite <-IH by done. by apply imap_ext.
Qed.

(** C7: the ranking returned by [computeResults] holds the pairs
    (alternative name, final score), sorted by score in descending order;
    alternatives of equal score keep the relative order of the input list.
    The final scores are numbers (none is [NaN]). *)
Theorem ranking_sorted_stable (st : state) (r : results) :
  computeResults st = Ok r →
  Forall not_nan (finalScores r) →
  ranking r ≡ₚ zip_with mkRanked (alternatives st) (finalScores r)
  ∧ StronglySorted (λ a b, nle (r_score b) (r_score a) = true) (ranking r)
  ∧ ∀ s, filter (λ a, r_score a = s) (ranking r)
         = filter (λ a, r_score a = s)
             (zip_with mkRanked (alternatives st) (finalScores r)).
Proof.
  intros Hr Hnan. apply computeResults_ranking in Hr as [-> Hlen].
  unfold rank. rewrite imap_ranked_zip by done.
  split; [|split].
  - apply (js_sort_perm r_score).
  - apply (js_sort_sorted r_score).
    apply Forall_forall. intros x Hx.
    apply list_elem_of_lookup in Hx as [i Hx].
    apply lookup_zip_with_Some in Hx as (a & s & -> & _ & Hs). simpl.
    by apply (Forall_lookup_1 _ _ _ _ Hnan Hs).
  - intros s. apply (js_sort_stable r_score).
Qed.

(** Two criteria, three alternatives; the first and the last alternative
    tie. *)
Definition example_state : state :=
  mkState ("Logistics", "Select the best warehouse location")
    ["cost"; "time"] ["A"; "B"; "C"]
    [[lit 1 1; lit 3 1]; [lit 1 3; lit 1 1]]
    [ [[lit 1 1; lit 1 2; lit 1 1]; [lit 2 1; lit 1 1; lit 2 1]; [lit 1 1; lit 1 2; lit 1 1]];
      [[lit 1 1; lit 1 2; lit 1 1]; [lit 2 1; lit 1 1; lit 2 1]; [lit 1 1; lit 1 2; lit 1 1]] ].

Lemma ranking_sorted_stable_witness :
  ∃ r, computeResults example_state = Ok r
       ∧ map r_name (ranking r) = ["B"; "A"; "C"]
       ∧ StronglySorted (λ a b, nle (r_score b) (r_score a) = true) (ranking r).
Proof.
  eexists. split; [vm_compute; reflexivity|]. split; [reflexivity|].
  refine (proj1 (proj2 (ranking_sorted_stable example_state _ _ _))).
  - vm_compute. reflexivity.
  - apply (bool_decide_unpack _). vm_compute. exact I.
Defined.

(** ** [setPairwise]: a local update of a fresh copy (C2) *)

(** The invariants of a pairwise matrix of order [n]. *)
Definition valid_matrix (A : matrix) (n : nat) : Prop :=
  length A = n
  ∧ Forall (λ r, length r = n) A
  ∧ (∀ i j, (i < n)%nat → (j < n)%nat → ∃ q, rd2 A i j = Fin q ∧ 0 < q)
  ∧ (∀ i, (i < n)%nat → rd2 A i i = Fin 1)
  ∧ (∀ i j, (i < n)%nat → (j < n)%nat → i ≠ j →
       rd2 A i j = ndiv (Fin 1) (rd2 A j i)).

(** [X[p][q] = v] on a matrix value. *)
Definition set_entry (X : matrix) (p q : nat) (v : num) : matrix :=
  match X !! p with
  | Some c => <[p := write c q v]> X
  | None => X
  end.

(** The matrix value that [setPairwise] builds from the value [A]. *)
Definition setPairwise_value (A : matrix) (i j : nat) (v : num) : matrix :=
  fold_left (λ X k, set_entry X k k (Fin 1)) (seq 0 (length A))
    (set_entry (set_entry A i j v) j i (ndiv (Fin 1) v)).

(** The store [h] extended by a fresh copy [X] of a matrix. *)
Definition extended (h : heap) (X : matrix) : heap :=
  h ++ map ORow X ++ [OMat (seq (length h) (length X))].

Lemma rd_write (c : list num) (j q : nat) (v : num) :
  rd (write c j v) q = if decide (q = j) then v else rd c q.
Proof.
  unfold rd, write. destruct (decide (j < length c)%nat) as [Hj|Hj].
  - destruct (decide (q = j)) as [->|Hq].
    + by rewrite list_lookup_insert_eq.
    + by rewrite list_lookup_insert_ne.
  - destruct (decide (q = j)) as [->|Hq].
    + rewrite lookup_app_r by lia.
      rewrite lookup_app_r by (rewrite length_replicate; lia).
      rewrite length_replicate.
      by replace (j - length c - (j - length c))%nat with 0%nat by lia.
    + destruct (decide (q < length c)%nat) as [Hl|Hl].
      * by rewrite lookup_app_l.
      * rewrite lookup_app_r by lia.
        rewrite (lookup_ge_None_2 c q) by lia. simpl.
        destruct (decide (q < j)%nat).
        -- rewrite lookup_app_l by (rewrite length_replicate; lia).
           by rewrite lookup_replicate_2 by lia.
        -- rewrite lookup_ge_None_2; [done|].
           rewrite length_app, length_replicate. simpl. lia.
Qed.

Lemma length_write (c : list num) (j : nat) (v : num) :
  (j < length c)%nat → length (write c j v) = length c.
Proof. intros Hj. unfold write. rewrite decide_True by done. apply length_insert. Qed.

Lemma length_set_entry (X : matrix) (p q : nat) (v : num) :
  length (set_entry X p q v) = length X.
Proof. unfold set_entry. destruct (X !! p); [apply length_insert|done]. Qed.

Lemma rd2_set_entry (X : matrix) (p q p' q' : nat) (v : num) :
  (p < length X)%nat →
  rd2 (set_entry X p q v) p' q'
  = if decide (p' = p ∧ q' = q) then v else rd2 X p' q'.
Proof.
  intros Hp. unfold set_entry, rd2.
  destruct (lookup_lt_is_Some_2 X p Hp) as [c Hc]. rewrite Hc.
  destruct (decide (p' = p)) as [->|Hne].
  - rewrite list_lookup_insert_eq by done. simpl. rewrite rd_write, Hc. simpl.
    destruct (decide (q' = q)); [by rewrite decide_True|by rewrite decide_False by tauto].
  - rewrite list_lookup_insert_ne by done. by rewrite decide_False by tauto.
Qed.

Lemma rows_set_entry (X : matrix) (n p q : nat) (v : num) :
  (q < n)%nat → Forall (λ r, length r = n) X →
  Forall (λ r, length r = n) (set_entry X p q v).
Proof.
  intros Hq HX. unfold set_entry. destruct (X !! p) as [c|] eqn:Hc; [|done].
  apply Forall_insert; [done|].
  rewrite length_write; [by eapply (Forall_lookup_1 _ _ _ _ HX)|].
  by rewrite (Forall_lookup_1 _ _ _ _ HX Hc).
Qed.

Lemma diag_fold_length (X : matrix) (ks : list nat) :
  length (fold_left (λ X k, set_entry X k k (Fin 1)) ks X) = length X.
Proof.
  revert X. induction ks as [|k ks IH]; intros X; simpl; [done|].
  by rewrite IH, length_set_entry.
Qed.

Lemma diag_fold_rows (X : matrix) (n : nat) (ks : list nat) :
  Forall (λ k, (k < n)%nat) ks → Forall (λ r, length r = n) X →
  Forall (λ r, length r = n) (fold_left (λ X k, set_entry X k k (Fin 1)) ks X).
Proof.
  revert X. induction ks as [|k ks IH]; intros X Hks HX; simpl; [done|].
  apply Forall_cons in Hks as [Hk Hks]. apply IH; [done|]. by apply rows_set_entry.
Qed.

Lemma diag_fold_rd2 (X : matrix) (m p q : nat) :
  (m ≤ length X)%nat →
  rd2 (fold_left (λ X k, set_entry X k k (Fin 1)) (seq 0 m) X) p q
  = if decide (p = q ∧ (p < m)%nat) then Fin 1 else rd2 X p q.
Proof.
  induction m as [|m IH]; intros Hm.
  - simpl. by rewrite decide_False by lia.
  - rewrite seq_S, fold_left_app. simpl.
    rewrite rd2_set_entry by (rewrite diag_fold_length; lia).
    rewrite IH by lia.
    repeat case_decide; try done; lia.
Qed.

Lemma bind_ok {A B : Type} (m : M A) (f : A → M B) (h h' : heap) (a : A) :
  m h = Ok (a, h') → bind m f h = f a h'.
Proof. intros H. unfold bind. by rewrite H. Qed.

Lemma extended_old (h : heap) (X : matrix) (l : loc) (o : object) :
  h !! l = Some o → extended h X !! l = Some o.
Proof. intros H. unfold extended. by apply lookup_app_l_Some. Qed.

Lemma extended_row (h : heap) (X : matrix) (k : nat) (c : list num) :
  X !! k = Some c → extended h X !! (length h + k)%nat = Some (ORow c).
Proof.
  intros H. unfold extended. rewrite lookup_app_r by lia.
  replace (length h + k - length h)%nat with k by lia.
  rewrite lookup_app_l by (rewrite length_map; by eapply lookup_lt_Some).
  by rewrite list_lookup_fmap, H.
Qed.

Lemma extended_mat (h : heap) (X : matrix) :
  extended h X !! (length h + length X)%nat = Some (OMat (seq (length h) (length X))).
Proof.
  unfold extended. rewrite lookup_app_r by lia.
  rewrite lookup_app_r by (rewrite length_map; lia).
  rewrite length_map.
  by replace (length h + length X - length h - length X)%nat with 0%nat by lia.
Qed.

Lemma extended_insert (h : heap) (X : matrix) (k : nat) (c : list num) :
  (k < length X)%nat →
  <[(length h + k)%nat := ORow c]> (extended h X) = extended h (<[k := c]> X).
Proof.
  intros Hk. unfold extended.
  rewrite insert_app_r_alt by lia.
  replace (length h + k - length h)%nat with k by lia.
  rewrite insert_app_l by (by rewrite length_map).
  by rewrite list_fmap_insert, length_insert.
Qed.

Lemma set_cell_extended (h : heap) (X : matrix) (k q : nat) (v : num) :
  (k < length X)%nat →
  set_cell (length h + k) q v (extended h X) = Ok ((), extended h (set_entry X k q v)).
Proof.
  intros Hk. destruct (lookup_lt_is_Some_2 X k Hk) as [c Hc].
  unfold set_cell, set_entry. rewrite (extended_row h X k c Hc), Hc.
  by rewrite extended_insert.
Qed.

Lemma mat_item_extended (h : heap) (X : matrix) (n k : nat) :
  length X = n → (k < n)%nat →
  mat_item (length h + n) k (extended h X) = Ok ((length h + k)%nat, extended h X).
Proof.
  intros <- Hk. unfold mat_item, bind, get_mat. rewrite extended_mat.
  by rewrite lookup_seq_lt.
Qed.

Lemma diag_loop_extended (h : heap) (n : nat) (ks : list nat) :
  ∀ X : matrix, length X = n → Forall (λ k, (k < n)%nat) ks →
    for_heap ks (λ k, let* bk := mat_item (length h + n) k in set_cell bk k (Fin 1))
      (extended h X)
    = Ok ((), extended h (fold_left (λ X k, set_entry X k k (Fin 1)) ks X)).
Proof.
  induction ks as [|k ks IH]; intros X HX Hks; [done|].
  apply Forall_cons in Hks as [Hk Hks]. simpl. unfold bind at 1 2.
  rewrite (mat_item_extended h X n k HX Hk).
  rewrite set_cell_extended by lia.
  apply IH; [by rewrite length_set_entry|done].
Qed.

Lemma clone_rows (h : heap) (rs : list loc) (A : matrix) :
  Forall2 (λ r c, h !! r = Some (ORow c)) rs A →
  ∀ extra : list object,
    mapM_heap (λ r, let* c := get_row r in alloc (ORow c)) rs (h ++ extra)
    = Ok (seq (length h + length extra) (length rs), h ++ extra ++ map ORow A).
Proof.
  induction 1 as [|r c rs A Hr _ IH]; intros extra.
  - simpl. unfold ret. by rewrite app_nil_r.
  - simpl. unfold bind at 1 2. unfold get_row.
    rewrite (lookup_app_l_Some _ _ _ _ Hr). unfold alloc at 1.
    rewrite <-app_assoc. unfold bind at 1. rewrite IH. unfold ret.
    rewrite !length_app. simpl.
    replace (length h + (length extra + 1))%nat with (S (length h + length extra)) by lia.
    by rewrite <-app_assoc.
Qed.

Lemma read_matrix_Some (h : heap) (a : loc) (A : matrix) :
  read_matrix h a = Some A ↔
  ∃ rs, h !! a = Some (OMat rs) ∧ Forall2 (λ r c, h !! r = Some (ORow c)) rs A.
Proof.
  unfold read_matrix. split.
  - destruct (h !! a) as [[c|rs]|]; try done.
    intros H. exists rs. split; [done|].
    apply mapM_Some in H. eapply Forall2_impl; [exact H|].
    intros r c Hc. simpl in Hc. by destruct (h !! r) as [[c'|]|]; simplify_eq.
  - intros (rs & -> & H). apply mapM_Some.
    eapply Forall2_impl; [exact H|]. intros r c ->. done.
Qed.

Lemma cloneMatrix_extended (h : heap) (a : loc) (A : matrix) :
  read_matrix h a = Some A →
  cloneMatrix a h = Ok ((length h + length A)%nat, extended h A).
Proof.
  intros (rs & Ha & Hrs)%read_matrix_Some.
  unfold cloneMatrix.
  rewrite (bind_ok _ _ h h rs) by (unfold get_mat; by rewrite Ha).
  pose proof (clone_rows h rs A Hrs []) as Hc.
  rewrite app_nil_r in Hc. simpl in Hc. rewrite (bind_ok _ _ _ _ _ Hc).
  unfold alloc.
  rewrite Nat.add_0_r, length_app, length_map, (Forall2_length _ _ _ Hrs).
  unfold extended. by rewrite <-app_assoc.
Qed.

Lemma read_matrix_extended_new (h : heap) (X : matrix) :
  read_matrix (extended h X) (length h + length X) = Some X.
Proof.
  apply read_matrix_Some. exists (seq (length h) (length X)).
  split; [apply extended_mat|].
  apply Forall2_same_length_lookup_2; [by rewrite length_seq|].
  intros k r c Hr Hc. apply lookup_seq in Hr as [-> _]. by apply extended_row.
Qed.

Lemma read_matrix_extended_old (h : heap) (X A : matrix) (a : loc) :
  read_matrix h a = Some A → read_matrix (extended h X) a = Some A.
Proof.
  intros (rs & Ha & Hrs)%read_matrix_Some. apply read_matrix_Some.
  exists rs. split; [by apply extended_old|].
  eapply Forall2_impl; [exact Hrs|]. intros r c Hc. by apply extended_old.
Qed.

Lemma setPairwise_run (h : heap) (a : loc) (A : matrix) (i j : nat) (v : num) :
  read_matrix h a = Some A → (i < length A)%nat → (j < length A)%nat →
  setPairwise a i j v h
  = Ok ((length h + length A)%nat, extended h (setPairwise_value A i j v)).
Proof.
  intros Ha Hi Hj. unfold setPairwise.
  set (n := length A) in *.
  rewrite (bind_ok _ _ _ _ _ (cloneMatrix_extended h a A Ha)). fold n.
  rewrite (bind_ok _ _ _ _ _ (mat_item_extended h A n i eq_refl Hi)).
  rewrite (bind_ok _ _ _ _ _ (set_cell_extended h A i j v Hi)).
  set (X1 := set_entry A i j v).
  assert (length X1 = n) as H1 by apply length_set_entry.
  rewrite (bind_ok _ _ _ _ _ (mat_item_extended h X1 n j H1 Hj)).
  rewrite (bind_ok _ _ _ _ _ (set_cell_extended h X1 j i (ndiv (Fin 1) v) ltac:(lia))).
  set (X2 := set_entry X1 j i (ndiv (Fin 1) v)).
  assert (length X2 = n) as H2 by (unfold X2; by rewrite length_set_entry).
  pose proof (extended_mat h X2) as Hm. rewrite H2 in Hm.
  rewrite (bind_ok _ _ (extended h X2) (extended h X2) (seq (length h) n))
    by (unfold get_mat; by rewrite Hm).
  rewrite length_seq.
  rewrite (bind_ok _ _ _ _ _ (diag_loop_extended h n (seq 0 n) X2 H2
    ltac:(apply Forall_forall; intros k Hk%list_elem_of_In%in_seq; lia))).
  done.
Qed.

(** C2: for a valid matrix held at [a], indices [i <> j] in bounds and a
    finite [v > 0], [setPairwise] returns a fresh matrix [B] with
    [B[i][j] = v], [B[j][i] = 1/v], a unit diagonal, and every other cell
    as in [A]; the matrix at [a], and every object the store held, is
    unchanged. *)
Theorem setPairwise_local_pure (h : heap) (a : loc) (A : matrix) (n i j : nat) (v : Qc) :
  read_matrix h a = Some A → valid_matrix A n →
  (i < n)%nat → (j < n)%nat → i ≠ j → 0 < v →
  ∃ (b : loc) (h' : heap) (B : matrix),
    setPairwise a i j (Fin v) h = Ok (b, h')
    ∧ read_matrix h' b = Some B
    ∧ length B = n ∧ Forall (λ r, length r = n) B
    ∧ rd2 B i j = Fin v
    ∧ rd2 B j i = Fin (1 / v)
    ∧ (∀ k, (k < n)%nat → rd2 B k k = Fin 1)
    ∧ (∀ p q, (p < n)%nat → (q < n)%nat → (p, q) ≠ (i, j) → (p, q) ≠ (j, i) →
         rd2 B p q = rd2 A p q)
    ∧ read_matrix h' a = Some A
    ∧ (∀ l o, h !! l = Some o → h' !! l = Some o)
    ∧ b ≠ a.
Proof.
  intros Ha (Hlen & Hrows & Hpos & Hdiag & Hrec) Hi Hj Hij Hv.
  exists (length h + length A)%nat, (extended h (setPairwise_value A i j (Fin v))),
    (setPairwise_value A i j (Fin v)).
  assert (∀ p q, rd2 (setPairwise_value A i j (Fin v)) p q
            = if decide (p = q ∧ (p < n)%nat) then Fin 1
              else if decide (p = j ∧ q = i) then Fin (1 / v)
              else if decide (p = i ∧ q = j) then Fin v
              else rd2 A p q) as Hrd.
  { intros p q. unfold setPairwise_value.
    rewrite diag_fold_rd2 by (rewrite !length_set_entry; lia). rewrite Hlen.
    rewrite !rd2_set_entry by (rewrite ?length_set_entry; lia).
    by rewrite ndiv_fin by (by apply Qc_pos_ne). }
  assert (length (setPairwise_value A i j (Fin v)) = n) as HlenB.
  { unfold setPairwise_value. by rewrite diag_fold_length, !length_set_entry. }
  split; [apply setPairwise_run; [done|lia|lia]|].
  split; [rewrite Hlen, <-HlenB; apply read_matrix_extended_new|].
  split; [done|].
  split.
  { unfold setPairwise_value. apply diag_fold_rows.
    - apply Forall_forall. intros k Hk%list_elem_of_In%in_seq. lia.
    - by do 2 (apply rows_set_entry; [done|]). }
  split; [rewrite Hrd; repeat case_decide; try done; lia|].
  split; [rewrite Hrd; repeat case_decide; try done; lia|].
  split; [intros k Hk; rewrite Hrd; by rewrite decide_True|].
  split.
  { intros p q Hp Hq Hne1 Hne2. rewrite Hrd.
    destruct (decide (p = q ∧ (p < n)%nat)) as [[-> _]|Hd]; [by rewrite Hdiag|].
    rewrite decide_False by (intros [-> ->]; done).
    by rewrite decide_False by (intros [-> ->]; done). }
  split; [by apply read_matrix_extended_old|].
  split; [intros l o; apply extended_old|].
  apply read_matrix_Some in Ha as (rs & Ha & _). apply lookup_lt_Some in Ha. lia.
Qed.

(** A store that holds the neutral matrix of order 2 at address 2. *)
Definition example_heap : heap :=
  [ORow [lit 1 1; lit 1 1]; ORow [lit 1 1; lit 1 1]; OMat [0%nat; 1%nat]].

Lemma setPairwise_local_pure_witness :
  ∃ (b : loc) (h' : heap) (B : matrix),
    setPairwise 2 0 1 (lit 3 1) example_heap = Ok (b, h')
    ∧ read_matrix h' b = Some B
    ∧ rd2 B 0 1 = lit 3 1
    ∧ read_matrix h' 2 = Some (identityMatrix 2).
Proof.
  destruct (setPairwise_local_pure example_heap 2 (identityMatrix 2) 2 0 1 (Q2Qc 3))
    as (b & h' & B & H1 & H2 & _ & _ & H3 & _ & _ & _ & H4 & _).
  - reflexivity.
  - repeat split.
    + repeat constructor.
    + intros i j Hi Hj. exists 1.
      destruct i as [|[|i]], j as [|[|j]]; try lia; by split.
    + intros i Hi. destruct i as [|[|i]]; try lia; reflexivity.
    + intros i j Hi Hj Hne.
      destruct i as [|[|i]], j as [|[|j]]; try lia; try done;
        apply (bool_decide_unpack _); vm_compute; exact I.
  - lia.
  - lia.
  - lia.
  - reflexivity.
  - exists b, h', B. repeat split; assumption.
Defined.

(** ** Recovery of a persisted state (C9) *)

(** The label lists and the problem held by the fields [f]. *)
Definition labels_of (f : gmap string json) (cs alts : list json) (p : option json) : Prop :=
  f !! "criteria" = Some (JArr cs)
  ∧ f !! "alternatives" = Some (JArr alts)
  ∧ f !! "problem" = p.

(** Both levels hold the neutral matrices that [initMatrices] builds. *)
Definition neutral (f : gmap string json) (cs alts : list json) : Prop :=
  f !! "criteriaMatrix" = Some (json_of_matrix (identityMatrix (length cs)))
  ∧ f !! "altMatrices"
    = Some (JArr (map (λ _, json_of_matrix (identityMatrix (length alts))) cs)).

(** An array of [n] rows. *)
Definition has_rows (n : nat) (m : json) : Prop :=
  ∃ rows, m = JArr rows ∧ length rows = n.

(** What the checks of [loadState] establish: the row counts. *)
Definition row_counts_ok (f : gmap string json) (cs alts : list json) : Prop :=
  ∃ M Ms,
    f !! "criteriaMatrix" = Some (JArr M) ∧ length M = length cs
    ∧ f !! "altMatrices" = Some (JArr Ms) ∧ length Ms = length cs
    ∧ Forall (has_rows (length alts)) Ms.

(** A square matrix of order [n]: [n] rows of [n] cells. *)
Definition square_json (n : nat) (v : option json) : Prop :=
  ∃ M, v = Some (JArr M) ∧ length M = n ∧ Forall (has_rows n) M.

Lemma length_identityMatrix (n : nat) : length (identityMatrix n) = n.
Proof. unfold identityMatrix. by rewrite length_map, length_seq. Qed.

Lemma neutral_row_counts (f : gmap string json) (cs alts : list json) :
  neutral f cs alts → row_counts_ok f cs alts.
Proof.
  intros [Hc Ha]. eexists _, _. split; [exact Hc|].
  split; [by rewrite length_map, length_identityMatrix|].
  split; [exact Ha|]. split; [by rewrite length_map|].
  apply Forall_forall. intros m (c & -> & _)%list_elem_of_fmap.
  eexists. split; [reflexivity|]. by rewrite length_map, length_identityMatrix.
Qed.

Lemma initMatrices_spec (f : gmap string json) (cs alts : list json) (p : option json) :
  labels_of f cs alts p →
  ∃ f', initMatrices f = Ok f' ∧ labels_of f' cs alts p ∧ neutral f' cs alts
        ∧ f' !! "activeCritIdx" = f !! "activeCritIdx".
Proof.
  intros (Hc & Ha & Hp). unfold initMatrices. rewrite Hc. simpl.
  rewrite !lookup_insert_ne by done. rewrite Hc, Ha. simpl.
  eexists. split; [reflexivity|].
  repeat split; rewrite ?lookup_insert_eq; rewrite ?lookup_insert_ne by done;
    rewrite ?lookup_insert_eq; rewrite ?lookup_insert_ne by done; done.
Qed.

(** The matrices of [f] are those of [f0], or the neutral ones. *)
Definition kept_or_neutral (f0 f : gmap string json) (cs alts : list json) : Prop :=
  (f !! "criteriaMatrix" = f0 !! "criteriaMatrix" ∧ f !! "altMatrices" = f0 !! "altMatrices")
  ∨ neutral f cs alts.

Lemma init_if_spec (c : bool) (f0 f : gmap string json) (cs alts : list json)
    (p : option json) :
  labels_of f cs alts p → kept_or_neutral f0 f cs alts →
  ∃ f', init_if c f = Ok f' ∧ labels_of f' cs alts p ∧ kept_or_neutral f0 f' cs alts
        ∧ (if c then neutral f' cs alts
           else f' !! "criteriaMatrix" = f !! "criteriaMatrix"
                ∧ f' !! "altMatrices" = f !! "altMatrices").
Proof.
  intros Hl Hk. destruct c; simpl.
  - destruct (initMatrices_spec f cs alts p Hl) as (f' & H1 & H2 & H3 & _).
    exists f'. split; [done|]. split; [done|]. split; [by right|done].
  - exists f. split; [done|]. split; [done|]. split; done.
Qed.

Lemma zero_if_lookup (c : bool) (f : gmap string json) (k : string) :
  k ≠ "activeCritIdx" → zero_if c f !! k = f !! k.
Proof. intros Hk. destruct c; simpl; [by rewrite lookup_insert_ne|done]. Qed.

Lemma zero_if_labels (c : bool) (f : gmap string json) (cs alts : list json) (p : option json) :
  labels_of f cs alts p → labels_of (zero_if c f) cs alts p.
Proof. unfold labels_of. by rewrite !zero_if_lookup by done. Qed.

Lemma zero_if_kept (c : bool) (f0 f : gmap string json) (cs alts : list json) :
  kept_or_neutral f0 f cs alts → kept_or_neutral f0 (zero_if c f) cs alts.
Proof. unfold kept_or_neutral, neutral. by rewrite !zero_if_lookup by done. Qed.

Lemma existsb_bad_false (na : nat) (ms : list json) :
  existsb (bad_alt_matrix na) ms = false → Forall (has_rows na) ms.
Proof.
  induction ms as [|m ms IH]; simpl; [constructor|].
  intros [Hm Hms]%orb_false_elim. constructor; [|by apply IH].
  destruct m; simpl in Hm; try done.
  apply bool_decide_eq_false in Hm. eexists. split; [done|].
  by destruct (decide (length items = na)).
Qed.

Lemma arrays_of_step (c : bool) (f f1 : gmap string json) (cs alts : list json) :
  c = negb (isArray (f !! "criteriaMatrix")) || negb (isArray (f !! "altMatrices")) →
  (if c then neutral f1 cs alts
   else f1 !! "criteriaMatrix" = f !! "criteriaMatrix"
        ∧ f1 !! "altMatrices" = f !! "altMatrices") →
  ∃ M Ms, f1 !! "criteriaMatrix" = Some (JArr M) ∧ f1 !! "altMatrices" = Some (JArr Ms).
Proof.
  intros -> H.
  destruct (f !! "criteriaMatrix") as [[| | | |M|]|] eqn:E1;
    destruct (f !! "altMatrices") as [[| | | |Ms|]|] eqn:E2; simpl in H;
    try (destruct H as [H1 H2]; eexists _, _; split; [exact H1|exact H2]).
Qed.

(** The [try] block on an object with a truthy [problem] and two label
    arrays: it returns a state with the same labels whose matrices have the
    row counts of the labels, and are those of the input or the neutral
    ones. *)
Lemma loadState_try_spec (f : gmap string json) (cs alts : list json) :
  truthy (f !! "problem") = true →
  f !! "criteria" = Some (JArr cs) → f !! "alternatives" = Some (JArr alts) →
  ∃ f', loadState_try (JObj f) = Ok (Some (JObj f'))
        ∧ labels_of f' cs alts (f !! "problem")
        ∧ row_counts_ok f' cs alts
        ∧ kept_or_neutral f f' cs alts.
Proof.
  intros Hp Hc Ha.
  assert (labels_of f cs alts (f !! "problem")) as Hl by done.
  assert (kept_or_neutral f f cs alts) as Hk by (by left).
  unfold loadState_try. simpl. rewrite Hp, Hc, Ha. simpl.
  destruct (init_if_spec
    (negb (isArray (f !! "criteriaMatrix")) || negb (isArray (f !! "altMatrices")))
    f f cs alts _ Hl Hk) as (f1 & E1 & Hl1 & Hk1 & Hc1).
  rewrite E1. simpl.
  destruct (arrays_of_step _ f f1 cs alts eq_refl Hc1) as (M1 & Ms1 & HM1 & HMs1).
  clear E1 Hc1.
  set (f2 := zero_if _ f1).
  set (f3 := zero_if _ f2).
  assert (f3 !! "criteria" = Some (JArr cs)) as Hc3.
  { unfold f3, f2. rewrite !zero_if_lookup by done. apply Hl1. }
  rewrite Hc3. simpl.
  set (f4 := zero_if _ f3).
  assert (labels_of f4 cs alts (f !! "problem")) as Hl4
    by (by do 3 apply zero_if_labels).
  assert (kept_or_neutral f f4 cs alts) as Hk4 by (by do 3 apply zero_if_kept).
  assert (f4 !! "criteriaMatrix" = Some (JArr M1)) as HM4
    by (unfold f4, f3, f2; by rewrite !zero_if_lookup by done).
  assert (f4 !! "altMatrices" = Some (JArr Ms1)) as HMs4
    by (unfold f4, f3, f2; by rewrite !zero_if_lookup by done).
  clearbody f4. clear f2 f3 Hc3.
  rewrite HM4. simpl. rewrite (proj1 Hl4). simpl.
  destruct (init_if_spec (bool_decide (length M1 ≠ length cs)) f f4 cs alts _ Hl4 Hk4)
    as (f5 & E5 & Hl5 & Hk5 & Hc5).
  rewrite E5. simpl.
  assert (∃ M5 Ms5, f5 !! "criteriaMatrix" = Some (JArr M5) ∧ length M5 = length cs
                    ∧ f5 !! "altMatrices" = Some (JArr Ms5)) as (M5 & Ms5 & HM5 & HlM5 & HMs5).
  { case_bool_decide as Hd.
    - destruct (neutral_row_counts _ _ _ Hc5) as (M & Ms & ? & ? & ? & _). by exists M, Ms.
    - destruct Hc5 as [H1 H2]. exists M1, Ms1. rewrite H1, H2.
      split; [done|]. split; [|done]. by destruct (decide (length M1 = length cs)). }
  clear E5 Hc5.
  rewrite HMs5. simpl. rewrite (proj1 Hl5). simpl.
  destruct (init_if_spec (bool_decide (length Ms5 ≠ length cs)) f f5 cs alts _ Hl5 Hk5)
    as (f6 & E6 & Hl6 & Hk6 & Hc6).
  rewrite E6. simpl.
  assert (∃ M6 Ms6, f6 !! "criteriaMatrix" = Some (JArr M6) ∧ length M6 = length cs
                    ∧ f6 !! "altMatrices" = Some (JArr Ms6) ∧ length Ms6 = length cs)
    as (M6 & Ms6 & HM6 & HlM6 & HMs6 & HlMs6).
  { case_bool_decide as Hd.
    - destruct (neutral_row_counts _ _ _ Hc6) as (M & Ms & ? & ? & ? & ? & _).
      by exists M, Ms.
    - destruct Hc6 as [H1 H2]. exists M5, Ms5. rewrite H1, H2.
      repeat split; try done; by destruct (decide (length Ms5 = length cs)). }
  clear E6 Hc6.
  rewrite HMs6. simpl. rewrite (proj1 (proj2 Hl6)). simpl.
  destruct (init_if_spec (existsb (bad_alt_matrix (length alts)) Ms6) f f6 cs alts _ Hl6 Hk6)
    as (f7 & E7 & Hl7 & Hk7 & Hc7).
  rewrite E7. simpl.
  exists f7. split; [done|]. split; [done|]. split; [|done].
  destruct (existsb (bad_alt_matrix (length alts)) Ms6) eqn:Hbad.
  - by apply neutral_row_counts.
  - destruct Hc7 as [H1 H2]. exists M6, Ms6. rewrite H1, H2.
    repeat split; try done. by apply existsb_bad_false.
Qed.

Lemma defaultState_row_counts :
  ∃ f cs alts, defaultState = JObj f
    ∧ f !! "criteria" = Some (JArr cs) ∧ f !! "alternatives" = Some (JArr alts)
    ∧ row_counts_ok f cs alts.
Proof.
  eexists _, _, _. split; [reflexivity|].
  split; [reflexivity|]. split; [reflexivity|].
  apply neutral_row_counts. by split.
Qed.

(** C9, as the code has it: for a stored text that parses to an object
    with a [problem] field and array-valued [criteria] and [alternatives],
    [loadState] returns a state in which [criteriaMatrix] is an array of
    |criteria| rows and [altMatrices] an array of |criteria| arrays of
    |alternatives| rows each.  With a truthy [problem] the labels are the
    stored ones, and the matrices are the stored ones or, when one of the
    three row-count checks fails, the neutral all-ones matrices at both
    levels; otherwise the state is the default one.  No exception leaves
    [loadState]. *)
Theorem loadState_row_counts (JSON_parse : string → result json) (raw : string)
    (f : gmap string json) (cs alts : list json) :
  JSON_parse raw = Ok (JObj f) →
  is_Some (f !! "problem") →
  f !! "criteria" = Some (JArr cs) → f !! "alternatives" = Some (JArr alts) →
  ∃ f' cs' alts',
    loadState JSON_parse (Some raw) = JObj f'
    ∧ f' !! "criteria" = Some (JArr cs') ∧ f' !! "alternatives" = Some (JArr alts')
    ∧ row_counts_ok f' cs' alts'
    ∧ (raw ≠ "" → truthy (f !! "problem") = true →
       cs' = cs ∧ alts' = alts ∧ f' !! "problem" = f !! "problem"
       ∧ kept_or_neutral f f' cs alts).
Proof.
  intros Hparse _ Hc Ha.
  destruct defaultState_row_counts as (d & dcs & dalts & Hd & Hdc & Hda & Hdr).
  unfold loadState. case_bool_decide as Hraw.
  { exists d, dcs, dalts. by repeat (split; [done|]). }
  rewrite Hparse. simpl.
  destruct (truthy (f !! "problem")) eqn:Hp.
  - destruct (loadState_try_spec f cs alts Hp Hc Ha) as (f' & -> & (H1 & H2 & H3) & H4 & H5).
    exists f', cs, alts. by repeat (split; [done|]).
  - unfold loadState_try. simpl. rewrite Hp. simpl.
    exists d, dcs, dalts. by repeat (split; [done|]).
Qed.

(** A stored state after the criteria list grew from two to three labels:
    the matrices still have the old row counts. *)
Definition resized_fields : gmap string json :=
  <["problem" := JObj (<["name" := JStr "Logistics"]> (<["goal" := JStr "Pick"]> ∅))]>
  (<["criteria" := json_strings ["cost"; "time"; "risk"]]>
  (<["alternatives" := json_strings ["A"; "B"]]>
  (<["criteriaMatrix" := json_of_matrix [[lit 1 1; lit 3 1]; [lit 1 3; lit 1 1]]]>
  (<["altMatrices" := JArr [json_of_matrix (identityMatrix 2); json_of_matrix (identityMatrix 2)]]>
  (<["activeCritIdx" := JNum (lit 1 1)]> ∅))))).

Lemma loadState_row_counts_witness :
  ∃ f', loadState (λ _, Ok (JObj resized_fields)) (Some "{...}") = JObj f'
        ∧ row_counts_ok f' (map JStr ["cost"; "time"; "risk"]) (map JStr ["A"; "B"])
        ∧ neutral f' (map JStr ["cost"; "time"; "risk"]) (map JStr ["A"; "B"]).
Proof.
  destruct (loadState_row_counts (λ _, Ok (JObj resized_fields)) "{...}" resized_fields
    (map JStr ["cost"; "time"; "risk"]) (map JStr ["A"; "B"]))
    as (f' & cs' & alts' & H1 & _ & _ & H3 & H4).
  - reflexivity.
  - by eexists.
  - reflexivity.
  - reflexivity.
  - destruct H4 as (-> & -> & _ & H4); [done|reflexivity|].
    exists f'. split; [exact H1|]. split; [exact H3|].
    destruct H4 as [[H4 _]|H4]; [|exact H4].
    exfalso. destruct H3 as (M & Ms & HM & HlM & _).
    rewrite H4 in HM. vm_compute in HM. injection HM as <-. simpl in HlM. lia.
Defined.

(** A stored state whose criteria matrix has two rows of one cell. *)
Definition skewed_fields : gmap string json :=
  <["problem" := JObj (<["name" := JStr "Logistics"]> (<["goal" := JStr "Pick"]> ∅))]>
  (<["criteria" := json_strings ["cost"; "time"]]>
  (<["alternatives" := json_strings ["A"; "B"]]>
  (<["criteriaMatrix" := json_of_matrix [[lit 1 1]; [lit 1 1]]]>
  (<["altMatrices" := JArr [json_of_matrix (identityMatrix 2); json_of_matrix (identityMatrix 2)]]>
  (<["activeCritIdx" := JNum (lit 0 1)]> ∅))))).

(** C9 as stated fails: the row counts match the labels, so the state is
    returned as stored, and its criteria matrix is not square. *)
Lemma loadState_not_square :
  ∃ f', loadState (λ _, Ok (JObj skewed_fields)) (Some "{...}") = JObj f'
        ∧ f' !! "criteria" = Some (json_strings ["cost"; "time"])
        ∧ f' !! "criteriaMatrix" = Some (json_of_matrix [[lit 1 1]; [lit 1 1]])
        ∧ ¬ square_json 2 (f' !! "criteriaMatrix").
Proof.
  exists skewed_fields. split; [vm_compute; reflexivity|].
  split; [reflexivity|]. split; [reflexivity|].
  intros (M & HM & _ & Hrows).
  change (skewed_fields !! "criteriaMatrix")
    with (Some (json_of_matrix [[lit 1 1]; [lit 1 1]])) in HM.
  injection HM as <-.
  apply Forall_cons in Hrows as [(cells & Hc & Hl) _].
  injection Hc as <-. simpl in Hl. lia.
Qed.

(** ** The solver on finite data *)

(** The vector of the finite numbers [x 0 .. x (n - 1)]. *)
Definition vec (x : nat → Qc) (n : nat) : list num := map (λ i, Fin (x i)) (seq 0 n).

(** [A] has [n] rows and the finite cell [a i j] at every [i, j < n]. *)
Definition fin_matrix (A : matrix) (n : nat) (a : nat → nat → Qc) : Prop :=
  length A = n ∧ ∀ i j, (i < n)%nat → (j < n)%nat → rd2 A i j = Fin (a i j).

Lemma length_vec (x : nat → Qc) (n : nat) : length (vec x n) = n.
Proof. unfold vec. by rewrite length_map, length_seq. Qed.

Lemma rd_vec (x : nat → Qc) (n i : nat) : (i < n)%nat → rd (vec x n) i = Fin (x i).
Proof. intros Hi. unfold vec. by rewrite rd_map_seq. Qed.

Lemma vec_ext (x y : nat → Qc) (n : nat) :
  (∀ i, (i < n)%nat → x i = y i) → vec x n = vec y n.
Proof.
  intros H. unfold vec. apply map_ext_in. intros i Hi%in_seq. rewrite H; [done|lia].
Qed.

Lemma replicate_vec (c : Qc) (n : nat) : replicate n (Fin c) = vec (λ _, c) n.
Proof.
  unfold vec. induction n as [|n IH]; [done|].
  by rewrite seq_S, map_app, <-IH, replicate_S_end.
Qed.

Lemma for_range_ext {S : Type} (n : nat) (f g : nat → S → S) (s0 : S) :
  (∀ i s, (i < n)%nat → f i s = g i s) → for_range n f s0 = for_range n g s0.
Proof.
  intros H. induction n as [|n IH]; [done|].
  rewrite !for_range_S, IH by (intros; apply H; lia). apply H. lia.
Qed.

(** A loop that adds finite terms. *)
Lemma sum_loop (f : nat → num) (g : nat → Qc) (n : nat) :
  (∀ j, (j < n)%nat → f j = Fin (g j)) →
  for_range n (λ j s, nadd s (f j)) (Fin 0) = Fin (bigsum g n).
Proof.
  intros H. induction n as [|n IH]; [done|].
  rewrite for_range_S, IH by (intros; apply H; lia).
  by rewrite H by lia.
Qed.

(** A loop that fills a fresh array cell by cell. *)
Lemma fill_loop {A : Type} (f : nat → A) (z : A) (n : nat) :
  for_range n (λ i l, <[i := f i]> l) (replicate n z) = map f (seq 0 n).
Proof.
  assert (∀ k, (k ≤ n)%nat →
    for_range k (λ i l, <[i := f i]> l) (replicate n z)
    = map f (seq 0 k) ++ replicate (n - k) z) as H.
  { induction k as [|k IH]; intros Hk.
    - simpl. by rewrite Nat.sub_0_r.
    - rewrite for_range_S, IH by lia. apply fill_next. lia. }
  rewrite H by lia. by rewrite Nat.sub_diag, app_nil_r.
Qed.

Lemma reduce_add_vec (y : nat → Qc) (n : nat) : reduce_add (vec y n) = Fin (bigsum y n).
Proof.
  unfold reduce_add, vec. induction n as [|n IH]; [done|].
  by rewrite seq_S, map_app, fold_left_app, IH.
Qed.

(** [A * x] for a finite matrix and a finite vector. *)
Definition mulv (a : nat → nat → Qc) (x : nat → Qc) (n : nat) (i : nat) : Qc :=
  bigsum (λ j, a i j * x j) n.

Lemma matvec_fin (A : matrix) (n : nat) (a : nat → nat → Qc) (x : nat → Qc) :
  fin_matrix A n a → matvec A (vec x n) n = vec (mulv a x n) n.
Proof.
  intros [Hlen Ha]. unfold matvec.
  rewrite (fill_loop
    (λ i, for_range n (λ j s, nadd s (nmul (rd2 A i j) (rd (vec x n) j))) (Fin 0))).
  unfold vec at 2. apply map_ext_in. intros i Hi%in_seq.
  apply sum_loop. intros j Hj. by rewrite Ha, rd_vec by lia.
Qed.

(** The vector after one pass. *)
Definition next_vec (a : nat → nat → Qc) (x : nat → Qc) (n : nat) (i : nat) : Qc :=
  mulv a x n i / bigsum (mulv a x n) n.

Lemma power_step_fin (A : matrix) (n : nat) (a : nat → nat → Qc) (x : nat → Qc) :
  fin_matrix A n a → bigsum (mulv a x n) n ≠ 0 →
  power_step A n (vec x n)
  = (vec (next_vec a x n) n,
     for_range n (λ i diff, nmax diff (nabs (Fin (next_vec a x n i - x i)))) (Fin 0)).
Proof.
  intros HA Hs. unfold power_step.
  rewrite (matvec_fin A n a x HA), reduce_add_vec.
  assert (map (λ v, ndiv v (Fin (bigsum (mulv a x n) n))) (vec (mulv a x n) n)
          = vec (next_vec a x n) n) as ->.
  { unfold vec. rewrite map_map. apply map_ext. intros i. by rewrite ndiv_fin. }
  f_equal. apply for_range_ext. intros i s Hi. by rewrite !rd_vec by done.
Qed.

(** Positivity and mass of a pass. *)
Lemma mulv_pos (a : nat → nat → Qc) (x : nat → Qc) (n i : nat) :
  (0 < n)%nat → (∀ j, (j < n)%nat → 0 < a i j) → (∀ j, (j < n)%nat → 0 < x j) →
  0 < mulv a x n i.
Proof.
  intros Hn Ha Hx. apply bigsum_pos; [done|].
  intros j Hj. apply Qcmult_pos_pos; auto.
Qed.

Lemma next_vec_pos (a : nat → nat → Qc) (x : nat → Qc) (n i : nat) :
  (i < n)%nat → (∀ i j, (i < n)%nat → (j < n)%nat → 0 < a i j) →
  (∀ j, (j < n)%nat → 0 < x j) → 0 < next_vec a x n i.
Proof.
  intros Hi Ha Hx. unfold next_vec, Qcdiv.
  apply Qcmult_pos_pos; [apply mulv_pos; [lia|auto|auto]|].
  apply Qcinv_pos, bigsum_pos; [lia|].
  intros k Hk. apply mulv_pos; [lia|auto|auto].
Qed.

Lemma next_vec_sum (a : nat → nat → Qc) (x : nat → Qc) (n : nat) :
  bigsum (mulv a x n) n ≠ 0 → bigsum (next_vec a x n) n = 1.
Proof.
  intros Hs. unfold next_vec, Qcdiv. rewrite bigsum_scale_r.
  by apply Qcmult_inv_r.
Qed.

Lemma nle_fin (x y : Qc) : nle (Fin x) (Fin y) = true ↔ x ≤ y.
Proof.
  simpl. rewrite negb_true_iff, bool_decide_eq_false. apply iff_sym, Qcle_ngt.
Qed.

Lemma order_pos (n : nat) : (0 < n)%nat → 0 < Qc_of_Z (Z.of_nat n).
Proof.
  intros H. rewrite <-Z2Qc_inj_0. apply (proj1 (Z2Qc_inj_lt 0 (Z.of_nat n))). lia.
Qed.

Lemma power_loop_fin (A : matrix) (n : nat) (a : nat → nat → Qc) (tol : num) :
  fin_matrix A n a → (0 < n)%nat →
  (∀ i j, (i < n)%nat → (j < n)%nat → 0 < a i j) →
  ∀ (remaining : nat) (x : nat → Qc) (passes : nat),
    (∀ j, (j < n)%nat → 0 < x j) → bigsum x n = 1 →
    ∃ x', fst (power_loop A n tol remaining (vec x n) passes) = vec x' n
          ∧ (∀ j, (j < n)%nat → 0 < x' j) ∧ bigsum x' n = 1.
Proof.
  intros HA Hn Ha. induction remaining as [|r IH]; intros x passes Hx Hsum.
  - exists x. by repeat split.
  - unfold power_loop; fold power_loop.
    assert (bigsum (mulv a x n) n ≠ 0) as Hs.
    { apply Qc_pos_ne, bigsum_pos; [done|]. intros i Hi. apply mulv_pos; auto. }
    rewrite (power_step_fin A n a x HA Hs).
    destruct (nlt _ tol).
    + exists (next_vec a x n). split; [done|]. split.
      * intros j Hj. by apply next_vec_pos.
      * by apply next_vec_sum.
    + apply IH.
      * intros j Hj. by apply next_vec_pos.
      * by apply next_vec_sum.
Qed.

(** The eigenvalue estimate on a finite positive vector. *)
Definition rayleigh (a : nat → nat → Qc) (x : nat → Qc) (n : nat) : Qc :=
  bigsum (λ i, mulv a x n i / x i) n / Qc_of_Z (Z.of_nat n).

Lemma lambda_fin (A : matrix) (n : nat) (a : nat → nat → Qc) (x : nat → Qc) :
  fin_matrix A n a → (0 < n)%nat → (∀ j, (j < n)%nat → 0 < x j) →
  ndiv (reduce_i (λ acc v i, nadd acc (ndiv v (rd (vec x n) i)))
          (matvec A (vec x n) n) (Fin 0)) (of_nat n)
  = Fin (rayleigh a x n).
Proof.
  intros HA Hn Hx. pose proof (order_pos n Hn) as HN.
  rewrite (matvec_fin A n a x HA). unfold reduce_i. rewrite length_vec.
  rewrite (sum_loop (λ i, ndiv (rd (vec (mulv a x n) n) i) (rd (vec x n) i))
             (λ i, mulv a x n i / x i)).
  - unfold of_nat. by rewrite ndiv_fin by (by apply Qc_pos_ne).
  - intros j Hj. rewrite !rd_vec by done. rewrite ndiv_fin; [done|].
    apply Qc_pos_ne. auto.
Qed.

Lemma powerIterationWeights_fin (A : matrix) (n : nat) (a : nat → nat → Qc)
    (maxIter : nat) (tol : num) :
  fin_matrix A n a → (0 < n)%nat →
  (∀ i j, (i < n)%nat → (j < n)%nat → 0 < a i j) →
  ∃ x, p_weights (powerIterationWeights A maxIter tol) = vec x n
       ∧ (∀ j, (j < n)%nat → 0 < x j) ∧ bigsum x n = 1
       ∧ p_lambdaMax (powerIterationWeights A maxIter tol) = Fin (rayleigh a x n).
Proof.
  intros HA Hn Ha. pose proof (order_pos n Hn) as HN.
  unfold powerIterationWeights. rewrite (proj1 HA). unfold of_nat.
  rewrite ndiv_fin by (by apply Qc_pos_ne). rewrite replicate_vec.
  destruct (power_loop_fin A n a tol HA Hn Ha maxIter
              (λ _, 1 / Qc_of_Z (Z.of_nat n)) 0) as (x & Hx & Hpos & Hsum).
  { intros j Hj. unfold Qcdiv. rewrite Qcmult_1_l. by apply Qcinv_pos. }
  { rewrite bigsum_const. field. by apply Qc_pos_ne. }
  exists x. cbn [p_weights p_lambdaMax]. rewrite Hx.
  split; [done|]. split; [done|]. split; [done|].
  change (Fin (Qc_of_Z (Z.of_nat n))) with (of_nat n).
  by apply lambda_fin.
Qed.

(** ** The bound on the eigenvalue estimate *)

Lemma Qc_square_nonneg (x : Qc) : 0 ≤ x * x.
Proof.
  destruct (Qclt_le_dec x 0) as [H|H].
  - replace (x * x) with ((- x) * (- x)) by ring.
    apply Qclt_minus_iff in H. rewrite Qcplus_0_l in H.
    apply Qcmult_nonneg_nonneg; by apply Qclt_le_weak.
  - by apply Qcmult_nonneg_nonneg.
Qed.

(** Two positive numbers of product 1 add up to 2 at least. *)
Lemma reciprocal_pair_sum (u v : Qc) : 0 < v → u * v = 1 → 2 ≤ u + v.
Proof.
  intros Hv H. apply Qcle_minus_iff.
  replace (u + v + - 2) with ((u - 1) * (u - 1) * v).
  - apply Qcmult_nonneg_nonneg; [apply Qc_square_nonneg|by apply Qclt_le_weak].
  - transitivity (u * (u * v) - 2 * (u * v) + v); [ring|rewrite H; ring].
Qed.

Lemma reciprocal_double_sum (t : nat → nat → Qc) (n : nat) :
  (∀ i j, (i < n)%nat → (j < n)%nat → 0 < t i j) →
  (∀ i j, (i < n)%nat → (j < n)%nat → t i j * t j i = 1) →
  Qc_of_Z (Z.of_nat n) * Qc_of_Z (Z.of_nat n)
  ≤ bigsum (λ i, bigsum (λ j, t i j) n) n.
Proof.
  intros Hpos Hrec.
  set (N := Qc_of_Z (Z.of_nat n)). set (T := bigsum (λ i, bigsum (λ j, t i j) n) n).
  assert (N * (N * 2) ≤ T + T) as H2.
  { unfold T at 2. rewrite (bigsum_exchange t n n). unfold T.
    rewrite <-bigsum_plus. unfold N.
    rewrite <-(bigsum_const (Qc_of_Z (Z.of_nat n) * 2) n). apply bigsum_le. intros i Hi.
    rewrite <-bigsum_plus. rewrite <-(bigsum_const 2 n).
    apply bigsum_le. intros j Hj. apply reciprocal_pair_sum; auto. }
  destruct (Qclt_le_dec T (N * N)) as [Hlt|Hle]; [exfalso|done].
  apply (Qclt_not_le (T + T) (N * (N * 2))); [|done].
  replace (N * (N * 2)) with (N * N + N * N) by ring.
  apply Qclt_trans with (T + N * N).
  - by apply Qcplus_lt_mono_l.
  - by apply Qcplus_lt_mono_r.
Qed.

Lemma rayleigh_lower_bound (a : nat → nat → Qc) (x : nat → Qc) (n : nat) :
  (0 < n)%nat →
  (∀ i j, (i < n)%nat → (j < n)%nat → 0 < a i j) →
  (∀ i j, (i < n)%nat → (j < n)%nat → a i j * a j i = 1) →
  (∀ j, (j < n)%nat → 0 < x j) →
  Qc_of_Z (Z.of_nat n) ≤ rayleigh a x n.
Proof.
  intros Hn Ha Hrec Hx. pose proof (order_pos n Hn) as HN.
  unfold rayleigh.
  apply (Qcmult_le_mono_pos_r _ _ (Qc_of_Z (Z.of_nat n)) HN).
  replace (bigsum (λ i, mulv a x n i / x i) n / Qc_of_Z (Z.of_nat n)
           * Qc_of_Z (Z.of_nat n))
    with (bigsum (λ i, mulv a x n i / x i) n)
    by (field; by apply Qc_pos_ne).
  rewrite (bigsum_ext _ (λ i, bigsum (λ j, a i j * x j / x i) n)).
  - apply reciprocal_double_sum.
    + intros i j Hi Hj. unfold Qcdiv.
      apply Qcmult_pos_pos; [apply Qcmult_pos_pos; auto|apply Qcinv_pos; auto].
    + intros i j Hi Hj.
      transitivity (a i j * a j i); [|auto].
      field. split; apply Qc_pos_ne; auto.
  - intros i Hi. unfold mulv, Qcdiv. by rewrite bigsum_scale_r.
Qed.

(** ** The consistency ratio on a finite estimate *)

Lemma saaty_table_pos (n : nat) :
  (3 ≤ n)%nat → ∃ r, saaty_table n = Fin r ∧ 0 < r.
Proof.
  intros H. do 3 (destruct n as [|n]; [lia|]).
  do 7 (destruct n as [|n]; [eexists; split; [reflexivity|reflexivity]|]).
  eexists; split; reflexivity.
Qed.

Lemma consistency_ci_fin (A : matrix) (n : nat) (lam : Qc) :
  length A = n → (2 ≤ n)%nat →
  c_ci (consistency A (Fin lam))
  = Fin ((lam - Qc_of_Z (Z.of_nat n)) / (Qc_of_Z (Z.of_nat n) - 1)).
Proof.
  intros Hlen Hn. unfold consistency. cbn [c_ci]. rewrite Hlen. unfold of_nat.
  cbn [nsub nopp nadd]. apply ndiv_fin.
  rewrite <-Z2Qc_inj_1. unfold Qcminus. rewrite <-Z2Qc_inj_opp, <-Z2Qc_inj_add.
  rewrite <-Z2Qc_inj_0. intros Heq%Z2Qc_inj. lia.
Qed.

Lemma consistency_cr_nonneg (A : matrix) (n : nat) (lam : Qc) :
  length A = n → (1 ≤ n)%nat → Qc_of_Z (Z.of_nat n) ≤ lam →
  ∃ c, c_cr (consistency A (Fin lam)) = Fin c ∧ 0 ≤ c.
Proof.
  intros Hlen Hn Hlam.
  destruct (consistency_cr_cases A (Fin lam) n Hlen Hn) as [Hsmall Hlarge].
  destruct (decide (n ≤ 2)%nat) as [Hle|Hgt].
  - exists 0. split; [by apply Hsmall|done].
  - rewrite Hlarge by lia. rewrite (consistency_ci_fin A n lam Hlen) by lia.
    destruct (saaty_table_pos n ltac:(lia)) as (r & -> & Hr).
    rewrite ndiv_fin by (by apply Qc_pos_ne).
    eexists. split; [reflexivity|].
    assert (0 < Qc_of_Z (Z.of_nat n) - 1) as Hd.
    { rewrite <-Z2Qc_inj_1, <-Z2Qc_inj_sub, <-Z2Qc_inj_0.
      apply (proj1 (Z2Qc_inj_lt _ _)). lia. }
    unfold Qcdiv. apply Qcmult_nonneg_nonneg; [apply Qcmult_nonneg_nonneg|].
    + unfold Qcminus. by apply (proj1 (Qcle_minus_iff _ _)).
    + by apply Qclt_le_weak, Qcinv_pos.
    + by apply Qclt_le_weak, Qcinv_pos.
Qed.

(** ** The result of [solve] on a pairwise matrix (C3) *)

(** A matrix of order [n] with finite, strictly positive cells that is
    reciprocal: [A[i][j] = 1 / A[j][i]] for all [i] and [j] (for [i = j]
    this is the unit diagonal). *)
Definition positive_reciprocal (A : matrix) (n : nat) : Prop :=
  length A = n
  ∧ (∀ i j, (i < n)%nat → (j < n)%nat → ∃ q, rd2 A i j = Fin q ∧ 0 < q)
  ∧ (∀ i j, (i < n)%nat → (j < n)%nat → rd2 A i j = ndiv (Fin 1) (rd2 A j i)).

(** The invariants of a pairwise matrix say as much. *)
Lemma valid_matrix_reciprocal (A : matrix) (n : nat) :
  valid_matrix A n → positive_reciprocal A n.
Proof.
  intros (Hlen & _ & Hpos & Hdiag & Hrec).
  split; [done|]. split; [done|].
  intros i j Hi Hj. destruct (decide (i = j)) as [->|Hne]; [|by apply Hrec].
  rewrite Hdiag by done. apply (bool_decide_unpack _). vm_compute. exact I.
Qed.

(** The case [i = j] is needed: with a diagonal cell other than 1 the
    estimate can fall below the order. *)
Example lambdaMax_without_unit_diagonal :
  lambdaMax (ahpSolve [[lit 1 2]]) = lit 1 2.
Proof. apply (bool_decide_unpack _). vm_compute. exact I. Qed.

(** The finite cell of a matrix. *)
Definition cell (A : matrix) (i j : nat) : Qc :=
  match rd2 A i j with Fin q => q | _ => 0 end.

Lemma positive_reciprocal_cells (A : matrix) (n : nat) :
  positive_reciprocal A n →
  fin_matrix A n (cell A)
  ∧ (∀ i j, (i < n)%nat → (j < n)%nat → 0 < cell A i j)
  ∧ (∀ i j, (i < n)%nat → (j < n)%nat → cell A i j * cell A j i = 1).
Proof.
  intros (Hlen & Hpos & Hrec).
  assert (∀ i j, (i < n)%nat → (j < n)%nat →
            rd2 A i j = Fin (cell A i j) ∧ 0 < cell A i j) as Hc.
  { intros i j Hi Hj. destruct (Hpos i j Hi Hj) as (q & Hq & Hq0).
    unfold cell. by rewrite Hq. }
  split; [split; [done|]; intros i j Hi Hj; by apply Hc|].
  split; [intros i j Hi Hj; by apply Hc|].
  intros i j Hi Hj.
  destruct (Hc i j Hi Hj) as [Hij _]. destruct (Hc j i Hj Hi) as [Hji Hp].
  pose proof (Hrec i j Hi Hj) as H. rewrite Hij, Hji in H.
  rewrite ndiv_fin in H by (by apply Qc_pos_ne). injection H as ->.
  field. by apply Qc_pos_ne.
Qed.


(** The criteria matrix of the end-to-end scenario: judgments 3, 5 and 2. *)
Definition scenario_matrix : matrix :=
  [[lit 1 1; lit 3 1; lit 5 1]; [lit 1 3; lit 1 1; lit 2 1]; [lit 1 5; lit 1 2; lit 1 1]].


(** ** [solve] on the neutral matrix (C1) *)

Lemma power_loop_S (A : matrix) (n : nat) (tol : num) (r : nat) (w : list num) (p : nat) :
  power_loop A n tol (S r) w p
  = (let '(wNew, diff) := power_step A n w in
     if nlt diff tol then (wNew, S p) else power_loop A n tol r wNew (S p)).
Proof. reflexivity. Qed.

Lemma identityMatrix_fin (n : nat) : fin_matrix (identityMatrix n) n (λ _ _, 1).
Proof.
  split; [apply length_identityMatrix|].
  intros i j Hi Hj. unfold rd2, identityMatrix.
  rewrite list_lookup_fmap, lookup_seq_lt by done. simpl.
  rewrite rd_map_seq by done. by destruct (decide (i = j)).
Qed.

Lemma diff_loop_zero (f : nat → num) (n : nat) :
  (∀ i, (i < n)%nat → f i = Fin 0) →
  for_range n (λ i diff, nmax diff (f i)) (Fin 0) = Fin 0.
Proof.
  intros H. induction n as [|n IH]; [done|].
  rewrite for_range_S, IH by (intros; apply H; lia).
  by rewrite H by lia.
Qed.

Lemma neutral_power (n : nat) :
  (1 ≤ n)%nat →
  powerIterationWeights (identityMatrix n) maxIter_default tol_default
  = mkPower (replicate n (Fin (1 / Qc_of_Z (Z.of_nat n)))) (Fin (Qc_of_Z (Z.of_nat n))).
Proof.
  intros Hn. pose proof (order_pos n Hn) as HN.
  pose proof (Qc_pos_ne _ HN) as HN0.
  set (N := Qc_of_Z (Z.of_nat n)) in *.
  set (a := λ _ _ : nat, 1). set (x := λ _ : nat, 1 / N).
  assert (∀ i, mulv a x n i = 1) as Hmul.
  { intros i. unfold mulv, a, x. rewrite bigsum_const. fold N. by field. }
  assert (bigsum (mulv a x n) n = N) as Hsum.
  { rewrite (bigsum_ext _ (λ _, 1)) by (intros; apply Hmul).
    rewrite bigsum_const. fold N. ring. }
  assert (∀ i, next_vec a x n i = x i) as Hnext.
  { intros i. unfold next_vec. by rewrite Hmul, Hsum. }
  assert (∀ j, (j < n)%nat → 0 < x j) as Hx.
  { intros j _. unfold x, Qcdiv. rewrite Qcmult_1_l. by apply Qcinv_pos. }
  unfold powerIterationWeights. rewrite length_identityMatrix. unfold of_nat. fold N.
  rewrite ndiv_fin by done. rewrite replicate_vec. fold x.
  unfold maxIter_default. rewrite power_loop_S.
  rewrite (power_step_fin _ n a x (identityMatrix_fin n)) by (by rewrite Hsum).
  rewrite (vec_ext (next_vec a x n) x n) by (intros; apply Hnext).
  rewrite diff_loop_zero.
  - assert (nlt (Fin 0) tol_default = true) as -> by reflexivity.
    cbn [fst]. f_equal.
    change (Fin N) with (of_nat n) at 1.
    rewrite (lambda_fin _ n a x (identityMatrix_fin n)) by (done || lia).
    f_equal. unfold rayleigh.
    rewrite (bigsum_ext _ (λ _, N)).
    + rewrite bigsum_const. fold N. by field.
    + intros i _. rewrite Hmul. unfold x. by field.
  - intros i _. rewrite Hnext.
    replace (x i - x i) with (Q2Qc 0) by ring. reflexivity.
Qed.

(** C1, as the code has it, over exact arithmetic: for every order
    [n >= 1], [solve] on the all-ones matrix returns the uniform weights
    [1/n], [lambdaMax = n] and [cr = 0]; [ci = 0] for every [n >= 2]; for
    [n = 1] the weights are [[1]] and [cr = 0].  In binary64 these values
    are returned up to rounding only (section "The solver in binary64"). *)
Theorem solve_neutral (n : nat) :
  (1 ≤ n)%nat →
  weights (ahpSolve (identityMatrix n)) = replicate n (Fin (1 / Qc_of_Z (Z.of_nat n)))
  ∧ lambdaMax (ahpSolve (identityMatrix n)) = of_nat n
  ∧ cr (ahpSolve (identityMatrix n)) = Fin 0
  ∧ ((2 ≤ n)%nat → ci (ahpSolve (identityMatrix n)) = Fin 0)
  ∧ (n = 1%nat → weights (ahpSolve (identityMatrix n)) = [Fin 1]).
Proof.
  intros Hn. unfold ahpSolve. rewrite (neutral_power n Hn).
  cbn [weights lambdaMax cr ci p_weights p_lambdaMax].
  set (N := Qc_of_Z (Z.of_nat n)).
  assert ((2 ≤ n)%nat → c_ci (consistency (identityMatrix n) (Fin N)) = Fin 0) as Hci.
  { intros H2. rewrite (consistency_ci_fin _ n N (length_identityMatrix n) H2).
    fold N. f_equal. unfold Qcdiv, Qcminus. rewrite Qcplus_opp_r. ring. }
  split; [done|]. split; [done|]. split; [|split; [done|]].
  - destruct (consistency_cr_cases (identityMatrix n) (Fin N) n
                (length_identityMatrix n) Hn) as [Hsmall Hlarge].
    destruct (decide (n ≤ 2)%nat) as [Hle|Hgt]; [by apply Hsmall|].
    rewrite Hlarge by lia. rewrite Hci by lia.
    destruct (saaty_table_pos n ltac:(lia)) as (r & -> & Hr).
    rewrite ndiv_fin by (by apply Qc_pos_ne).
    f_equal. unfold Qcdiv. ring.
  - intros ->. reflexivity.
Qed.

Lemma solve_neutral_witness :
  weights (ahpSolve (identityMatrix 4)) = replicate 4 (lit 1 4)
  ∧ lambdaMax (ahpSolve (identityMatrix 4)) = of_nat 4
  ∧ cr (ahpSolve (identityMatrix 4)) = Fin 0
  ∧ ci (ahpSolve (identityMatrix 4)) = Fin 0.
Proof.
  destruct (solve_neutral 4 ltac:(lia)) as (H1 & H2 & H3 & H4 & _).
  split; [|split; [exact H2|split; [exact H3|apply H4; lia]]].
  rewrite H1. apply (bool_decide_unpack _). vm_compute. exact I.
Defined.

(** C1 as stated fails at [n = 1]: [consistency] divides [lambdaMax - n] by
    [n - 1], which is [0 / 0]. *)
Lemma solve_neutral_ci_order_one :
  ci (ahpSolve (identityMatrix 1)) = NaN
  ∧ ci (ahpSolve (identityMatrix 1)) ≠ Fin 0.
Proof.
  assert (ci (ahpSolve (identityMatrix 1)) = NaN) as H by (vm_compute; reflexivity).
  split; [exact H|]. rewrite H. discriminate.
Qed.

(** ** The inconsistency hints (C5) *)

(** Finite and strictly positive: the negation of the test
    [!Number.isFinite(x) || x <= 0]. *)
Definition positive (x : num) : bool := isFinite x && nlt (Fin 0) x.

Lemma skip_test_positive (x : num) :
  negb (isFinite x) || nle x (Fin 0) = negb (positive x).
Proof.
  by destruct x as [q| | |].
Qed.

Lemma positive_fin (x : num) : positive x = true ↔ ∃ q, x = Fin q ∧ 0 < q.
Proof.
  split.
  - destruct x as [q| | |]; unfold positive; simpl; try done.
    intros H%bool_decide_eq_true. by exists q.
  - intros (q & -> & Hq). unfold positive. simpl. by apply bool_decide_eq_true.
Qed.

(** The pairs [(i, j)], [i < j < n], in the order of the two outer loops. *)
Definition pairs_before (n i : nat) : list (nat * nat) :=
  concat (map (λ i', map (λ j, (i', j)) (seq (i' + 1) (n - (i' + 1)))) (seq 0 i)).

Definition pairs (n : nat) : list (nat * nat) := pairs_before n n.

Section HintsSpec.

Variable Math_log : num → num.

(** [Math.log] of a finite positive number is finite. *)
Hypothesis log_finite : ∀ q, 0 < q → isFinite (Math_log (Fin q)) = true.

Variables (labels : list string) (A : matrix) (n : nat).
Hypothesis labels_length : length labels = n.
Hypothesis rows_length : length A = n.

(** The indirect estimate of [A[i][j]] through [k]. *)
Definition via (i j k : nat) : num := nmul (rd2 A i k) (rd2 A k j).

(** [k] is a witness for the pair [(i, j)]. *)
Definition is_witness (i j k : nat) : Prop :=
  (k < n)%nat ∧ k ≠ i ∧ k ≠ j ∧ positive (via i j k) = true.

(** The disagreement [|ln(direct) - ln(via)|] at the witness [k]. *)
Definition disagreement (i j k : nat) : num :=
  nabs (nsub (Math_log (rd2 A i j)) (Math_log (via i j k))).

(** What the specification records for the pair [(i, j)]: nothing, or an
    entry whose score is the maximum of the disagreements over the
    witnesses, attained at the witness named in the text. *)
Definition pair_record (p : nat * nat) (entry : option issue) : Prop :=
  let '(i, j) := p in
  match entry with
  | None =>
      positive (rd2 A i j) = false
      ∨ ∀ k, is_witness i j k → disagreement i j k = Fin 0
  | Some e =>
      positive (rd2 A i j) = true
      ∧ ∃ k m, is_witness i j k
               ∧ disagreement i j k = Fin m ∧ 0 < m
               ∧ (∀ k', is_witness i j k' → nle (disagreement i j k') (Fin m) = true)
               ∧ e = mkIssue (Fin m) (hint_text labels i j k)
  end.

Lemma disagreement_fin (i j k : nat) :
  positive (rd2 A i j) = true → positive (via i j k) = true →
  ∃ d, disagreement i j k = Fin d ∧ 0 ≤ d.
Proof.
  intros (q & Hq & Hq0)%positive_fin (v & Hv & Hv0)%positive_fin.
  unfold disagreement. rewrite Hq, Hv.
  pose proof (log_finite q Hq0) as H1. pose proof (log_finite v Hv0) as H2.
  destruct (Math_log (Fin q)) as [x| | |]; [|done..].
  destruct (Math_log (Fin v)) as [y| | |]; [|done..].
  simpl. destruct (decide (x + - y < 0)) as [Hneg|Hpos]; eexists; split; try done.
  - apply Qclt_le_weak. apply Qclt_minus_iff in Hneg.
    by rewrite Qcplus_0_l in Hneg.
  - by apply Qcnot_lt_le.
Qed.

Lemma item_row (i : nat) : (i < n)%nat → ∃ Ai, item A i = Ok Ai ∧ A !! i = Some Ai.
Proof.
  intros Hi. destruct (lookup_lt_is_Some_2 A i ltac:(lia)) as [Ai HAi].
  exists Ai. unfold item. by rewrite HAi.
Qed.

(** The state of the [k] loop after the indices below [k]. *)
Definition witness_inv (i j k : nat) (st : num * option nat) : Prop :=
  ∃ b, st.1 = Fin b ∧ 0 ≤ b
       ∧ (∀ k', (k' < k)%nat → is_witness i j k' →
            nle (disagreement i j k') (Fin b) = true)
       ∧ match st.2 with
         | None => b = 0
         | Some kk => (kk < k)%nat ∧ is_witness i j kk
                      ∧ disagreement i j kk = Fin b ∧ 0 < b
         end.

Lemma witness_loop_spec (i j : nat) :
  (i < n)%nat → (j < n)%nat → positive (rd2 A i j) = true →
  ∃ st, witness_loop Math_log A n i j (rd2 A i j) = Ok st ∧ witness_inv i j n st.
Proof.
  intros Hi Hj Hdir. unfold witness_loop.
  apply (for_loopE_inv (witness_inv i j)); [lia| |].
  - exists 0. split; [done|]. split; [done|]. split; [|done]. intros k' Hk'. lia.
  - intros k [best bestK] Hk (b & Hb & Hb0 & Hmax & Hbest). simpl in Hb, Hbest. subst best.
    assert (∀ st', witness_inv i j k st' → ¬ is_witness i j k → witness_inv i j (S k) st')
      as Hskip.
    { intros [best' bestK'] (b' & ? & ? & Hmax' & Hbest') Hnw. exists b'.
      split; [done|]. split; [done|]. split.
      - intros k' Hk' Hw. destruct (decide (k' = k)) as [->|]; [done|].
        apply Hmax'; [lia|done].
      - simpl in *. destruct bestK' as [kk|]; [|done].
        destruct Hbest' as (Hlt' & Hrest). split; [lia|done]. }
    assert (witness_inv i j k (Fin b, bestK)) as Hinv by (by exists b).
    destruct (decide (k = i ∨ k = j)) as [Hij|Hij].
    { eexists. split; [reflexivity|]. apply Hskip; [done|].
      intros (_ & ? & ? & _). tauto. }
    destruct (item_row i Hi) as (Ai & -> & HAi).
    destruct (item_row k ltac:(lia)) as (Ak & -> & HAk). simpl.
    assert (nmul (rd Ai k) (rd Ak j) = via i j k) as ->
      by (unfold via, rd2; by rewrite HAi, HAk).
    rewrite skip_test_positive.
    destruct (positive (via i j k)) eqn:Hvia; simpl.
    2:{ eexists. split; [reflexivity|]. apply Hskip; [done|].
        intros (_ & _ & _ & Hv). congruence. }
    fold (disagreement i j k).
    destruct (disagreement_fin i j k Hdir Hvia) as (d & Hd & Hd0). rewrite Hd.
    assert (is_witness i j k) as Hw.
    { split; [lia|]. split; [tauto|]. split; [tauto|done]. }
    simpl. case_bool_decide as Hlt.
    + eexists. split; [reflexivity|]. exists d.
      split; [done|]. split; [done|]. split.
      * intros k' Hk' Hw'. destruct (decide (k' = k)) as [->|Hne].
        -- rewrite Hd. by apply nle_fin.
        -- apply nle_trans with (Fin b); [apply Hmax; [lia|done]|].
           by apply nle_fin, Qclt_le_weak.
      * simpl. split; [lia|]. split; [done|]. split; [done|].
        by apply Qcle_lt_trans with b.
    + eexists. split; [reflexivity|]. exists b.
      split; [done|]. split; [done|]. split.
      * intros k' Hk' Hw'. destruct (decide (k' = k)) as [->|Hne].
        -- rewrite Hd. by apply nle_fin, Qcnot_lt_le.
        -- apply Hmax; [lia|done].
      * simpl. destruct bestK as [kk|]; [|done].
        destruct Hbest as (Hlt' & Hrest). split; [lia|done].
Qed.

(** The body of the [j] loop pushes what the specification records. *)
Lemma pair_body_spec (i j : nat) (issues : list issue) :
  (i < n)%nat → (j < n)%nat →
  ∃ entry, pair_body Math_log labels A n i j issues = Ok (issues ++ option_list entry)
           ∧ pair_record (i, j) entry.
Proof.
  intros Hi Hj. unfold pair_body.
  destruct (item_row i Hi) as (Ai & -> & HAi). simpl.
  assert (rd Ai j = rd2 A i j) as -> by (unfold rd2; by rewrite HAi).
  rewrite skip_test_positive.
  destruct (positive (rd2 A i j)) eqn:Hdir; simpl.
  2:{ exists None. split; [by rewrite app_nil_r|by left]. }
  destruct (witness_loop_spec i j Hi Hj Hdir) as ([best bestK] & -> & b & Hb & Hb0 & Hmax & Hbest).
  simpl in *. subst best. destruct bestK as [kk|].
  - destruct Hbest as (Hkk & Hw & Hd & Hpos).
    exists (Some (mkIssue (Fin b) (hint_text labels i j kk))).
    split; [done|]. split; [done|]. exists kk, b.
    split; [done|]. split; [done|]. split; [done|]. split; [|done].
    intros k' Hw'. apply Hmax; [apply Hw'|done].
  - subst b. exists None. split; [by rewrite app_nil_r|]. right.
    intros k Hw. pose proof (Hmax k (proj1 Hw) Hw) as Hle.
    destruct Hw as (_ & _ & _ & Hv).
    destruct (disagreement_fin i j k Hdir Hv) as (d & Hd & Hd0).
    rewrite Hd in *. apply nle_fin in Hle. f_equal. by apply Qcle_antisym.
Qed.

Lemma pairs_before_S (i : nat) :
  pairs_before n (S i)
  = pairs_before n i ++ map (λ j, (i, j)) (seq (i + 1) (n - (i + 1))).
Proof.
  unfold pairs_before. rewrite seq_S, map_app, concat_app. simpl.
  by rewrite app_nil_r.
Qed.

Lemma omap_id_snoc (entries : list (option issue)) (entry : option issue) :
  omap id (entries ++ [entry]) = omap id entries ++ option_list entry.
Proof. rewrite omap_app. by destruct entry. Qed.

(** The two outer loops push, pair after pair, what the specification
    records. *)
Lemma collect_issues_spec :
  ∃ entries, collect_issues Math_log labels A = Ok (omap id entries)
             ∧ Forall2 pair_record (pairs n) entries.
Proof.
  unfold collect_issues. rewrite labels_length.
  destruct (for_loopE_inv
    (λ i issues, ∃ entries, issues = omap id entries
                            ∧ Forall2 pair_record (pairs_before n i) entries)
    0 n
    (λ i issues, for_loopE (i + 1) n (λ j issues, pair_body Math_log labels A n i j issues) issues)
    []) as (issues & Hrun & entries & -> & Hrec).
  - lia.
  - exists []. split; [done|]. constructor.
  - intros i issues Hi (entries & -> & Hrec).
    destruct (for_loopE_inv
      (λ j issues, ∃ entries', issues = omap id entries'
         ∧ Forall2 pair_record
             (pairs_before n i ++ map (λ j', (i, j')) (seq (i + 1) (j - (i + 1)))) entries')
      (i + 1) n
      (λ j issues, pair_body Math_log labels A n i j issues)
      (omap id entries)) as (issues' & Hrun' & entries' & -> & Hrec').
    + lia.
    + exists entries. split; [done|].
      rewrite Nat.sub_diag. simpl. by rewrite app_nil_r.
    + intros j issues' Hj (entries' & -> & Hrec').
      destruct (pair_body_spec i j (omap id entries') ltac:(lia) ltac:(lia))
        as (entry & Hbody & Hentry).
      eexists. split; [exact Hbody|].
      exists (entries' ++ [entry]). split; [by rewrite omap_id_snoc|].
      replace (S j - (i + 1))%nat with (S (j - (i + 1))) by lia.
      rewrite seq_S, map_app, app_assoc.
      apply Forall2_app; [done|].
      replace (i + 1 + (j - (i + 1)))%nat with j by lia.
      by repeat constructor.
    + exists (omap id entries'). split; [done|].
      exists entries'. split; [done|]. by rewrite pairs_before_S.
  - exists entries. by split.
Qed.

Lemma pair_record_score (p : nat * nat) (e : issue) :
  pair_record p (Some e) → not_nan (score e).
Proof. destruct p as [i j]. intros (_ & k & m & _ & _ & _ & _ & ->). done. Qed.

(** C5, as the code has it: the recorded entries are, pair after pair in
    the order of the loops, one entry for every pair [i < j] whose direct
    judgment is finite and positive and for which some witness has a
    disagreement above 0; the score of the entry is the maximum of
    [|ln(direct) - ln(via)|] over the witnesses of the pair.  The list
    returned is the recorded entries sorted by descending score (stably),
    cut to the first [topK]. *)
Theorem hints_record_maximum (topK : Z) :
  ∃ (entries : list (option issue)) (sorted : list issue),
    Forall2 pair_record (pairs n) entries
    ∧ collect_issues Math_log labels A = Ok (omap id entries)
    ∧ inconsistencyHints Math_log labels A topK = Ok (slice0 sorted topK)
    ∧ sorted ≡ₚ omap id entries
    ∧ StronglySorted (λ a b, nle (score b) (score a) = true) sorted
    ∧ (∀ s, filter (λ e, score e = s) sorted = filter (λ e, score e = s) (omap id entries))
    ∧ ((0 ≤ topK)%Z → slice0 sorted topK = take (Z.to_nat topK) sorted).
Proof.
  destruct collect_issues_spec as (entries & Hrun & Hrec).
  exists entries, (js_sort (by_key_desc score) (omap id entries)).
  split; [done|]. split; [done|].
  split; [unfold inconsistencyHints; by rewrite Hrun|].
  split; [apply js_sort_perm|].
  split.
  { apply (js_sort_sorted score). apply Forall_forall.
    intros e He. apply list_elem_of_omap in He as (entry & He & Heq).
    simpl in Heq. subst entry.
    apply list_elem_of_lookup in He as [k Hk].
    destruct (Forall2_lookup_r _ _ _ _ _ Hrec Hk) as (p & _ & Hp).
    by apply (pair_record_score p). }
  split; [intros s; apply js_sort_stable|].
  intros Hk. unfold slice0. by rewrite decide_False by lia.
Qed.

End HintsSpec.

(** An executable stand-in for [Math.log] on examples: on [p / q] the
    difference of the integer base-2 logarithms of [p] and [q].  It is 0 at
    1 and finite on every finite number. *)
Definition coarse_log (x : num) : num :=
  match x with
  | Fin q => Fin (Qc_of_Z (Z.log2 (Qnum q) - Z.log2 (Z.pos (Qden q))))
  | _ => NaN
  end.

(** One contradictory judgment: the first item is 8 times the second,
    every other pair is judged equal. *)
Definition contradictory_matrix : matrix :=
  [[lit 1 1; lit 8 1; lit 1 1]; [lit 1 8; lit 1 1; lit 1 1]; [lit 1 1; lit 1 1; lit 1 1]].

Lemma hints_record_maximum_witness :
  ∃ (entries : list (option issue)) (sorted : list issue),
    Forall2 (pair_record coarse_log ["a"; "b"; "c"] contradictory_matrix 3) (pairs 3) entries
    ∧ inconsistencyHints coarse_log ["a"; "b"; "c"] contradictory_matrix 2
      = Ok (slice0 sorted 2)
    ∧ StronglySorted (λ a b, nle (score b) (score a) = true) sorted.
Proof.
  destruct (hints_record_maximum coarse_log ltac:(done) ["a"; "b"; "c"]
              contradictory_matrix 3 eq_refl eq_refl 2)
    as (entries & sorted & H1 & _ & H2 & _ & H3 & _).
  exists entries, sorted. split; [exact H1|]. split; [exact H2|exact H3].
Defined.

Example hints_contradictory :
  inconsistencyHints coarse_log ["a"; "b"; "c"] contradictory_matrix 2
  = Ok [mkIssue (lit 3 1) "a vs b (check with c)"; mkIssue (lit 3 1) "a vs c (check with b)"].
Proof. apply (bool_decide_unpack _). vm_compute. exact I. Qed.

(** C5 as stated fails: in the neutral matrix of order 3 the pair (0, 1)
    has a finite positive direct judgment and the witness 2 with a finite
    positive indirect estimate, and no entry is recorded, since the
    disagreement 0 is not above the initial [best = 0]. *)
Lemma hints_consistent_no_entry :
  positive (rd2 (identityMatrix 3) 0 1) = true
  ∧ is_witness (identityMatrix 3) 3 0 1 2
  ∧ disagreement coarse_log (identityMatrix 3) 0 1 2 = Fin 0
  ∧ collect_issues coarse_log ["a"; "b"; "c"] (identityMatrix 3) = Ok []
  ∧ inconsistencyHints coarse_log ["a"; "b"; "c"] (identityMatrix 3) 3 = Ok [].
Proof.
  split; [reflexivity|]. split.
  { split; [lia|]. split; [done|]. split; [done|reflexivity]. }
  split; [apply (bool_decide_unpack _); vm_compute; exact I|].
  split; reflexivity.
Qed.

(** The same holds whatever [Math.log] returns. *)
Lemma hints_neutral_any_log (Math_log : num → num) :
  inconsistencyHints Math_log ["a"; "b"; "c"] (identityMatrix 3) 3 = Ok [].
Proof.
  assert (∀ x, ngt (nabs (nsub x x)) (Fin 0) = false) as H.
  { intros [q| | |]; try done. simpl. rewrite Qcplus_opp_r. reflexivity. }
  unfold inconsistencyHints, collect_issues, for_loopE. simpl.
  unfold pair_body, witness_loop, for_loopE. simpl.
  change (Q2Qc 1 * Q2Qc 1) with (Q2Qc 1).
  by rewrite !H.
Qed.

(** * Further properties of the matrix helpers *)

(** ** The neutral matrix *)

Lemma neutral_is_valid (n : nat) : valid_matrix (identityMatrix n) n.
Proof.
  destruct (identityMatrix_fin n) as [Hlen Hcell].
  assert (Fin 1 = ndiv (Fin 1) (Fin 1)) as Hone
    by (apply (bool_decide_unpack _); vm_compute; exact I).
  split; [done|]. split.
  { unfold identityMatrix. apply Forall_forall.
    intros r (i & -> & _)%list_elem_of_fmap. by rewrite length_map, length_seq. }
  split; [intros i j Hi Hj; exists 1; by rewrite Hcell|].
  split; [intros i Hi; by apply Hcell|].
  intros i j Hi Hj _. by rewrite !Hcell.
Qed.

(** [identityMatrix(n)] has [n] rows of [n] cells, all 1, and so satisfies
    the invariants of a pairwise matrix of order [n], for every [n]. *)
Theorem identityMatrix_valid (n : nat) :
  valid_matrix (identityMatrix n) n
  ∧ ∀ i j, (i < n)%nat → (j < n)%nat → rd2 (identityMatrix n) i j = Fin 1.
Proof. split; [apply neutral_is_valid|apply identityMatrix_fin]. Qed.

(** ** More on [setPairwise] *)

Lemma bind_throw {A B : Type} (m : M A) (f : A → M B) (h : heap) :
  m h = Throw → bind m f h = Throw.
Proof. intros H. unfold bind. by rewrite H. Qed.

(** The cells of the matrix that [setPairwise] builds. *)
Lemma setPairwise_value_rd2 (A : matrix) (n i j p q : nat) (v : num) :
  length A = n → (i < n)%nat → (j < n)%nat →
  rd2 (setPairwise_value A i j v) p q
  = if decide (p = q ∧ (p < n)%nat) then Fin 1
    else if decide (p = j ∧ q = i) then ndiv (Fin 1) v
    else if decide (p = i ∧ q = j) then v
    else rd2 A p q.
Proof.
  intros Hlen Hi Hj. unfold setPairwise_value.
  rewrite diag_fold_rd2 by (rewrite !length_set_entry; lia). rewrite Hlen.
  by rewrite !rd2_set_entry by (rewrite ?length_set_entry; lia).
Qed.

Lemma setPairwise_value_length (A : matrix) (i j : nat) (v : num) :
  length (setPairwise_value A i j v) = length A.
Proof. unfold setPairwise_value. by rewrite diag_fold_length, !length_set_entry. Qed.

Lemma setPairwise_value_rows (A : matrix) (n i j : nat) (v : num) :
  length A = n → (i < n)%nat → (j < n)%nat →
  Forall (λ r, length r = n) A →
  Forall (λ r, length r = n) (setPairwise_value A i j v).
Proof.
  intros Hlen Hi Hj Hrows. unfold setPairwise_value. apply diag_fold_rows.
  - apply Forall_forall. intros k Hk%list_elem_of_In%in_seq. lia.
  - by do 2 (apply rows_set_entry; [done|]).
Qed.

(** Two matrices of [n] rows of [n] cells with the same cells are equal. *)
Lemma matrix_ext (A B : matrix) (n : nat) :
  length A = n → length B = n →
  Forall (λ r, length r = n) A → Forall (λ r, length r = n) B →
  (∀ p q, (p < n)%nat → (q < n)%nat → rd2 A p q = rd2 B p q) → A = B.
Proof.
  intros HA HB HrA HrB Hcells. apply list_eq_same_length with n; [done..|].
  intros p ra rb Hp Hra Hrb.
  pose proof (Forall_lookup_1 _ _ _ _ HrA Hra) as Hla.
  pose proof (Forall_lookup_1 _ _ _ _ HrB Hrb) as Hlb. simpl in Hla, Hlb.
  apply list_eq_same_length with n; [done..|].
  intros q x y Hq Hx Hy. specialize (Hcells p q Hp Hq).
  unfold rd2, rd in Hcells. rewrite Hra, Hrb in Hcells. simpl in Hcells.
  by rewrite Hx, Hy in Hcells.
Qed.

Lemma ndiv_one_inv (x : Qc) : 0 < x → ndiv (Fin 1) (Fin (1 / x)) = Fin x.
Proof.
  intros Hx. pose proof (Qc_pos_ne x Hx) as Hne.
  assert (1 / x ≠ 0) as Hinv.
  { apply Qc_pos_ne. unfold Qcdiv. rewrite Qcmult_1_l. by apply Qcinv_pos. }
  rewrite ndiv_fin by done. f_equal. by field.
Qed.




(** [setPairwise(A, i, i, v)] on a valid matrix returns a fresh copy of
    [A], whatever [v] is: the two assignments to the diagonal cell are
    overwritten by the loop that restores the diagonal. *)
Theorem setPairwise_same_index (h : heap) (a : loc) (A : matrix) (n i : nat) (v : num) :
  read_matrix h a = Some A → valid_matrix A n → (i < n)%nat →
  ∃ (b : loc) (h' : heap),
    setPairwise a i i v h = Ok (b, h')
    ∧ read_matrix h' b = Some A
    ∧ read_matrix h' a = Some A
    ∧ b ≠ a.
Proof.
  intros Ha (Hlen & Hrows & _ & Hdiag & _) Hi.
  assert (setPairwise_value A i i v = A) as Hval.
  { apply (matrix_ext _ _ n); [by rewrite setPairwise_value_length| |
      by apply setPairwise_value_rows|done|]; [done|].
    intros p q Hp Hq. rewrite (setPairwise_value_rd2 A n i i p q) by done.
    destruct (decide (p = q ∧ (p < n)%nat)) as [[-> _]|Hd]; [by rewrite Hdiag|].
    rewrite !decide_False by (intros [-> ->]; apply Hd; done). done. }
  exists (length h + length A)%nat, (extended h A).
  split; [rewrite <-Hval at 2; apply setPairwise_run; [done|lia|lia]|].
  split; [apply read_matrix_extended_new|].
  split; [by apply read_matrix_extended_old|].
  apply read_matrix_Some in Ha as (rs & Ha & _). apply lookup_lt_Some in Ha. lia.
Qed.

Lemma setPairwise_same_index_witness :
  ∃ (b : loc) (h' : heap),
    setPairwise 2 1 1 (lit 7 1) example_heap = Ok (b, h')
    ∧ read_matrix h' b = Some (identityMatrix 2).
Proof.
  destruct (setPairwise_same_index example_heap 2 (identityMatrix 2) 2 1 (lit 7 1))
    as (b & h' & H1 & H2 & _).
  - reflexivity.
  - apply neutral_is_valid.
  - lia.
  - by exists b, h'.
Defined.

Lemma mat_item_out_of_range (h : heap) (X : matrix) (n k : nat) :
  length X = n → (n ≤ k)%nat → mat_item (length h + n) k (extended h X) = Throw.
Proof.
  intros <- Hk. unfold mat_item, bind, get_mat. rewrite extended_mat.
  by rewrite lookup_seq_ge.
Qed.

(** An index past the last row makes [setPairwise] throw: [B[i]] (or
    [B[j]]) is [undefined] and its cell cannot be assigned. *)
Theorem setPairwise_out_of_range (h : heap) (a : loc) (A : matrix) (i j : nat) (v : num) :
  read_matrix h a = Some A → (length A ≤ i)%nat ∨ (length A ≤ j)%nat →
  setPairwise a i j v h = Throw.
Proof.
  intros Ha Hout. unfold setPairwise.
  rewrite (bind_ok _ _ _ _ _ (cloneMatrix_extended h a A Ha)).
  destruct (decide (length A ≤ i)%nat) as [Hi|Hi].
  - by rewrite (bind_throw _ _ _ (mat_item_out_of_range h A (length A) i eq_refl Hi)).
  - assert (length A ≤ j)%nat as Hj by lia.
    rewrite (bind_ok _ _ _ _ _ (mat_item_extended h A (length A) i eq_refl ltac:(lia))).
    rewrite (bind_ok _ _ _ _ _ (set_cell_extended h A i j v ltac:(lia))).
    apply bind_throw. apply mat_item_out_of_range; [apply length_set_entry|done].
Qed.

Lemma setPairwise_out_of_range_witness :
  setPairwise 2 0 2 (lit 3 1) example_heap = Throw.
Proof.
  apply (setPairwise_out_of_range example_heap 2 (identityMatrix 2) 0 2 (lit 3 1)).
  - reflexivity.
  - right. simpl. lia.
Defined.

Lemma setPairwise_value_mirror (A : matrix) (n i j : nat) (v : Qc) :
  valid_matrix A n → (i < n)%nat → (j < n)%nat → i ≠ j → 0 < v →
  setPairwise_value A j i (Fin (1 / v)) = setPairwise_value A i j (Fin v).
Proof.
  intros (Hlen & Hrows & _) Hi Hj Hij Hv.
  apply (matrix_ext _ _ n); [by rewrite setPairwise_value_length..| | |].
  - by apply setPairwise_value_rows.
  - by apply setPairwise_value_rows.
  - intros p q Hp Hq.
    rewrite (setPairwise_value_rd2 A n j i p q), (setPairwise_value_rd2 A n i j p q) by done.
    rewrite ndiv_one_inv by done. rewrite ndiv_fin by (by apply Qc_pos_ne).
    repeat case_decide; try done; destruct_and?; simplify_eq; done.
Qed.

(** Over exact arithmetic the two ways of entering a judgment agree:
    preferring the right item by [v], [setPairwise(A, j, i, 1/v)], builds
    the same matrix as [setPairwise(A, i, j, v)]. *)
Theorem setPairwise_mirror (h : heap) (a : loc) (A : matrix) (n i j : nat) (v : Qc) :
  read_matrix h a = Some A → valid_matrix A n →
  (i < n)%nat → (j < n)%nat → i ≠ j → 0 < v →
  ∃ (b1 b2 : loc) (h1 h2 : heap) (B : matrix),
    setPairwise a i j (Fin v) h = Ok (b1, h1)
    ∧ setPairwise a j i (Fin (1 / v)) h = Ok (b2, h2)
    ∧ read_matrix h1 b1 = Some B
    ∧ read_matrix h2 b2 = Some B.
Proof.
  intros Ha HA Hi Hj Hij Hv. pose proof (proj1 HA) as Hlen.
  pose proof (setPairwise_value_mirror A n i j v HA Hi Hj Hij Hv) as Hm.
  pose proof (setPairwise_value_length A i j (Fin v)) as HlB.
  eexists _, _, _, _, (setPairwise_value A i j (Fin v)).
  split; [apply setPairwise_run; [done|lia|lia]|].
  split; [apply setPairwise_run; [done|lia|lia]|].
  rewrite Hm, <-HlB. split; apply read_matrix_extended_new.
Qed.

Lemma setPairwise_mirror_witness :
  ∃ (b1 b2 : loc) (h1 h2 : heap) (B : matrix),
    setPairwise 2 0 1 (lit 4 1) example_heap = Ok (b1, h1)
    ∧ setPairwise 2 1 0 (Fin (1 / Q2Qc 4)) example_heap = Ok (b2, h2)
    ∧ read_matrix h1 b1 = Some B
    ∧ read_matrix h2 b2 = Some B.
Proof.
  apply (setPairwise_mirror example_heap 2 (identityMatrix 2) 2 0 1 (Q2Qc 4)).
  - reflexivity.
  - apply neutral_is_valid.
  - lia.
  - lia.
  - lia.
  - reflexivity.
Defined.

Lemma setPairwise_value_undo (A : matrix) (n i j : nat) (v : num) :
  valid_matrix A n → (i < n)%nat → (j < n)%nat → i ≠ j →
  setPairwise_value (setPairwise_value A i j v) i j (rd2 A i j) = A.
Proof.
  intros (Hlen & Hrows & _ & Hdiag & Hrec) Hi Hj Hij.
  pose proof (setPairwise_value_length A i j v) as HlB. rewrite Hlen in HlB.
  pose proof (setPairwise_value_rows A n i j v Hlen Hi Hj Hrows) as HrB.
  apply (matrix_ext _ _ n); [by rewrite setPairwise_value_length| |
    by apply setPairwise_value_rows|done|]; [done|].
  intros p q Hp Hq.
  rewrite (setPairwise_value_rd2 _ n i j p q) by done.
  rewrite (setPairwise_value_rd2 A n i j p q) by done.
  destruct (decide (p = q ∧ (p < n)%nat)) as [[-> _]|Hd]; [by rewrite Hdiag|].
  destruct (decide (p = j ∧ q = i)) as [[-> ->]|H1]; [symmetry; by apply Hrec|].
  destruct (decide (p = i ∧ q = j)) as [[-> ->]|H2]; done.
Qed.

(** Undo: writing the old value of the cell back with a second
    [setPairwise] yields the old matrix again, and the store then still
    holds all three versions (the input, the update and the restored
    copy). *)
Theorem setPairwise_undo (h : heap) (a : loc) (A : matrix) (n i j : nat) (v : Qc) :
  read_matrix h a = Some A → valid_matrix A n →
  (i < n)%nat → (j < n)%nat → i ≠ j → 0 < v →
  ∃ (b c : loc) (h1 h2 : heap) (B : matrix),
    setPairwise a i j (Fin v) h = Ok (b, h1)
    ∧ setPairwise b i j (rd2 A i j) h1 = Ok (c, h2)
    ∧ rd2 B i j = Fin v
    ∧ read_matrix h2 a = Some A
    ∧ read_matrix h2 b = Some B
    ∧ read_matrix h2 c = Some A.
Proof.
  intros Ha HA Hi Hj Hij Hv. pose proof (proj1 HA) as Hlen.
  set (B := setPairwise_value A i j (Fin v)).
  assert (length B = n) as HlB by (unfold B; by rewrite setPairwise_value_length).
  assert (read_matrix (extended h B) (length h + length A) = Some B) as Hb.
  { rewrite Hlen, <-HlB. apply read_matrix_extended_new. }
  pose proof (setPairwise_value_undo A n i j (Fin v) HA Hi Hj Hij) as Hundo. fold B in Hundo.
  exists (length h + length A)%nat,
    (length (extended h B) + length B)%nat, (extended h B),
    (extended (extended h B) (setPairwise_value B i j (rd2 A i j))), B.
  split; [apply setPairwise_run; [done|lia|lia]|].
  split; [apply setPairwise_run; [done|lia|lia]|].
  split.
  { unfold B. rewrite (setPairwise_value_rd2 A n i j i j) by done.
    rewrite decide_False by (intros [? _]; done).
    rewrite decide_False by (intros [? _]; done). by rewrite decide_True. }
  split; [by do 2 apply read_matrix_extended_old|].
  split; [by apply read_matrix_extended_old|].
  rewrite Hundo.
  replace (length B) with (length A) by (by rewrite HlB).
  apply read_matrix_extended_new.
Qed.

Lemma setPairwise_undo_witness :
  ∃ (b c : loc) (h1 h2 : heap) (B : matrix),
    setPairwise 2 0 1 (lit 6 1) example_heap = Ok (b, h1)
    ∧ setPairwise b 0 1 (lit 1 1) h1 = Ok (c, h2)
    ∧ rd2 B 0 1 = lit 6 1
    ∧ read_matrix h2 2 = Some (identityMatrix 2)
    ∧ read_matrix h2 b = Some B
    ∧ read_matrix h2 c = Some (identityMatrix 2).
Proof.
  apply (setPairwise_undo example_heap 2 (identityMatrix 2) 2 0 1 (Q2Qc 6)).
  - reflexivity.
  - apply neutral_is_valid.
  - lia.
  - lia.
  - lia.
  - reflexivity.
Defined.

(** [cloneMatrix] returns a fresh matrix with the cells of its argument:
    the new matrix and each of its rows are at addresses the store did not
    hold, and every object the store held is unchanged. *)
Theorem cloneMatrix_fresh_copy (h : heap) (a : loc) (A : matrix) :
  read_matrix h a = Some A →
  ∃ (b : loc) (h' : heap) (rs : list loc),
    cloneMatrix a h = Ok (b, h')
    ∧ read_matrix h' b = Some A
    ∧ read_matrix h' a = Some A
    ∧ h !! b = None
    ∧ h' !! b = Some (OMat rs)
    ∧ Forall (λ r, h !! r = None) rs
    ∧ (∀ l o, h !! l = Some o → h' !! l = Some o).
Proof.
  intros Ha.
  exists (length h + length A)%nat, (extended h A), (seq (length h) (length A)).
  split; [by apply cloneMatrix_extended|].
  split; [apply read_matrix_extended_new|].
  split; [by apply read_matrix_extended_old|].
  split; [apply lookup_ge_None_2; lia|].
  split; [apply extended_mat|].
  split; [|intros l o; apply extended_old].
  apply Forall_forall. intros r Hr%list_elem_of_In%in_seq.
  apply lookup_ge_None_2. lia.
Qed.

Lemma cloneMatrix_fresh_copy_witness :
  ∃ (b : loc) (h' : heap),
    cloneMatrix 2 example_heap = Ok (b, h')
    ∧ read_matrix h' b = Some (identityMatrix 2)
    ∧ example_heap !! b = None.
Proof.
  destruct (cloneMatrix_fresh_copy example_heap 2 (identityMatrix 2) eq_refl)
    as (b & h' & rs & H1 & H2 & _ & H3 & _).
  by exists b, h'.
Defined.

(** * Further properties of the solver *)

(** ** The consistency index as a function of the estimate *)

Lemma Qcdiv_lt_mono (x y d : Qc) : 0 < d → x < y → x / d < y / d.
Proof.
  intros Hd Hxy. unfold Qcdiv. apply Qcmult_lt_compat_r; [by apply Qcinv_pos|done].
Qed.

(** Over exact arithmetic, for a fixed order [n >= 2], a larger
    [lambdaMax] gives a strictly larger [ci]; it gives a strictly larger
    [cr] for [n >= 3], while for [n = 2] the ratio is 0 whatever
    [lambdaMax] is.  (In binary64 two close values of [lambdaMax] can
    round to the same [ci] or [cr].) *)
Theorem consistency_monotone (A : matrix) (n : nat) (lam1 lam2 : Qc) :
  length A = n → (2 ≤ n)%nat → lam1 < lam2 →
  nlt (c_ci (consistency A (Fin lam1))) (c_ci (consistency A (Fin lam2))) = true
  ∧ ((3 ≤ n)%nat →
     nlt (c_cr (consistency A (Fin lam1))) (c_cr (consistency A (Fin lam2))) = true)
  ∧ (n = 2%nat →
     c_cr (consistency A (Fin lam1)) = Fin 0 ∧ c_cr (consistency A (Fin lam2)) = Fin 0).
Proof.
  intros Hlen Hn Hlt.
  assert (0 < Qc_of_Z (Z.of_nat n) - 1) as Hd.
  { rewrite <-Z2Qc_inj_1, <-Z2Qc_inj_sub, <-Z2Qc_inj_0.
    apply (proj1 (Z2Qc_inj_lt _ _)). lia. }
  assert ((lam1 - Qc_of_Z (Z.of_nat n)) / (Qc_of_Z (Z.of_nat n) - 1)
          < (lam2 - Qc_of_Z (Z.of_nat n)) / (Qc_of_Z (Z.of_nat n) - 1)) as Hci.
  { apply Qcdiv_lt_mono; [done|]. unfold Qcminus. by apply Qcplus_lt_mono_r. }
  destruct (consistency_cr_cases A (Fin lam1) n Hlen ltac:(lia)) as [Hs1 Hl1].
  destruct (consistency_cr_cases A (Fin lam2) n Hlen ltac:(lia)) as [Hs2 Hl2].
  rewrite !(consistency_ci_fin A n _ Hlen Hn) in *.
  split; [by apply bool_decide_eq_true|]. split.
  - intros H3. rewrite Hl1, Hl2 by lia.
    destruct (saaty_table_pos n H3) as (r & -> & Hr).
    rewrite !ndiv_fin by (by apply Qc_pos_ne).
    apply bool_decide_eq_true. by apply Qcdiv_lt_mono.
  - intros ->. split; [apply Hs1|apply Hs2]; lia.
Qed.

Lemma consistency_monotone_witness :
  nlt (c_ci (consistency scenario_matrix (lit 31 10)))
      (c_ci (consistency scenario_matrix (lit 32 10))) = true
  ∧ nlt (c_cr (consistency scenario_matrix (lit 31 10)))
        (c_cr (consistency scenario_matrix (lit 32 10))) = true.
Proof.
  destruct (consistency_monotone scenario_matrix 3 (Q2Qc (31 # 10)) (Q2Qc (32 # 10)))
    as (H1 & H2 & _).
  - reflexivity.
  - lia.
  - reflexivity.
  - split; [exact H1|apply H2; lia].
Defined.

Lemma consistency_at_order (A : matrix) (n : nat) :
  length A = n → (1 ≤ n)%nat →
  c_cr (consistency A (of_nat n)) = Fin 0
  ∧ ((2 ≤ n)%nat → c_ci (consistency A (of_nat n)) = Fin 0).
Proof.
  intros Hlen Hn. unfold of_nat. set (N := Qc_of_Z (Z.of_nat n)).
  assert ((2 ≤ n)%nat → c_ci (consistency A (Fin N)) = Fin 0) as Hci.
  { intros H2. rewrite (consistency_ci_fin _ n N Hlen H2).
    fold N. f_equal. unfold Qcdiv, Qcminus. rewrite Qcplus_opp_r. ring. }
  split; [|done].
  destruct (consistency_cr_cases A (Fin N) n Hlen Hn) as [Hsmall Hlarge].
  destruct (decide (n ≤ 2)%nat) as [Hle|Hgt]; [by apply Hsmall|].
  rewrite Hlarge by lia. rewrite Hci by lia.
  destruct (saaty_table_pos n ltac:(lia)) as (r & -> & Hr).
  rewrite ndiv_fin by (by apply Qc_pos_ne).
  f_equal. unfold Qcdiv. ring.
Qed.

(** ** Positive matrices *)

(** Over exact arithmetic, for a matrix of order [n >= 1] with finite
    positive cells, reciprocal or not, and for every iteration cap and
    tolerance, [powerIterationWeights] returns [n] strictly positive
    weights that sum to 1 and a finite positive [lambdaMax].  (In binary64
    large or small cells overflow or underflow.) *)
Theorem power_weights_positive (A : matrix) (n maxIter : nat) (tol : num) :
  (1 ≤ n)%nat → length A = n →
  (∀ i j, (i < n)%nat → (j < n)%nat → ∃ q, rd2 A i j = Fin q ∧ 0 < q) →
  ∃ (ws : list Qc) (lam : Qc),
    p_weights (powerIterationWeights A maxIter tol) = map Fin ws
    ∧ length ws = n
    ∧ Forall (λ w, 0 < w) ws
    ∧ qsum ws = 1
    ∧ p_lambdaMax (powerIterationWeights A maxIter tol) = Fin lam
    ∧ 0 < lam.
Proof.
  intros Hn Hlen Hpos.
  assert (fin_matrix A n (cell A) ∧ ∀ i j, (i < n)%nat → (j < n)%nat → 0 < cell A i j)
    as [Hfin Hcell].
  { split; [split; [done|]|]; intros i j Hi Hj;
      destruct (Hpos i j Hi Hj) as (q & Hq & Hq0); unfold cell; by rewrite Hq. }
  destruct (powerIterationWeights_fin A n (cell A) maxIter tol Hfin ltac:(lia) Hcell)
    as (x & Hw & Hx & Hsum & Hlam).
  exists (map x (seq 0 n)), (rayleigh (cell A) x n).
  rewrite Hw, Hlam.
  split; [unfold vec; by rewrite map_map|].
  split; [by rewrite length_map, length_seq|].
  split.
  { apply Forall_forall. intros w (i & -> & Hi%list_elem_of_In%in_seq)%list_elem_of_fmap.
    apply Hx. lia. }
  split; [by rewrite qsum_map_seq|]. split; [done|].
  unfold rayleigh, Qcdiv. apply Qcmult_pos_pos; [|apply Qcinv_pos, order_pos; lia].
  apply bigsum_pos; [lia|]. intros i Hi.
  apply Qcmult_pos_pos; [apply mulv_pos; [lia|auto|auto]|apply Qcinv_pos; auto].
Qed.

(** A positive matrix that is not reciprocal. *)
Definition lopsided_matrix : matrix := [[lit 2 1; lit 3 1]; [lit 5 1; lit 1 7]].

Lemma power_weights_positive_witness :
  ∃ (ws : list Qc) (lam : Qc),
    p_weights (powerIterationWeights lopsided_matrix maxIter_default tol_default)
    = map Fin ws
    ∧ Forall (λ w, 0 < w) ws
    ∧ qsum ws = 1
    ∧ p_lambdaMax (powerIterationWeights lopsided_matrix maxIter_default tol_default)
      = Fin lam
    ∧ 0 < lam.
Proof.
  destruct (power_weights_positive lopsided_matrix 2 maxIter_default tol_default)
    as (ws & lam & H1 & _ & H2 & H3 & H4 & H5).
  - lia.
  - reflexivity.
  - intros i j Hi Hj.
    destruct i as [|[|i]]; [| |lia]; destruct j as [|[|j]]; try lia;
      (eexists; split; [reflexivity|reflexivity]).
  - exists ws, lam. repeat split; assumption.
Defined.

(** ** Perfectly consistent judgments *)

Section Consistent.

Variables (w : list Qc) (A : matrix).

Let n := length w.
Let W := qsum w.
Let a := λ i j : nat, qnth w i / qnth w j.

Hypothesis w_pos : Forall (λ x, 0 < x) w.
Hypothesis w_nonempty : (1 ≤ length w)%nat.
Hypothesis A_ratio : fin_matrix A (length w) (λ i j, qnth w i / qnth w j).

Lemma qnth_pos (i : nat) : (i < n)%nat → 0 < qnth w i.
Proof.
  intros Hi. unfold qnth. destruct (lookup_lt_is_Some_2 w i Hi) as [x Hx].
  rewrite Hx. simpl. by apply (Forall_lookup_1 _ _ _ _ w_pos Hx).
Qed.

Lemma total_pos : 0 < W.
Proof.
  unfold W. rewrite qsum_bigsum. apply bigsum_pos; [done|]. apply qnth_pos.
Qed.

(** One pass sends every positive vector to the normalised weights. *)
Lemma next_vec_consistent (x : nat → Qc) (i : nat) :
  (∀ j, (j < n)%nat → 0 < x j) → (i < n)%nat →
  next_vec a x n i = qnth w i / W.
Proof.
  intros Hx Hi. pose proof total_pos as HW.
  set (c := bigsum (λ j, x j / qnth w j) n).
  assert (0 < c) as Hc.
  { apply bigsum_pos; [done|]. intros j Hj. unfold Qcdiv.
    apply Qcmult_pos_pos; [auto|]. by apply Qcinv_pos, qnth_pos. }
  assert (∀ k, (k < n)%nat → mulv a x n k = qnth w k * c) as Hmul.
  { intros k Hk. unfold mulv, c. rewrite <-bigsum_scale_l.
    apply bigsum_ext. intros j Hj. unfold a. field. by apply Qc_pos_ne, qnth_pos. }
  unfold next_vec. rewrite (bigsum_ext _ (λ k, qnth w k * c)) by done.
  rewrite bigsum_scale_r, Hmul by done. fold n. rewrite <-qsum_bigsum. fold W.
  field. split; by apply Qc_pos_ne.
Qed.

Lemma normalised_pos (j : nat) : (j < n)%nat → 0 < qnth w j / W.
Proof.
  intros Hj. unfold Qcdiv.
  apply Qcmult_pos_pos; [by apply qnth_pos|apply Qcinv_pos, total_pos].
Qed.

Lemma mulv_sum_ne (x : nat → Qc) :
  (∀ j, (j < n)%nat → 0 < x j) → bigsum (mulv a x n) n ≠ 0.
Proof.
  intros Hx. apply Qc_pos_ne, bigsum_pos; [done|].
  intros i Hi. apply mulv_pos; [done| |done].
  intros j Hj. unfold a, Qcdiv.
  apply Qcmult_pos_pos; [by apply qnth_pos|by apply Qcinv_pos, qnth_pos].
Qed.

(** After at least one pass the loop holds the normalised weights. *)
Lemma power_loop_consistent (tol : num) (remaining : nat) :
  ∀ (x : nat → Qc) (passes : nat),
    (∀ j, (j < n)%nat → 0 < x j) →
    fst (power_loop A n tol (S remaining) (vec x n) passes)
    = vec (λ i, qnth w i / W) n.
Proof.
  induction remaining as [|r IH]; intros x passes Hx;
    rewrite power_loop_S, (power_step_fin A n a x A_ratio (mulv_sum_ne x Hx));
    rewrite (vec_ext (next_vec a x n) (λ i, qnth w i / W) n)
      by (intros; by apply next_vec_consistent).
  - by destruct (nlt _ tol).
  - destruct (nlt _ tol); [done|]. apply IH. apply normalised_pos.
Qed.

Lemma rayleigh_consistent : rayleigh a (λ i, qnth w i / W) n = Qc_of_Z (Z.of_nat n).
Proof.
  pose proof total_pos as HW. pose proof (order_pos n w_nonempty) as HN.
  unfold rayleigh.
  rewrite (bigsum_ext _ (λ _, Qc_of_Z (Z.of_nat n))).
  - rewrite bigsum_const. field. by apply Qc_pos_ne.
  - intros i Hi. unfold mulv.
    rewrite (bigsum_ext _ (λ _, qnth w i / W)).
    + rewrite bigsum_const. field. split; apply Qc_pos_ne; [done|by apply qnth_pos].
    + intros j Hj. unfold a. field. split; apply Qc_pos_ne; [done|by apply qnth_pos].
Qed.

Lemma vec_of_list (f : Qc → Qc) : vec (λ i, f (qnth w i)) n = map (λ x, Fin (f x)) w.
Proof.
  unfold vec. apply list_eq. intros i.
  rewrite !list_lookup_fmap. destruct (decide (i < n)%nat) as [Hi|Hi].
  - rewrite lookup_seq_lt by done. simpl. unfold qnth.
    by destruct (lookup_lt_is_Some_2 w i Hi) as [x ->].
  - rewrite lookup_seq_ge by lia. by rewrite (lookup_ge_None_2 w i) by (fold n; lia).
Qed.

Lemma consistent_power :
  powerIterationWeights A maxIter_default tol_default
  = mkPower (map (λ x, Fin (x / W)) w) (of_nat n).
Proof.
  pose proof (order_pos n w_nonempty) as HN.
  assert (replicate n (ndiv (Fin 1) (of_nat n))
          = vec (λ _, 1 / Qc_of_Z (Z.of_nat n)) n) as Hw0.
  { unfold of_nat. rewrite ndiv_fin by (by apply Qc_pos_ne). apply replicate_vec. }
  unfold powerIterationWeights. rewrite (proj1 A_ratio). fold n. cbv zeta.
  rewrite Hw0. unfold maxIter_default. rewrite power_loop_consistent.
  2:{ intros j _. unfold Qcdiv. rewrite Qcmult_1_l. by apply Qcinv_pos. }
  rewrite (lambda_fin A n a _ A_ratio w_nonempty normalised_pos).
  rewrite rayleigh_consistent. f_equal.
  apply (vec_of_list (λ x, x / W)).
Qed.

End Consistent.

(** When the judgments are perfectly consistent, [A[i][j] = w[i] / w[j]]
    for positive numbers [w], [solve] returns exactly the weights
    [w[i] / sum(w)], with [lambdaMax = n] and [cr = 0], and [ci = 0] for
    [n >= 2] (over exact arithmetic). *)
Theorem solve_consistent (w : list Qc) (A : matrix) :
  (1 ≤ length w)%nat → Forall (λ x, 0 < x) w →
  length A = length w →
  (∀ i j, (i < length w)%nat → (j < length w)%nat →
     rd2 A i j = Fin (qnth w i / qnth w j)) →
  weights (ahpSolve A) = map (λ x, Fin (x / qsum w)) w
  ∧ lambdaMax (ahpSolve A) = of_nat (length w)
  ∧ cr (ahpSolve A) = Fin 0
  ∧ ((2 ≤ length w)%nat → ci (ahpSolve A) = Fin 0).
Proof.
  intros Hn Hpos Hlen Hcells. unfold ahpSolve.
  rewrite (consistent_power w A Hpos Hn (conj Hlen Hcells)).
  cbn [weights lambdaMax cr ci p_weights p_lambdaMax].
  destruct (consistency_at_order A (length w) Hlen Hn) as [Hcr Hci].
  by repeat split.
Qed.

(** The judgments that the weights 3 : 2 : 1 imply. *)
Definition ratio_matrix : matrix :=
  [[lit 1 1; lit 3 2; lit 3 1]; [lit 2 3; lit 1 1; lit 2 1]; [lit 1 3; lit 1 2; lit 1 1]].

Lemma solve_consistent_witness :
  weights (ahpSolve ratio_matrix) = [lit 1 2; lit 1 3; lit 1 6]
  ∧ lambdaMax (ahpSolve ratio_matrix) = of_nat 3
  ∧ cr (ahpSolve ratio_matrix) = Fin 0.
Proof.
  destruct (solve_consistent [Q2Qc 3; Q2Qc 2; Q2Qc 1] ratio_matrix) as (H1 & H2 & H3 & _).
  - simpl. lia.
  - repeat constructor.
  - reflexivity.
  - intros i j Hi Hj. simpl in Hi, Hj.
    destruct i as [|[|[|i]]]; [| | |lia]; destruct j as [|[|[|j]]]; try lia;
      apply (bool_decide_unpack _); vm_compute; exact I.
  - split; [|by split]. rewrite H1. apply (bool_decide_unpack _). vm_compute. exact I.
Defined.

(** * Further properties of the hints *)

Lemma no_self_disagreement (x : num) : ngt (nabs (nsub x x)) (Fin 0) = false.
Proof.
  destruct x as [q| | |]; try done. simpl. rewrite Qcplus_opp_r. reflexivity.
Qed.

(** For a matrix whose indirect estimates all equal the direct judgment,
    [A[i][k] * A[k][j] = A[i][j]], [inconsistencyHints] returns the empty
    list, for every [topK] and whatever [Math.log] returns. *)
Theorem hints_consistent_empty (Math_log : num → num) (labels : list string)
    (A : matrix) (topK : Z) :
  length A = length labels →
  (∀ i j k, (i < length A)%nat → (j < length A)%nat → (k < length A)%nat →
     nmul (rd2 A i k) (rd2 A k j) = rd2 A i j) →
  inconsistencyHints Math_log labels A topK = Ok [].
Proof.
  intros Hlen Hcons. set (n := length labels) in *.
  assert (∀ i, (i < n)%nat → ∃ Ai, item A i = Ok Ai ∧ A !! i = Some Ai) as Hrow.
  { intros i Hi. destruct (lookup_lt_is_Some_2 A i ltac:(lia)) as [Ai HAi].
    exists Ai. unfold item. by rewrite HAi. }
  assert (∀ i j, (i < n)%nat → (j < n)%nat →
            witness_loop Math_log A n i j (rd2 A i j) = Ok (Fin 0, None)) as Hloop.
  { intros i j Hi Hj. unfold witness_loop.
    destruct (for_loopE_inv (λ _ st, st = (Fin 0, None)) 0 n
      (λ k '(best, bestK),
         if decide (k = i ∨ k = j) then Ok (best, bestK) else
         Ai ← item A i;
         Ak ← item A k;
         let via := nmul (rd Ai k) (rd Ak j) in
         if negb (isFinite via) || nle via (Fin 0) then Ok (best, bestK) else
         let d := nabs (nsub (Math_log (rd2 A i j)) (Math_log via)) in
         if ngt d best then Ok (d, Some k) else Ok (best, bestK))
      (Fin 0, None)) as (st & Hst & ->); [lia|done| |done].
    intros k st Hk ->. exists (Fin 0, None). split; [|done].
    destruct (decide (k = i ∨ k = j)); [done|].
    destruct (Hrow i Hi) as (Ai & -> & HAi).
    destruct (Hrow k ltac:(lia)) as (Ak & -> & HAk). simpl.
    assert (nmul (rd Ai k) (rd Ak j) = rd2 A i j) as ->.
    { rewrite <-(Hcons i j k) by lia. unfold rd2. by rewrite HAi, HAk. }
    destruct (negb (isFinite (rd2 A i j)) || nle (rd2 A i j) (Fin 0)); [done|].
    by rewrite no_self_disagreement. }
  assert (collect_issues Math_log labels A = Ok []) as Hcollect.
  { unfold collect_issues. fold n.
    destruct (for_loopE_inv (λ _ issues, issues = []) 0 n
      (λ i issues, for_loopE (i + 1) n
         (λ j issues, pair_body Math_log labels A n i j issues) issues)
      []) as (r & Hr & ->); [lia|done| |done].
    intros i issues Hi ->.
    destruct (for_loopE_inv (λ _ issues, issues = []) (i + 1) n
      (λ j issues, pair_body Math_log labels A n i j issues) [])
      as (r & Hr & ->); [lia|done| |by exists []].
    intros j issues Hj ->. exists []. split; [|done].
    unfold pair_body. destruct (Hrow i ltac:(lia)) as (Ai & -> & HAi). simpl.
    assert (rd Ai j = rd2 A i j) as -> by (unfold rd2; by rewrite HAi).
    destruct (negb (isFinite (rd2 A i j)) || nle (rd2 A i j) (Fin 0)); [done|].
    by rewrite Hloop by lia. }
  unfold inconsistencyHints. rewrite Hcollect. simpl. by rewrite slice0_nil.
Qed.

Lemma hints_consistent_empty_witness :
  inconsistencyHints coarse_log ["a"; "b"; "c"] ratio_matrix 3 = Ok [].
Proof.
  apply hints_consistent_empty; [reflexivity|].
  intros i j k Hi Hj Hk. simpl in Hi, Hj, Hk.
  destruct i as [|[|[|i]]]; [| | |lia]; destruct j as [|[|[|j]]]; try lia;
    destruct k as [|[|[|k]]]; try lia;
    apply (bool_decide_unpack _); vm_compute; exact I.
Defined.

Lemma omap_id_length (entries : list (option issue)) :
  (length (omap id entries) ≤ length entries)%nat.
Proof.
  induction entries as [|[e|] entries IH]; csimpl in *; lia.
Qed.

Lemma pairs_before_length (n i : nat) :
  (i ≤ n)%nat → (2 * length (pairs_before n i) + i * (i + 1) = 2 * i * n)%nat.
Proof.
  induction i as [|i IH]; intros Hi; [done|].
  rewrite pairs_before_S, length_app, length_map, length_seq.
  specialize (IH ltac:(lia)). nia.
Qed.

(** With a matrix of as many rows as labels and [topK >= 0],
    [inconsistencyHints] returns at most [topK] hints and at most one per
    pair of labels, and the score of every hint is finite and strictly
    positive. *)
Theorem hints_bounded_positive (Math_log : num → num) (labels : list string)
    (A : matrix) (topK : Z) :
  (∀ q, 0 < q → isFinite (Math_log (Fin q)) = true) →
  length A = length labels → (0 ≤ topK)%Z →
  ∃ hints,
    inconsistencyHints Math_log labels A topK = Ok hints
    ∧ (length hints ≤ Z.to_nat topK)%nat
    ∧ (2 * length hints ≤ length labels * (length labels - 1))%nat
    ∧ Forall (λ e, ∃ m, score e = Fin m ∧ 0 < m) hints.
Proof.
  intros Hlog Hlen Hk.
  destruct (collect_issues_spec Math_log Hlog labels A (length labels) eq_refl Hlen)
    as (entries & Hrun & Hrec).
  set (sorted := js_sort (λ a b, nsub (score b) (score a)) (omap id entries)).
  assert (sorted ≡ₚ omap id entries) as Hperm by apply (js_sort_perm score).
  assert (Forall (λ e, ∃ m, score e = Fin m ∧ 0 < m) (omap id entries)) as Hpos.
  { apply Forall_forall. intros e He.
    apply list_elem_of_omap in He as (entry & He & Heq). simpl in Heq. subst entry.
    apply list_elem_of_lookup in He as [k Hk'].
    destruct (Forall2_lookup_r _ _ _ _ _ Hrec Hk') as ([i j] & _ & Hp).
    destruct Hp as (_ & kk & m & _ & _ & Hm & _ & ->). by exists m. }
  assert (length (omap id entries) ≤ length (pairs (length labels)))%nat as Hcount.
  { rewrite (Forall2_length _ _ _ Hrec). apply omap_id_length. }
  pose proof (pairs_before_length (length labels) (length labels) ltac:(lia)) as Hpairs.
  fold (pairs (length labels)) in Hpairs.
  exists (slice0 sorted topK).
  split; [unfold inconsistencyHints; by rewrite Hrun|].
  unfold slice0. rewrite decide_False by lia.
  split; [rewrite length_take; lia|].
  split.
  - rewrite length_take, Hperm. nia.
  - apply Forall_take. by rewrite Hperm.
Qed.

Lemma hints_bounded_positive_witness :
  ∃ hints,
    inconsistencyHints coarse_log ["a"; "b"; "c"] contradictory_matrix 2 = Ok hints
    ∧ (length hints ≤ 2)%nat
    ∧ Forall (λ e, ∃ m, score e = Fin m ∧ 0 < m) hints.
Proof.
  destruct (hints_bounded_positive coarse_log ["a"; "b"; "c"] contradictory_matrix 2)
    as (hints & H1 & H2 & _ & H3).
  - done.
  - reflexivity.
  - lia.
  - by exists hints.
Defined.

(** * Further properties of [computeResults] *)

Lemma for_loopE_throw {St : Type} (lo hi k : nat) (body : nat → St → result St) (s0 : St) :
  (lo ≤ k < hi)%nat → (∀ s, body k s = Throw) → for_loopE lo hi body s0 = Throw.
Proof.
  intros [Hlo Hhi] Hbody.
  assert (for_loopE lo (S k) body s0 = Throw) as Hk.
  { rewrite for_loopE_last by done. destruct (for_loopE lo k body s0); simpl; auto. }
  assert (∀ d, for_loopE lo (S k + d) body s0 = Throw) as Hd.
  { induction d as [|d IH]; [by rewrite Nat.add_0_r|].
    replace (S k + S d)%nat with (S (S k + d)) by lia.
    rewrite for_loopE_last by lia. by rewrite IH. }
  replace hi with (S k + (hi - S k))%nat by lia. apply Hd.
Qed.

Lemma item_ok {A : Type} (l : list A) (i : nat) :
  (i < length l)%nat → ∃ a, item l i = Ok a ∧ l !! i = Some a.
Proof.
  intros Hi. destruct (lookup_lt_is_Some_2 l i Hi) as [a Ha].
  exists a. unfold item. by rewrite Ha.
Qed.

Lemma item_throw {A : Type} (l : list A) (i : nat) :
  (length l ≤ i)%nat → item l i = Throw.
Proof. intros Hi. unfold item. by rewrite lookup_ge_None_2. Qed.

Lemma final_scores_ok (crit : SolveResult) (altSolves : list SolveResult) (m n : nat) :
  (n ≤ length altSolves)%nat → ∃ scores, final_scores crit altSolves m n = Ok scores.
Proof.
  intros Hn. unfold final_scores.
  destruct (for_loopE_inv (λ _ _, True) 0 m
    (λ i scores,
       s ← for_loopE 0 n (λ j s,
              aj ← item altSolves j;
              Ok (nadd s (nmul (rd (weights crit) j) (rd (weights aj) i))))
            (Fin 0);
       Ok (<[i := s]> scores))
    (replicate m (Fin 0))) as (r & Hr & _); [lia|done| |by exists r].
  intros i scores Hi _.
  destruct (for_loopE_inv (λ _ _, True) 0 n
    (λ j s,
       aj ← item altSolves j;
       Ok (nadd s (nmul (rd (weights crit) j) (rd (weights aj) i))))
    (Fin 0)) as (s & Hs & _); [lia|done| |].
  - intros j s Hj _. destruct (item_ok altSolves j ltac:(lia)) as (aj & -> & _).
    by eexists.
  - rewrite Hs. by eexists.
Qed.

(** The map built by the [reduce] over the criteria: with enough solved
    matrices it is built; it holds no entry at [__proto__], and at every
    other name of a criterion the value of the last criterion of that
    name. *)
Lemma by_criterion_spec {V : Type} (f : SolveResult → V) (cs : list string)
    (sols : list SolveResult) :
  (length cs ≤ length sols)%nat →
  ∃ m, by_criterion f cs sols = Ok m
       ∧ (∀ c, c = "__proto__" ∨ c ∉ cs → m !! c = None)
       ∧ (∀ i c a, c ≠ "__proto__" → cs !! i = Some c → sols !! i = Some a →
            (∀ i', (i < i')%nat → cs !! i' ≠ Some c) → m !! c = Some (f a)).
Proof.
  intros Hlen. unfold by_criterion.
  destruct (for_loopE_inv
    (λ k (acc : gmap string V),
       (∀ c, c = "__proto__" ∨ (∀ i, (i < k)%nat → cs !! i ≠ Some c) → acc !! c = None)
       ∧ (∀ i c a, (i < k)%nat → c ≠ "__proto__" → cs !! i = Some c → sols !! i = Some a →
            (∀ i', (i < i' < k)%nat → cs !! i' ≠ Some c) → acc !! c = Some (f a)))
    0 (length cs)
    (λ i (acc : gmap string V),
       a ← item sols i; Ok (set_property (default "undefined" (cs !! i)) (f a) acc))
    ∅) as (m & Hm & Hnone & Hsome).
  - lia.
  - split; [intros; apply lookup_empty|intros; lia].
  - intros k acc Hk [Hnone Hsome].
    destruct (item_ok sols k ltac:(lia)) as (a & -> & Ha).
    destruct (lookup_lt_is_Some_2 cs k ltac:(lia)) as [ck Hck]. rewrite Hck. simpl.
    eexists. split; [reflexivity|]. unfold set_property.
    destruct (decide (ck = "__proto__")) as [->|Hproto].
    + split.
      * intros c [->|Hc]; apply Hnone; [by left|]. right. intros i Hi. apply Hc. lia.
      * intros i c a' Hi Hne Hci Hai Hlast.
        assert (i ≠ k) as Hik by (intros ->; by simplify_eq).
        apply (Hsome i); [lia|done..|]. intros i' Hi'. apply Hlast. lia.
    + split.
      * intros c Hc.
        rewrite lookup_insert_ne
          by (intros ->; destruct Hc as [Hc|Hc]; [done|by apply (Hc k ltac:(lia))]).
        apply Hnone. destruct Hc as [Hc|Hc]; [by left|]. right.
        intros i Hi. apply Hc. lia.
      * intros i c a' Hi Hne Hci Hai Hlast.
        destruct (decide (i = k)) as [->|Hik].
        -- simplify_eq. by rewrite lookup_insert_eq.
        -- rewrite lookup_insert_ne
             by (intros ->; by apply (Hlast k ltac:(lia))).
           apply (Hsome i); [lia|done..|]. intros i' Hi'. apply Hlast. lia.
  - exists m. split; [done|]. split.
    + intros c Hc. apply Hnone. destruct Hc as [Hc|Hc]; [by left|]. right.
      intros i _ Hi. apply Hc. apply list_elem_of_lookup. by exists i.
    + intros i c a Hne Hci Hai Hlast.
      apply (Hsome i); [by eapply lookup_lt_Some|done..|].
      intros i' Hi'. apply Hlast. lia.
Qed.

Lemma computeResults_enough (st : state) (r : results) :
  computeResults st = Ok r → (length (criteria st) ≤ length (altMatrices st))%nat.
Proof.
  intros Hr.
  destruct (decide (length (altMatrices st) < length (criteria st))%nat) as [Hlt|]; [|lia].
  exfalso. unfold computeResults in Hr.
  assert (by_criterion weights (criteria st) (map ahpSolve (altMatrices st)) = Throw) as Hby.
  { unfold by_criterion.
    apply (for_loopE_throw _ _ (length (altMatrices st))); [lia|].
    intros acc. by rewrite item_throw by (by rewrite length_map). }
  destruct (final_scores _ _ _ _); [|done]. simpl in Hr. by rewrite Hby in Hr.
Qed.

(** [computeResults] throws exactly when the state holds fewer
    alternative matrices than criteria ([altSolves[j]] is then
    [undefined]); otherwise it returns a result. *)
Theorem computeResults_throws_iff (st : state) :
  computeResults st = Throw ↔ (length (altMatrices st) < length (criteria st))%nat.
Proof.
  unfold computeResults. split.
  - intros Hthrow.
    destruct (decide (length (altMatrices st) < length (criteria st))%nat) as [|Hge];
      [done|exfalso].
    assert (length (criteria st) ≤ length (map ahpSolve (altMatrices st)))%nat as Hlen
      by (rewrite length_map; lia).
    destruct (final_scores_ok (ahpSolve (criteriaMatrix st)) _
                (length (alternatives st)) _ Hlen) as (scores & Hs).
    destruct (by_criterion_spec weights (criteria st) _ Hlen) as (bw & Hbw & _).
    destruct (by_criterion_spec cr (criteria st) _ Hlen) as (bc & Hbc & _).
    by rewrite Hs, Hbw, Hbc in Hthrow.
  - intros Hlt.
    assert (∀ V (f : SolveResult → V),
              by_criterion f (criteria st) (map ahpSolve (altMatrices st)) = Throw) as Hby.
    { intros V f. unfold by_criterion.
      apply (for_loopE_throw _ _ (length (altMatrices st))); [lia|].
      intros acc. by rewrite item_throw by (by rewrite length_map). }
    rewrite (Hby _ weights). destruct (final_scores _ _ _ _); reflexivity.
Qed.

(** The by-criterion tables of the result, as the own properties of the
    two objects: for a criterion whose name is not [__proto__] and is not
    used again later in the list, the tables hold the weights and the
    ratio of that criterion's alternative matrix; no table holds an entry
    named [__proto__]; the criteria weights and ratio are those of the
    criteria matrix. *)
Theorem computeResults_tables (st : state) (r : results) (i : nat) (c : string)
    (M : matrix) :
  computeResults st = Ok r →
  c ≠ "__proto__" →
  criteria st !! i = Some c → altMatrices st !! i = Some M →
  (∀ i', (i < i')%nat → criteria st !! i' ≠ Some c) →
  altWeightsByCriterion r !! c = Some (weights (ahpSolve M))
  ∧ altCRByCriterion r !! c = Some (cr (ahpSolve M))
  ∧ altWeightsByCriterion r !! "__proto__" = None
  ∧ altCRByCriterion r !! "__proto__" = None
  ∧ criteriaWeights r = weights (ahpSolve (criteriaMatrix st))
  ∧ criteriaCR r = cr (ahpSolve (criteriaMatrix st)).
Proof.
  intros Hr Hne Hc HM Hlast.
  assert (length (criteria st) ≤ length (map ahpSolve (altMatrices st)))%nat as Hlen.
  { rewrite length_map.
    destruct (decide (length (altMatrices st) < length (criteria st))%nat) as [Hlt|]; [|lia].
    apply computeResults_enough in Hr. lia. }
  destruct (by_criterion_spec weights (criteria st) _ Hlen) as (bw & Hbw & Hwn & Hw).
  destruct (by_criterion_spec cr (criteria st) _ Hlen) as (bc & Hbc & Hcn & Hcr).
  unfold computeResults in Hr. rewrite Hbw, Hbc in Hr.
  destruct (final_scores _ _ _ _) as [scores|]; [|done]. simpl in Hr.
  injection Hr as <-. cbn.
  assert (map ahpSolve (altMatrices st) !! i = Some (ahpSolve M)) as Hsol
    by (by rewrite list_lookup_fmap, HM).
  split; [by apply (Hw i)|]. split; [by apply (Hcr i)|].
  split; [apply Hwn; by left|]. split; [apply Hcn; by left|]. done.
Qed.

Lemma computeResults_tables_witness :
  ∃ r, computeResults example_state = Ok r
       ∧ altWeightsByCriterion r !! "time"
         = Some (weights (ahpSolve
             [[lit 1 1; lit 1 2; lit 1 1]; [lit 2 1; lit 1 1; lit 2 1];
              [lit 1 1; lit 1 2; lit 1 1]])).
Proof.
  eexists. split; [vm_compute; reflexivity|].
  refine (proj1 (computeResults_tables example_state _ 1 "time" _ _ _ _ _ _)).
  - vm_compute. reflexivity.
  - done.
  - reflexivity.
  - reflexivity.
  - intros i' Hi'. destruct i' as [|[|i']]; [lia|lia|done].
Defined.

(** ** The whole synthesis on positive matrices *)

(** A matrix of order [n] with finite positive cells. *)
Definition positive_matrix (n : nat) (A : matrix) : Prop :=
  length A = n ∧ ∀ i j, (i < n)%nat → (j < n)%nat → ∃ q, rd2 A i j = Fin q ∧ 0 < q.

(** A vector of [n] positive weights of sum 1. *)
Definition stochastic (n : nat) (v : list Qc) : Prop :=
  length v = n ∧ Forall (λ x, 0 < x) v ∧ qsum v = 1.

Lemma solve_weights_stochastic (A : matrix) (n : nat) :
  (1 ≤ n)%nat → positive_matrix n A →
  ∃ ws, weights (ahpSolve A) = map Fin ws ∧ stochastic n ws.
Proof.
  intros Hn [Hlen Hpos].
  assert (fin_matrix A n (cell A) ∧ ∀ i j, (i < n)%nat → (j < n)%nat → 0 < cell A i j)
    as [Hfin Hcell].
  { split; [split; [done|]|]; intros i j Hi Hj;
      destruct (Hpos i j Hi Hj) as (q & Hq & Hq0); unfold cell; by rewrite Hq. }
  destruct (powerIterationWeights_fin A n (cell A) maxIter_default tol_default
              Hfin ltac:(lia) Hcell) as (x & Hw & Hx & Hsum & _).
  exists (map x (seq 0 n)). unfold ahpSolve. cbn [weights]. rewrite Hw.
  split; [unfold vec; by rewrite map_map|].
  split; [by rewrite length_map, length_seq|]. split; [|by rewrite qsum_map_seq].
  apply Forall_forall. intros w (i & -> & Hi%list_elem_of_In%in_seq)%list_elem_of_fmap.
  apply Hx. lia.
Qed.

Lemma solve_all_stochastic (Ms : list matrix) (m : nat) :
  (1 ≤ m)%nat → Forall (positive_matrix m) Ms →
  ∃ wA, map weights (map ahpSolve Ms) = map (map Fin) wA
        ∧ length wA = length Ms ∧ Forall (stochastic m) wA.
Proof.
  intros Hm. induction 1 as [|M Ms HM _ IH].
  - by exists [].
  - destruct IH as (wA & Heq & Hlen & Hall).
    destruct (solve_weights_stochastic M m Hm HM) as (ws & Hws & Hst).
    exists (ws :: wA). cbn [map length]. rewrite Hws, Heq, Hlen.
    split; [done|]. split; [done|]. by constructor.
Qed.

(** The weighted sum of the alternative weights at index [i]. *)
Definition weighted (wC : list Qc) (wA : list (list Qc)) (i : nat) : Qc :=
  bigsum (λ j, qnth wC j * qnth (default [] (wA !! j)) i) (length wC).

Lemma final_scores_fin (crit : SolveResult) (altSolves : list SolveResult)
    (wC : list Qc) (wA : list (list Qc)) (m : nat) :
  weights crit = map Fin wC →
  map weights altSolves = map (map Fin) wA →
  length wA = length wC →
  Forall (λ v, length v = m) wA →
  final_scores crit altSolves m (length wC)
  = Ok (map Fin (map (weighted wC wA) (seq 0 m))).
Proof.
  intros Hcrit Halt Hlen HA. set (n := length wC).
  assert (Hrow : ∀ j, (j < n)%nat → ∃ aj v,
             item altSolves j = Ok aj ∧ wA !! j = Some v
             ∧ weights aj = map Fin v ∧ length v = m).
  { intros j Hj.
    destruct (lookup_lt_is_Some_2 wA j ltac:(lia)) as [v Hv].
    assert (length altSolves = length wA) as Hl.
    { rewrite <-(length_map weights altSolves), Halt. by rewrite length_map. }
    destruct (item_ok altSolves j ltac:(lia)) as (aj & Hitem & Haj).
    exists aj, v. split; [done|]. split; [done|]. split.
    - assert (map weights altSolves !! j = Some (weights aj)) as H1
        by (by rewrite list_lookup_fmap, Haj).
      rewrite Halt, list_lookup_fmap, Hv in H1. simpl in H1. congruence.
    - by apply (Forall_lookup_1 _ _ _ _ HA Hv). }
  unfold final_scores.
  destruct (for_loopE_inv
    (λ i scores, scores = map (λ i', Fin (weighted wC wA i')) (seq 0 i)
                          ++ replicate (m - i) (Fin 0))
    0 m
    (λ i scores,
       s ← for_loopE 0 n (λ j s,
              aj ← item altSolves j;
              Ok (nadd s (nmul (rd (weights crit) j) (rd (weights aj) i))))
            (Fin 0);
       Ok (<[i := s]> scores))
    (replicate m (Fin 0))) as (r & Hr & HP).
  - lia.
  - simpl. by rewrite Nat.sub_0_r.
  - intros i scores Hi ->.
    destruct (for_loopE_inv
      (λ j s, s = Fin (bigsum (λ j', qnth wC j' * qnth (default [] (wA !! j')) i) j))
      0 n
      (λ j s,
         aj ← item altSolves j;
         Ok (nadd s (nmul (rd (weights crit) j) (rd (weights aj) i))))
      (Fin 0)) as (s & Hs & HQ).
    + lia.
    + done.
    + intros j s Hj ->.
      destruct (Hrow j ltac:(lia)) as (aj & v & -> & Hv & Hw & Hlv).
      eexists. split; [|reflexivity]. simpl.
      rewrite Hcrit, Hw, !rd_map_Fin by (fold n; lia). simpl. by rewrite Hv.
    + eexists. split; [rewrite Hs; simpl; reflexivity|].
      rewrite HQ. apply (fill_next (λ i', Fin (weighted wC wA i'))). lia.
  - rewrite Hr. f_equal. rewrite HP, Nat.sub_diag. simpl.
    by rewrite app_nil_r, map_map.
Qed.

Lemma weighted_pos (wC : list Qc) (wA : list (list Qc)) (m i : nat) :
  (1 ≤ length wC)%nat → (i < m)%nat → length wA = length wC →
  Forall (λ x, 0 < x) wC → Forall (stochastic m) wA →
  0 < weighted wC wA i.
Proof.
  intros Hn Hi Hlen HC HA. unfold weighted. apply bigsum_pos; [done|].
  intros j Hj. apply Qcmult_pos_pos.
  - unfold qnth. destruct (lookup_lt_is_Some_2 wC j Hj) as [x Hx]. rewrite Hx.
    by apply (Forall_lookup_1 _ _ _ _ HC Hx).
  - destruct (lookup_lt_is_Some_2 wA j ltac:(lia)) as [v Hv]. rewrite Hv. simpl.
    destruct (Forall_lookup_1 _ _ _ _ HA Hv) as (Hlv & Hpos & _).
    unfold qnth. destruct (lookup_lt_is_Some_2 v i ltac:(lia)) as [x Hx]. rewrite Hx.
    by apply (Forall_lookup_1 _ _ _ _ Hpos Hx).
Qed.

Lemma weighted_sum_one (wC : list Qc) (wA : list (list Qc)) (m : nat) :
  length wA = length wC → qsum wC = 1 → Forall (stochastic m) wA →
  bigsum (weighted wC wA) m = 1.
Proof.
  intros Hlen HC HA. unfold weighted. rewrite bigsum_exchange.
  rewrite (bigsum_ext _ (qnth wC) (length wC)); [by rewrite <-qsum_bigsum|].
  intros j Hj. rewrite bigsum_scale_l.
  destruct (lookup_lt_is_Some_2 wA j ltac:(lia)) as [v Hv]. rewrite Hv. simpl.
  destruct (Forall_lookup_1 _ _ _ _ HA Hv) as (Hlv & _ & Hsv).
  rewrite <-Hlv, <-qsum_bigsum, Hsv. ring.
Qed.

(** End to end: for a state with at least one criterion and one
    alternative whose criteria matrix and alternative matrices (one per
    criterion) have finite positive cells, [computeResults] returns; the
    final scores are one strictly positive number per alternative, they
    sum to 1, and the ranking lists the alternatives by descending
    score. *)
Theorem computeResults_positive (st : state) :
  (1 ≤ length (criteria st))%nat → (1 ≤ length (alternatives st))%nat →
  positive_matrix (length (criteria st)) (criteriaMatrix st) →
  length (altMatrices st) = length (criteria st) →
  Forall (positive_matrix (length (alternatives st))) (altMatrices st) →
  ∃ (r : results) (ss : list Qc),
    computeResults st = Ok r
    ∧ finalScores r = map Fin ss
    ∧ length ss = length (alternatives st)
    ∧ Forall (λ s, 0 < s) ss
    ∧ qsum ss = 1
    ∧ ranking r ≡ₚ zip_with mkRanked (alternatives st) (finalScores r)
    ∧ StronglySorted (λ a b, nle (r_score b) (r_score a) = true) (ranking r).
Proof.
  intros Hn Hm HC Hlen HA.
  set (n := length (criteria st)) in *. set (m := length (alternatives st)) in *.
  destruct (solve_weights_stochastic _ n Hn HC) as (wC & HwC & HlC & HpC & HsC).
  destruct (solve_all_stochastic _ m Hm HA) as (wA & HwA & HlA & HstA).
  assert (length wA = length wC) as Hl by lia.
  pose proof (final_scores_fin (ahpSolve (criteriaMatrix st))
                (map ahpSolve (altMatrices st)) wC wA m HwC HwA Hl) as Hfs.
  rewrite HlC in Hfs. specialize (Hfs ltac:(eapply Forall_impl; [exact HstA|];
                                            by intros v [? _])).
  assert (n ≤ length (map ahpSolve (altMatrices st)))%nat as Hen
    by (rewrite length_map; lia).
  destruct (by_criterion_spec weights (criteria st) _ Hen) as (bw & Hbw & _).
  destruct (by_criterion_spec cr (criteria st) _ Hen) as (bc & Hbc & _).
  set (ss := map (weighted wC wA) (seq 0 m)).
  eexists _, ss. unfold computeResults. fold n m. rewrite Hfs, Hbw, Hbc.
  split; [reflexivity|]. cbn [finalScores ranking]. fold ss.
  assert (length (map Fin ss) = length (alternatives st)) as Hls
    by (unfold ss; by rewrite !length_map, length_seq).
  split; [done|]. split; [unfold ss; by rewrite length_map, length_seq|].
  split.
  { apply Forall_forall. intros s (i & -> & Hi%list_elem_of_In%in_seq)%list_elem_of_fmap.
    apply (weighted_pos wC wA m); [lia|lia|done|done|done]. }
  split; [unfold ss; rewrite qsum_map_seq; by apply weighted_sum_one|].
  unfold rank. rewrite imap_ranked_zip by done.
  split; [apply (js_sort_perm r_score)|].
  apply (js_sort_sorted r_score). apply Forall_forall. intros x Hx.
  apply list_elem_of_lookup in Hx as [i Hx].
  apply lookup_zip_with_Some in Hx as (a & s & -> & _ & Hs). simpl.
  rewrite list_lookup_fmap in Hs. by destruct (ss !! i); simplify_eq/=.
Qed.

Lemma computeResults_positive_witness :
  ∃ (r : results) (ss : list Qc),
    computeResults example_state = Ok r
    ∧ finalScores r = map Fin ss
    ∧ qsum ss = 1
    ∧ StronglySorted (λ a b, nle (r_score b) (r_score a) = true) (ranking r).
Proof.
  destruct (computeResults_positive example_state)
    as (r & ss & H1 & H2 & _ & _ & H3 & _ & H4).
  - simpl. lia.
  - simpl. lia.
  - split; [reflexivity|]. intros i j Hi Hj. simpl in Hi, Hj.
    destruct i as [|[|i]]; [| |lia]; destruct j as [|[|j]]; try lia;
      (eexists; split; [reflexivity|reflexivity]).
  - reflexivity.
  - repeat constructor; intros i j Hi Hj; simpl in Hi, Hj;
      (destruct i as [|[|[|i]]]; [| | |lia]; destruct j as [|[|[|j]]]; try lia;
       (eexists; split; [reflexivity|reflexivity])).
  - by exists r, ss.
Defined.

(** * [escapeHtml] *)

(** [s.replaceAll(c, r)] where the pattern [c] is one character, as in the
    four calls of [escapeHtml].  A string is its sequence of bytes: the
    four patterns are ASCII, and an ASCII byte never lies inside the
    encoding of another character. *)
Fixpoint replaceAll (c : ascii) (r : string) (s : string) : string :=
  match s with
  | EmptyString => EmptyString
  | String x s' =>
      if decide (x = c) then r +:+ replaceAll c r s' else String x (replaceAll c r s')
  end.

(** The double quote. *)
Definition dquote : ascii := "034"%char.

Definition escapeHtml (s : string) : string :=
  replaceAll dquote "&quot;"
    (replaceAll ">" "&gt;" (replaceAll "<" "&lt;" (replaceAll "&" "&amp;" s))).

(** What one character becomes when the four replacements are read as a
    single substitution. *)
Definition escape_char (x : ascii) : string :=
  if decide (x = "&"%char) then "&amp;"
  else if decide (x = "<"%char) then "&lt;"
  else if decide (x = ">"%char) then "&gt;"
  else if decide (x = dquote) then "&quot;"
  else String x EmptyString.

Fixpoint escape_each (s : string) : string :=
  match s with
  | EmptyString => EmptyString
  | String x s' => escape_char x +:+ escape_each s'
  end.

(** [c] occurs in [s]. *)
Fixpoint occurs (c : ascii) (s : string) : bool :=
  match s with
  | EmptyString => false
  | String x s' => bool_decide (x = c) || occurs c s'
  end.

Lemma append_cons (x : ascii) (s1 s2 : string) :
  String x s1 +:+ s2 = String x (s1 +:+ s2).
Proof. reflexivity. Qed.

Lemma append_nil (s : string) : EmptyString +:+ s = s.
Proof. reflexivity. Qed.

Lemma string_app_assoc (s1 s2 s3 : string) : (s1 +:+ s2) +:+ s3 = s1 +:+ (s2 +:+ s3).
Proof.
  induction s1 as [|x s1 IH]; [done|]. rewrite !append_cons. f_equal. apply IH.
Qed.

Lemma replaceAll_app (c : ascii) (r s1 s2 : string) :
  replaceAll c r (s1 +:+ s2) = replaceAll c r s1 +:+ replaceAll c r s2.
Proof.
  induction s1 as [|x s1 IH]; [done|]. rewrite append_cons. cbn [replaceAll].
  destruct (decide (x = c)); rewrite IH; [|done].
  by rewrite string_app_assoc.
Qed.

Lemma escapeHtml_cons (x : ascii) (s : string) :
  escapeHtml (String x s) = escape_char x +:+ escapeHtml s.
Proof.
  unfold escapeHtml, escape_char. cbn [replaceAll].
  destruct (decide (x = "&"%char)) as [->|H1].
  { by rewrite !replaceAll_app. }
  cbn [replaceAll]. destruct (decide (x = "<"%char)) as [->|H2].
  { by rewrite !replaceAll_app. }
  cbn [replaceAll]. destruct (decide (x = ">"%char)) as [->|H3].
  { by rewrite !replaceAll_app. }
  cbn [replaceAll]. by destruct (decide (x = dquote)) as [->|H4].
Qed.

Lemma escape_each_app (s1 s2 : string) :
  escape_each (s1 +:+ s2) = escape_each s1 +:+ escape_each s2.
Proof.
  induction s1 as [|x s1 IH]; [done|]. rewrite append_cons. cbn [escape_each].
  by rewrite IH, string_app_assoc.
Qed.

Lemma escapeHtml_each (s : string) : escapeHtml s = escape_each s.
Proof.
  induction s as [|x s IH]; [done|]. by rewrite escapeHtml_cons, IH.
Qed.

(** The four replacements act as one substitution, character by
    character: an ampersand written by a later replacement is never
    escaped again, and [escapeHtml] distributes over concatenation. *)
Theorem escapeHtml_substitution (s t : string) :
  escapeHtml s = escape_each s
  ∧ escapeHtml (s +:+ t) = escapeHtml s +:+ escapeHtml t.
Proof.
  split; [apply escapeHtml_each|].
  by rewrite !escapeHtml_each, escape_each_app.
Qed.

(** A string without [&], [<], [>] and the double quote is returned as it
    is. *)
Theorem escapeHtml_plain (s : string) :
  occurs "&" s = false → occurs "<" s = false → occurs ">" s = false →
  occurs dquote s = false → escapeHtml s = s.
Proof.
  rewrite escapeHtml_each. induction s as [|x s IH]; [done|]. cbn [occurs escape_each].
  intros [H1 H1']%orb_false_elim [H2 H2']%orb_false_elim
    [H3 H3']%orb_false_elim [H4 H4']%orb_false_elim.
  apply bool_decide_eq_false in H1, H2, H3, H4.
  unfold escape_char. rewrite !decide_False by done.
  rewrite append_cons, append_nil. by rewrite IH.
Qed.

Lemma escapeHtml_plain_witness : escapeHtml "Price 1" = "Price 1".
Proof. apply escapeHtml_plain; reflexivity. Defined.

Lemma occurs_app (c : ascii) (s1 s2 : string) :
  occurs c (s1 +:+ s2) = occurs c s1 || occurs c s2.
Proof.
  induction s1 as [|x s1 IH]; [done|]. rewrite append_cons. cbn [occurs].
  by rewrite IH, orb_assoc.
Qed.

(** The result of [escapeHtml] holds no [<], no [>] and no double quote,
    whatever the input. *)
Theorem escapeHtml_safe (s : string) :
  occurs "<" (escapeHtml s) = false
  ∧ occurs ">" (escapeHtml s) = false
  ∧ occurs dquote (escapeHtml s) = false.
Proof.
  rewrite escapeHtml_each. induction s as [|x s (IH1 & IH2 & IH3)]; [done|].
  cbn [escape_each]. rewrite !occurs_app, IH1, IH2, IH3, !orb_false_r.
  unfold escape_char.
  destruct (decide (x = "&"%char)); [done|].
  destruct (decide (x = "<"%char)); [done|].
  destruct (decide (x = ">"%char)); [done|].
  destruct (decide (x = dquote)); [done|].
  cbn [occurs]. rewrite !orb_false_r. by rewrite !bool_decide_eq_false_2.
Qed.

(** [escapeHtml] is injective: two different texts are never displayed as
    the same markup. *)
Theorem escapeHtml_injective (s t : string) : escapeHtml s = escapeHtml t → s = t.
Proof.
  rewrite !escapeHtml_each. revert t.
  induction s as [|x s IH]; intros [|y t] H; cbn [escape_each] in H.
  - done.
  - exfalso. unfold escape_char in H.
    repeat case_decide; rewrite ?append_cons, ?append_nil in H; done.
  - exfalso. unfold escape_char in H.
    repeat case_decide; rewrite ?append_cons, ?append_nil in H; done.
  - unfold escape_char in H.
    repeat case_decide; rewrite ?append_cons, ?append_nil in H;
      simplify_eq; try done; f_equal; by apply IH.
Qed.

Lemma escapeHtml_injective_witness :
  escapeHtml "a<b" = escapeHtml "a<b" ∧ "a<b" = "a<b".
Proof. split; [reflexivity|]. apply escapeHtml_injective. reflexivity. Defined.

Example escapeHtml_markup :
  escapeHtml "a<b & c>d" = "a&lt;b &amp; c&gt;d".
Proof. reflexivity. Qed.

(** * [loadState] on every input *)

(** [initMatrices] assigns the two matrix fields and no other. *)
Lemma initMatrices_other (f f' : gmap string json) (k : string) :
  initMatrices f = Ok f' → k ≠ "criteriaMatrix" → k ≠ "altMatrices" → f' !! k = f !! k.
Proof.
  unfold initMatrices. intros H Hk1 Hk2.
  destruct (length_of (f !! "criteria")); simpl in H; [|done].
  destruct (_ !! "criteria") as [[]|]; simpl in H; try done.
  destruct (length_of _); simpl in H; [|done].
  injection H as <-. by rewrite !lookup_insert_ne by done.
Qed.

Lemma init_if_other (c : bool) (f f' : gmap string json) (k : string) :
  init_if c f = Ok f' → k ≠ "criteriaMatrix" → k ≠ "altMatrices" → f' !! k = f !! k.
Proof.
  destruct c; simpl; [apply initMatrices_other|]. by intros [= ->].
Qed.

(** The active index is a number that is 0, or neither below 0 nor at
    least [nc]. *)
Definition index_ok (f : gmap string json) (nc : nat) : Prop :=
  ∃ x, f !! "activeCritIdx" = Some (JNum x)
       ∧ (x = Fin 0 ∨ (nlt x (Fin 0) = false ∧ nle (of_nat nc) x = false)).

Lemma zero_if_true (f : gmap string json) :
  zero_if true f !! "activeCritIdx" = Some (JNum (Fin 0)).
Proof. simpl. by rewrite lookup_insert_eq. Qed.

(** The three tests of [st.activeCritIdx]. *)
Lemma active_index_checked (f : gmap string json) (nc : nat) :
  let f2 := zero_if (negb (is_number (f !! "activeCritIdx"))) f in
  let f3 := zero_if (nlt (num_of (f2 !! "activeCritIdx")) (Fin 0)) f2 in
  index_ok (zero_if (nle (of_nat nc) (num_of (f3 !! "activeCritIdx"))) f3) nc.
Proof.
  intros f2 f3.
  assert (∃ x, f2 !! "activeCritIdx" = Some (JNum x)) as [x Hx].
  { unfold f2. destruct (f !! "activeCritIdx") as [[| |x| | |]|] eqn:E; simpl;
      rewrite ?lookup_insert_eq; eauto. }
  assert (∃ y, f3 !! "activeCritIdx" = Some (JNum y) ∧ nlt y (Fin 0) = false) as (y & Hy & Hlt).
  { unfold f3. rewrite Hx. simpl. destruct (nlt x (Fin 0)) eqn:Hlt.
    - exists (Fin 0). by rewrite zero_if_true.
    - by exists x. }
  rewrite Hy. simpl. destruct (nle (of_nat nc) y) eqn:Hle.
  - exists (Fin 0). rewrite zero_if_true. split; [done|by left].
  - exists y. split; [done|by right].
Qed.

Lemma loadState_try_index (f f' : gmap string json) (cs : list json) :
  f !! "criteria" = Some (JArr cs) →
  loadState_try (JObj f) = Ok (Some (JObj f')) →
  index_ok f' (length cs).
Proof.
  intros Hc H. unfold loadState_try in H. simpl in H.
  destruct (_ || _) in H; [done|].
  destruct (init_if _ f) as [f1|] eqn:E1; simpl in H; [|done].
  pose proof (active_index_checked f1 (length cs)) as Hi. cbv zeta in Hi.
  set (f2 := zero_if _ f1) in *.
  set (f3 := zero_if _ f2) in *.
  assert (f3 !! "criteria" = Some (JArr cs)) as Hc3.
  { unfold f3, f2. rewrite !zero_if_lookup by done.
    by rewrite (init_if_other _ _ _ _ E1). }
  rewrite Hc3 in H. simpl in H.
  set (f4 := zero_if _ f3) in *. clearbody f4.
  destruct (length_of (f4 !! "criteriaMatrix")); simpl in H; [|done].
  destruct (length_of (f4 !! "criteria")); simpl in H; [|done].
  destruct (init_if _ f4) as [f5|] eqn:E5; simpl in H; [|done].
  destruct (length_of (f5 !! "altMatrices")); simpl in H; [|done].
  destruct (length_of (f5 !! "criteria")); simpl in H; [|done].
  destruct (init_if _ f5) as [f6|] eqn:E6; simpl in H; [|done].
  destruct (f6 !! "altMatrices") as [[]|]; simpl in H; try done.
  destruct (length_of (f6 !! "alternatives")); simpl in H; [|done].
  destruct (init_if _ f6) as [f7|] eqn:E7; simpl in H; [|done].
  injection H as <-.
  unfold index_ok.
  rewrite (init_if_other _ _ _ _ E7), (init_if_other _ _ _ _ E6),
    (init_if_other _ _ _ _ E5) by done.
  exact Hi.
Qed.

(** A state that every page can use: an object with a truthy [problem],
    two label arrays, matrices with the row counts of the labels and an
    active index in range. *)
Definition wellformed (v : json) : Prop :=
  ∃ f cs alts,
    v = JObj f
    ∧ truthy (f !! "problem") = true
    ∧ f !! "criteria" = Some (JArr cs) ∧ f !! "alternatives" = Some (JArr alts)
    ∧ row_counts_ok f cs alts
    ∧ index_ok f (length cs).

Lemma defaultState_wellformed : wellformed defaultState.
Proof.
  destruct defaultState_row_counts as (f & cs & alts & Hd & Hc & Ha & Hr).
  exists f, cs, alts. split; [done|].
  assert (defaultState = JObj f) as Hd' by done.
  vm_compute in Hd'. injection Hd' as <-.
  split; [reflexivity|]. split; [done|]. split; [done|]. split; [done|].
  exists (Fin 0). split; [reflexivity|by left].
Qed.

(** The [try] block throws, falls back to the default state, or returns a
    well-formed state. *)
Lemma loadState_try_cases (v : json) :
  loadState_try v = Throw ∨ loadState_try v = Ok None
  ∨ ∃ v', loadState_try v = Ok (Some v') ∧ wellformed v'.
Proof.
  destruct v as [| | | | |f]; try (right; left; reflexivity); [by left|].
  destruct (truthy (f !! "problem")) eqn:Hp; cycle 1.
  { right; left. unfold loadState_try. simpl. by rewrite Hp. }
  destruct (f !! "criteria") as [[| | | |cs|]|] eqn:Hc;
    try (right; left; unfold loadState_try; simpl; rewrite Hp, Hc; reflexivity).
  destruct (f !! "alternatives") as [[| | | |alts|]|] eqn:Ha;
    try (right; left; unfold loadState_try; simpl; rewrite Hp, Hc, Ha; reflexivity).
  right; right.
  destruct (loadState_try_spec f cs alts Hp Hc Ha) as (f' & E & (H1 & H2 & H3) & H4 & _).
  exists (JObj f'). split; [done|]. exists f', cs, alts.
  split; [done|]. split; [by rewrite H3|]. split; [done|]. split; [done|].
  split; [done|]. by apply (loadState_try_index f).
Qed.

(** Whatever the storage holds and whatever [JSON.parse] does with it,
    [loadState] returns a well-formed state: an object with a truthy
    [problem], array-valued [criteria] and [alternatives], a criteria
    matrix of |criteria| rows, |criteria| alternative matrices of
    |alternatives| rows each, and a number as [activeCritIdx] that is 0 or
    neither below 0 nor at least |criteria|.  No exception leaves it. *)
Theorem loadState_wellformed (JSON_parse : string → result json) (stored : option string) :
  ∃ f cs alts,
    loadState JSON_parse stored = JObj f
    ∧ truthy (f !! "problem") = true
    ∧ f !! "criteria" = Some (JArr cs) ∧ f !! "alternatives" = Some (JArr alts)
    ∧ row_counts_ok f cs alts
    ∧ ∃ x, f !! "activeCritIdx" = Some (JNum x)
           ∧ (x = Fin 0 ∨ (nlt x (Fin 0) = false ∧ nle (of_nat (length cs)) x = false)).
Proof.
  change (wellformed (loadState JSON_parse stored)).
  unfold loadState. destruct stored as [raw|]; [|apply defaultState_wellformed].
  case_bool_decide; [apply defaultState_wellformed|].
  destruct (JSON_parse raw) as [v|]; simpl; [|apply defaultState_wellformed].
  destruct (loadState_try_cases v) as [->| [->|(v' & -> & Hv)]];
    [apply defaultState_wellformed..|exact Hv].
Qed.

(** A parsed value that the first test of [loadState] turns down. *)
Definition unusable (v : json) : Prop :=
  match v with
  | JObj f =>
      truthy (f !! "problem") = false
      ∨ isArray (f !! "criteria") = false
      ∨ isArray (f !! "alternatives") = false
  | _ => True
  end.

(** [loadState] falls back to the default state when the storage holds
    nothing or the empty text, when [JSON.parse] throws, and when the
    parsed value is [null] (reading [st.problem] throws), is no object, or
    is an object whose [problem] is falsy or whose [criteria] or
    [alternatives] is no array. *)
Theorem loadState_fallback (JSON_parse : string → result json) (stored : option string) :
  stored = None ∨ stored = Some ""
  ∨ (∃ raw, stored = Some raw
       ∧ (JSON_parse raw = Throw ∨ ∃ v, JSON_parse raw = Ok v ∧ unusable v)) →
  loadState JSON_parse stored = defaultState.
Proof.
  intros [->| [->|(raw & -> & H)]]; [done..|].
  unfold loadState. case_bool_decide; [done|].
  destruct H as [->|(v & -> & Hv)]; [done|]. simpl.
  destruct v as [| | | | |f]; try done.
  unfold loadState_try. simpl.
  destruct Hv as [->| [Hv|Hv]]; [done| |].
  - by rewrite Hv, orb_true_r.
  - by rewrite Hv, orb_true_r.
Qed.

Lemma loadState_fallback_witness :
  loadState (λ _, Ok (JArr [JNum (Fin 1); JNum (Fin 2)])) (Some "[1,2]") = defaultState.
Proof.
  apply loadState_fallback. right; right. exists "[1,2]". split; [reflexivity|].
  right. eexists. split; [reflexivity|exact I].
Defined.

Lemma has_rows_not_bad (na : nat) (ms : list json) :
  Forall (has_rows na) ms → existsb (bad_alt_matrix na) ms = false.
Proof.
  induction 1 as [|m ms (rows & -> & Hm) _ IH]; [done|]. simpl.
  rewrite IH, orb_false_r. apply bool_decide_eq_false. by intros ?.
Qed.

(** The [try] block returns a well-formed state as it is. *)
Lemma loadState_try_accepts (st : json) :
  wellformed st → loadState_try st = Ok (Some st).
Proof.
  intros (f & cs & alts & -> & Hp & Hc & Ha & (M & Ms & HM & HlM & HMs & HlMs & Hrows)
          & (x & Hx & Hi)).
  unfold loadState_try. simpl. rewrite Hp, Hc, Ha, HM, HMs. simpl.
  set (f2 := zero_if _ f).
  assert (f2 = f) as ->.
  { change (zero_if (negb (is_number (f !! "activeCritIdx"))) f = f). by rewrite Hx. }
  set (f3 := zero_if _ f).
  assert (f3 = f) as ->.
  { change (zero_if (nlt (num_of (f !! "activeCritIdx")) (Fin 0)) f = f).
    rewrite Hx. change (num_of (Some (JNum x))) with x.
    destruct Hi as [->|[-> _]]; done. }
  rewrite Hc. simpl.
  set (f4 := zero_if _ f).
  assert (f4 = f) as ->.
  { change (zero_if (nle (of_nat (length cs)) (num_of (f !! "activeCritIdx"))) f = f).
    rewrite Hx. change (num_of (Some (JNum x))) with x.
    destruct Hi as [->|[_ ->]]; [|done].
    clear f4. destruct (nle _ _); simpl; [|done]. by apply insert_id. }
  rewrite HM, Hc. simpl. rewrite bool_decide_eq_false_2 by (by intros ?). simpl.
  rewrite HMs, Hc. simpl. rewrite bool_decide_eq_false_2 by (by intros ?). simpl.
  rewrite HMs, Ha. simpl. by rewrite has_rows_not_bad.
Qed.

(** A stored well-formed state is returned exactly as [JSON.parse] gives
    it: none of the resets of [loadState] applies, so the matrices, the
    labels and the active index are kept. *)
Theorem loadState_accepts (JSON_parse : string → result json) (raw : string) (st : json) :
  raw ≠ "" → JSON_parse raw = Ok st → wellformed st →
  loadState JSON_parse (Some raw) = st.
Proof.
  intros Hraw Hparse Hst. unfold loadState.
  rewrite bool_decide_eq_false_2 by done. rewrite Hparse. simpl.
  by rewrite loadState_try_accepts.
Qed.

(** A state saved after two judgments were entered and the second
    criterion was selected. *)
Definition saved_fields : gmap string json :=
  <["problem" := JObj (<["name" := JStr "Logistics"]> (<["goal" := JStr "Pick"]> ∅))]>
  (<["criteria" := json_strings ["cost"; "time"]]>
  (<["alternatives" := json_strings ["A"; "B"]]>
  (<["criteriaMatrix" := json_of_matrix [[lit 1 1; lit 3 1]; [lit 1 3; lit 1 1]]]>
  (<["altMatrices" := JArr [json_of_matrix (identityMatrix 2);
                            json_of_matrix [[lit 1 1; lit 1 5]; [lit 5 1; lit 1 1]]]]>
  (<["activeCritIdx" := JNum (lit 1 1)]> ∅))))).

Lemma saved_fields_wellformed : wellformed (JObj saved_fields).
Proof.
  exists saved_fields, (map JStr ["cost"; "time"]), (map JStr ["A"; "B"]).
  split; [reflexivity|]. split; [reflexivity|]. split; [reflexivity|].
  split; [reflexivity|]. split.
  - eexists _, _. split; [reflexivity|]. split; [reflexivity|].
    split; [reflexivity|]. split; [reflexivity|].
    repeat constructor; (eexists; split; [reflexivity|reflexivity]).
  - exists (lit 1 1). split; [reflexivity|]. right. split; vm_compute; reflexivity.
Qed.

Lemma loadState_accepts_witness :
  loadState (λ _, Ok (JObj saved_fields)) (Some "{...}") = JObj saved_fields.
Proof.
  apply loadState_accepts; [done|reflexivity|]. apply saved_fields_wellformed.
Defined.

Section Persist.

(** [JSON.stringify], a function of the host. *)
Variable JSON_stringify : json → string.

(** [saveState(st)]: what [localStorage.getItem(STORAGE_KEY)] returns after
    the call. *)
Definition saveState (st : json) : option string := Some (JSON_stringify st).

End Persist.

(** Saving what [loadState] returned and loading again gives the same
    state, provided [JSON.parse] reads back the text that
    [JSON.stringify] wrote for it: [loadState] normalises once. *)
Theorem saveState_loadState (JSON_parse : string → result json)
    (JSON_stringify : json → string) (stored : option string) :
  JSON_stringify (loadState JSON_parse stored) ≠ "" →
  JSON_parse (JSON_stringify (loadState JSON_parse stored))
    = Ok (loadState JSON_parse stored) →
  loadState JSON_parse (saveState JSON_stringify (loadState JSON_parse stored))
    = loadState JSON_parse stored.
Proof.
  intros Hne Hparse. unfold saveState.
  assert (wellformed (loadState JSON_parse stored)) as Hw.
  { unfold loadState. destruct stored as [raw|]; [|apply defaultState_wellformed].
    case_bool_decide; [apply defaultState_wellformed|].
    destruct (JSON_parse raw) as [v|]; simpl; [|apply defaultState_wellformed].
    destruct (loadState_try_cases v) as [->| [->|(v' & -> & Hv)]];
      [apply defaultState_wellformed..|exact Hv]. }
  set (st := loadState JSON_parse stored) in *. clearbody st.
  unfold loadState. rewrite bool_decide_eq_false_2 by done. rewrite Hparse. simpl.
  by rewrite loadState_try_accepts.
Qed.

Lemma saveState_loadState_witness :
  loadState (λ _, Ok defaultState) (saveState (λ _, "{...}") (loadState (λ _, Ok defaultState) None))
  = loadState (λ _, Ok defaultState) None.
Proof.
  apply (saveState_loadState (λ _, Ok defaultState) (λ _, "{...}") None).
  - done.
  - reflexivity.
Defined.

(** * The judgment sliders *)

(** [Math.min] of two numbers: [NaN] as soon as one of them is. *)
Definition nmin (a b : num) : num :=
  match a, b with
  | NaN, _ | _, NaN => NaN
  | _, _ => if nlt b a then b else a
  end.

(** [Math.round]: the nearest integer, a half rounded up. *)
Definition nround (a : num) : num :=
  match a with
  | Fin x => Fin (Qc_of_Z (Qfloor (x + (1 # 2))))
  | _ => a
  end.

Global Arguments nmin !_ !_ / : assert.
Global Arguments nround !_ / : assert.

(** The position at which [pairwiseUI] draws the slider of the cell
    [aij = A[i][j]]. *)
Definition slider_value (aij : num) : num :=
  let v := aij in
  let v := if nlt v (Fin 1) then ndiv (Fin 1) v else v in
  nmin (lit 9 1) (nmax (Fin 1) (nround v)).

(** [preferRight] as [bindPairwiseHandlers] initialises it for the cell
    [aij]. *)
Definition prefer_right (aij : num) : bool := nlt aij (Fin 1).

(** The value that [commit] hands to [setPairwise] for the slider
    position [raw]. *)
Definition commit_value (preferRight : bool) (raw : num) : num :=
  if preferRight then ndiv (Fin 1) raw else raw.

Lemma lit_integer (z : Z) : lit z 1 = Fin (Qc_of_Z z).
Proof. unfold lit. f_equal. apply Qc_is_canon. simpl. apply Qred_correct. Qed.

(** [Math.min(9, Math.max(1, z))] for an integer [z]. *)
Lemma clamp_integer (z : Z) :
  nmin (lit 9 1) (nmax (Fin 1) (Fin (Qc_of_Z z))) = Fin (Qc_of_Z (Z.min 9 (Z.max 1 z))).
Proof.
  replace (Fin 1) with (Fin (Qc_of_Z 1)) by (by rewrite Z2Qc_inj_1).
  rewrite lit_integer.
  cbn [nmax nmin nlt]. rewrite <- !(bool_decide_ext _ _ (Z2Qc_inj_lt _ _)).
  case_bool_decide; cbn [nmax nmin nlt];
    rewrite <- (bool_decide_ext _ _ (Z2Qc_inj_lt _ _));
    case_bool_decide; do 2 f_equal; lia.
Qed.

(** The slider never leaves its range: for every cell that is not [NaN]
    (zero, negative and infinite ones included) [pairwiseUI] draws the
    slider at one of the positions 1 to 9. *)
Theorem slider_value_range (aij : num) :
  aij ≠ NaN → ∃ k : nat, (1 ≤ k ≤ 9)%nat ∧ slider_value aij = of_nat k.
Proof.
  intros Hnan.
  assert (∀ z : Z, ∃ k : nat, (1 ≤ k ≤ 9)%nat
            ∧ nmin (lit 9 1) (nmax (Fin 1) (Fin (Qc_of_Z z))) = of_nat k) as Hint.
  { intros z. exists (Z.to_nat (Z.min 9 (Z.max 1 z))). split; [lia|].
    rewrite clamp_integer. unfold of_nat. do 2 f_equal. lia. }
  unfold slider_value. destruct aij as [q| | |]; [| | |done].
  - simpl. case_bool_decide as Hlt; [|apply Hint].
    simpl. destruct (decide (q = 0)) as [->|Hq]; [|apply Hint].
    exists 9%nat. split; [lia|]. apply (bool_decide_unpack _). vm_compute. exact I.
  - exists 9%nat. split; [lia|]. apply (bool_decide_unpack _). vm_compute. exact I.
  - exists 1%nat. split; [lia|]. apply (bool_decide_unpack _). vm_compute. exact I.
Qed.

Lemma slider_value_range_witness :
  ∃ k : nat, (1 ≤ k ≤ 9)%nat ∧ slider_value (lit 1 7) = of_nat k.
Proof. apply slider_value_range. done. Defined.

(** A judgment entered with the slider is shown again as it was entered:
    after [commit] has stored the value for position [k] and a direction,
    [pairwiseUI] draws the slider at [k] and [bindPairwiseHandlers]
    restores the direction, except that at position 1 (equal importance)
    the direction is always the left one. *)
Theorem slider_round_trip (k : nat) (preferRight : bool) :
  (1 ≤ k ≤ 9)%nat →
  slider_value (commit_value preferRight (of_nat k)) = of_nat k
  ∧ prefer_right (commit_value preferRight (of_nat k))
    = preferRight && bool_decide (k ≠ 1%nat).
Proof.
  intros Hk.
  assert (k ∈ seq 1 9) as Hin by (apply elem_of_seq; lia).
  destruct preferRight; repeat (apply elem_of_cons in Hin as [->|Hin]);
    try (by apply elem_of_nil in Hin);
    (split; [apply (bool_decide_unpack _); vm_compute; exact I|vm_compute; reflexivity]).
Qed.

Lemma slider_round_trip_witness :
  slider_value (commit_value true (of_nat 5)) = of_nat 5
  ∧ prefer_right (commit_value true (of_nat 5)) = true.
Proof. apply (slider_round_trip 5 true). lia. Defined.

Lemma Qc_inv_lt_one (q : Qc) : 0 < q → 1 / q < 1 ↔ 1 < q.
Proof.
  intros Hq. rewrite (Qcmult_lt_mono_pos_r (1 / q) 1 q Hq).
  replace (1 / q * q) with 1 by (field; by apply Qc_pos_ne).
  by rewrite Qcmult_1_l.
Qed.

(** The two cells of a pair show the same slider position: for a finite
    positive [q] the position drawn for [1 / q] is that drawn for [q]. *)
Theorem slider_value_reciprocal (q : Qc) :
  0 < q → slider_value (ndiv (Fin 1) (Fin q)) = slider_value (Fin q).
Proof.
  intros Hq. assert (q ≠ 0) as Hq0 by (by apply Qc_pos_ne).
  rewrite ndiv_fin by done. unfold slider_value. cbn [nlt].
  rewrite (bool_decide_ext _ _ (Qc_inv_lt_one q Hq)).
  destruct (decide (q < 1)) as [Hlt|Hge], (decide (1 < q)) as [Hgt|Hle].
  - exfalso. apply (Qclt_not_eq 1 1); [|done]. by apply Qclt_trans with q.
  - rewrite (bool_decide_eq_false_2 _ Hle), (bool_decide_eq_true_2 _ Hlt).
    by rewrite ndiv_fin by done.
  - rewrite (bool_decide_eq_true_2 _ Hgt), (bool_decide_eq_false_2 _ Hge).
    assert (1 / q ≠ 0) as Hinv.
    { apply Qc_pos_ne. apply (Qcmult_lt_mono_pos_r _ _ q Hq).
      replace (1 / q * q) with 1 by (by field). by rewrite Qcmult_0_l. }
    rewrite ndiv_fin by done. replace (1 / (1 / q)) with q by (by field). done.
  - assert (q = 1) as ->; [|done].
    apply Qcle_antisym; by apply Qcnot_lt_le.
Qed.

Lemma slider_value_reciprocal_witness :
  slider_value (ndiv (Fin 1) (lit 7 1)) = slider_value (lit 7 1).
Proof. apply (slider_value_reciprocal (Q2Qc (7 # 1))). done. Defined.

(** * The heat map colours *)

(** [clamp(x, a, b)]. *)
Definition clamp (x a b : num) : num := nmax a (nmin b x).

(** [lerp(a, b, t)]. *)
Definition lerp (a b t : num) : num := nadd a (nmul (nsub b a) t).

Definition mixColor (c1 c2 : list num) (t : num) : list num :=
  [ nround (lerp (rd c1 0) (rd c2 0) t);
    nround (lerp (rd c1 1) (rd c2 1) t);
    nround (lerp (rd c1 2) (rd c2 2) t) ].

Definition blue : list num := [lit 29 1; lit 78 1; lit 216 1].
Definition white : list num := [lit 255 1; lit 255 1; lit 255 1].
Definition red : list num := [lit 220 1; lit 38 1; lit 38 1].

(** The colour that [drawMatrixHeatmap] fills the cell of the value [v]
    with, where [maxAbs] is the scale found by its first loop nest. *)
Definition cell_colour (Math_log : num → num) (maxAbs v : num) : list num :=
  let col := white in
  if isFinite v && ngt v (Fin 0) then
    let t := clamp (ndiv (Math_log v) maxAbs) (lit (-1) 1) (Fin 1) in
    let col := if nlt t (Fin 0) then mixColor white blue (nabs t) else col in
    let col := if ngt t (Fin 0) then mixColor white red (nabs t) else col in
    col
  else col.

(** A colour: three integer channels from 0 to 255. *)
Definition is_colour (c : list num) : Prop :=
  ∃ r g b : Z,
    c = [Fin (Qc_of_Z r); Fin (Qc_of_Z g); Fin (Qc_of_Z b)]
    ∧ (0 ≤ r ≤ 255)%Z ∧ (0 ≤ g ≤ 255)%Z ∧ (0 ≤ b ≤ 255)%Z.

Lemma Qfloor_between (x : Q) (lo hi : Z) :
  (inject_Z lo <= x)%Q → (x < inject_Z (hi + 1))%Q → (lo ≤ Qfloor x ≤ hi)%Z.
Proof.
  intros Hlo Hhi. split.
  - rewrite <- (Qfloor_Z lo). by apply Qfloor_resp_le.
  - apply Z.lt_succ_r. rewrite Zlt_Qlt.
    apply Qle_lt_trans with x; [apply Qfloor_le|]. by rewrite <- Z.add_1_r.
Qed.

Lemma convex_between (a b t : Qc) :
  a ≤ b → 0 ≤ t → t ≤ 1 → a ≤ a + (b + - a) * t ∧ a + (b + - a) * t ≤ b.
Proof.
  intros Hab H0 H1.
  assert (0 ≤ b + - a) as Hd by (by apply (proj1 (Qcle_minus_iff a b))).
  split.
  - rewrite <- (Qcplus_0_r a) at 1. apply (proj1 (Qcplus_le_mono_l _ _ _)).
    by apply Qcmult_nonneg_nonneg.
  - replace b with (a + (b + - a) * 1) at 2 by ring.
    apply (proj1 (Qcplus_le_mono_l _ _ _)). by apply Qcmult_le_mono_nonneg_l.
Qed.

(** [Math.round] of a number between two integers. *)
Lemma nround_between (y : Qc) (lo hi : Z) :
  Qc_of_Z lo ≤ y → y ≤ Qc_of_Z hi →
  ∃ z : Z, nround (Fin y) = Fin (Qc_of_Z z) ∧ (lo ≤ z ≤ hi)%Z.
Proof.
  intros Hlo Hhi. eexists. split; [reflexivity|].
  unfold Qcle in Hlo, Hhi. simpl in Hlo, Hhi.
  apply Qfloor_between; [lra|]. rewrite inject_Z_plus.
  change (inject_Z 1) with 1%Q. lra.
Qed.

(** One channel of [mixColor]: between integer end values and for
    [0 <= t <= 1] the rounded interpolation is an integer between them. *)
Lemma mix_channel (a b : Z) (t : Qc) :
  0 ≤ t → t ≤ 1 →
  ∃ z : Z, nround (lerp (Fin (Qc_of_Z a)) (Fin (Qc_of_Z b)) (Fin t)) = Fin (Qc_of_Z z)
           ∧ (Z.min a b ≤ z ≤ Z.max a b)%Z.
Proof.
  intros H0 H1. cbn [lerp nsub nopp nadd nmul].
  destruct (decide (a ≤ b)%Z) as [Hab|Hab].
  - rewrite Z.min_l, Z.max_r by lia. apply (proj1 (Z2Qc_inj_le _ _)) in Hab.
    destruct (convex_between _ _ t Hab H0 H1). by apply nround_between.
  - rewrite Z.min_r, Z.max_l by lia.
    assert (Qc_of_Z b ≤ Qc_of_Z a) as Hba by (apply (proj1 (Z2Qc_inj_le _ _)); lia).
    assert (0 ≤ 1 + - t) as H0' by (by apply (proj1 (Qcle_minus_iff t 1))).
    assert (1 + - t ≤ 1) as H1'.
    { rewrite <- (Qcplus_0_r 1) at 2. apply (proj1 (Qcplus_le_mono_l _ _ _)).
      apply (Qcopp_le_compat 0 t H0). }
    destruct (convex_between _ _ (1 + - t) Hba H0' H1') as [Hlo Hhi].
    replace (Qc_of_Z b + (Qc_of_Z a + - Qc_of_Z b) * (1 + - t))
      with (Qc_of_Z a + (Qc_of_Z b + - Qc_of_Z a) * t) in Hlo, Hhi by ring.
    by apply nround_between.
Qed.

(** [mixColor] stays between its end colours: for colours with three
    integer channels and [0 <= t <= 1] every channel of the result is an
    integer between the two end values of that channel. *)
Theorem mixColor_between (r1 g1 b1 r2 g2 b2 : Z) (t : Qc) :
  0 ≤ t → t ≤ 1 →
  ∃ r g b : Z,
    mixColor [Fin (Qc_of_Z r1); Fin (Qc_of_Z g1); Fin (Qc_of_Z b1)]
             [Fin (Qc_of_Z r2); Fin (Qc_of_Z g2); Fin (Qc_of_Z b2)] (Fin t)
    = [Fin (Qc_of_Z r); Fin (Qc_of_Z g); Fin (Qc_of_Z b)]
    ∧ (Z.min r1 r2 ≤ r ≤ Z.max r1 r2)%Z
    ∧ (Z.min g1 g2 ≤ g ≤ Z.max g1 g2)%Z
    ∧ (Z.min b1 b2 ≤ b ≤ Z.max b1 b2)%Z.
Proof.
  intros H0 H1.
  destruct (mix_channel r1 r2 t H0 H1) as (r & Hr & ?).
  destruct (mix_channel g1 g2 t H0 H1) as (g & Hg & ?).
  destruct (mix_channel b1 b2 t H0 H1) as (b & Hb & ?).
  exists r, g, b. unfold mixColor.
  change (rd [?x; _; _] 0) with x. change (rd [_; ?x; _] 1) with x.
  change (rd [_; _; ?x] 2) with x.
  by rewrite Hr, Hg, Hb.
Qed.

Lemma mixColor_between_witness :
  ∃ r g b : Z,
    mixColor white red (lit 1 2) = [Fin (Qc_of_Z r); Fin (Qc_of_Z g); Fin (Qc_of_Z b)]
    ∧ (220 ≤ r ≤ 255)%Z ∧ (38 ≤ g ≤ 255)%Z ∧ (38 ≤ b ≤ 255)%Z.
Proof.
  unfold white, red. rewrite !lit_integer.
  apply (mixColor_between 255 255 255 220 38 38 (Q2Qc (1 # 2))); done.
Defined.

Lemma mixColor_is_colour (r1 g1 b1 r2 g2 b2 : Z) (t : Qc) :
  (0 ≤ r1 ≤ 255)%Z → (0 ≤ g1 ≤ 255)%Z → (0 ≤ b1 ≤ 255)%Z →
  (0 ≤ r2 ≤ 255)%Z → (0 ≤ g2 ≤ 255)%Z → (0 ≤ b2 ≤ 255)%Z →
  0 ≤ t → t ≤ 1 →
  is_colour (mixColor [lit r1 1; lit g1 1; lit b1 1] [lit r2 1; lit g2 1; lit b2 1] (Fin t)).
Proof.
  intros ?????? H0 H1. rewrite !lit_integer.
  destruct (mix_channel r1 r2 t H0 H1) as (r & Hr & ?).
  destruct (mix_channel g1 g2 t H0 H1) as (g & Hg & ?).
  destruct (mix_channel b1 b2 t H0 H1) as (b & Hb & ?).
  exists r, g, b. unfold mixColor.
  change (rd [?x; _; _] 0) with x. change (rd [_; ?x; _] 1) with x.
  change (rd [_; _; ?x] 2) with x.
  rewrite Hr, Hg, Hb. split; [done|]. lia.
Qed.

(** [clamp(x, -1, 1)] is [NaN] or a number from -1 to 1. *)
Lemma clamp_unit (x : num) :
  clamp x (lit (-1) 1) (Fin 1) = NaN
  ∨ ∃ q, clamp x (lit (-1) 1) (Fin 1) = Fin q ∧ - (1) ≤ q ∧ q ≤ 1.
Proof.
  unfold clamp. destruct x as [q| | |].
  - right. cbn [nmin nlt]. case_bool_decide as H1.
    + cbn [nmax nlt lit]. case_bool_decide as H2.
      * exists q. split; [done|]. split; [|by apply Qclt_le_weak].
        apply Qclt_le_weak. exact H2.
      * exists (Q2Qc (-1 # 1)). done.
    + exists 1. split; [|done]. apply (bool_decide_unpack _). vm_compute. exact I.
  - right. exists 1. split; [|done]. apply (bool_decide_unpack _). vm_compute. exact I.
  - right. exists (Q2Qc (-1 # 1)). split; [|done].
    apply (bool_decide_unpack _). vm_compute. exact I.
  - by left.
Qed.

(** Every cell of the heat map gets a valid colour: whatever the cell
    holds, whatever scale [maxAbs] the first loop found and whatever
    [Math.log] returns, the fill colour has three integer channels from 0
    to 255. *)
Theorem cell_colour_valid (Math_log : num → num) (maxAbs v : num) :
  is_colour (cell_colour Math_log maxAbs v).
Proof.
  assert (is_colour white) as Hwhite.
  { exists 255%Z, 255%Z, 255%Z. unfold white. rewrite lit_integer. split; [done|lia]. }
  unfold cell_colour. destruct (isFinite v && ngt v (Fin 0)); [|done].
  cbv zeta.
  destruct (clamp_unit (ndiv (Math_log v) maxAbs)) as [->|(q & -> & Hlo & Hhi)]; [done|].
  cbn [nlt ngt nabs].
  destruct (decide (q < 0)) as [Hneg|Hnn].
  - rewrite (bool_decide_eq_true_2 _ Hneg).
    rewrite bool_decide_eq_false_2 by (by apply Qcle_not_lt, Qclt_le_weak).
    apply mixColor_is_colour; try lia.
    + change 0 with (- 0). by apply Qcopp_le_compat, Qclt_le_weak.
    + rewrite <- (Qcopp_involutive 1). by apply Qcopp_le_compat.
  - rewrite (bool_decide_eq_false_2 _ Hnn). case_bool_decide as Hpos; [|done].
    apply mixColor_is_colour; try lia; [by apply Qclt_le_weak|done].
Qed.

(** * The consistency badge *)

(** The object that [crMessage] returns. *)
Record message : Type := mkMessage { m_level : string; m_title : string; m_text : string }.

Section Badge.

(** [x.toFixed(digits)], a function of the host. *)
Variable toFixed : num → nat → string.

Definition crMessage (cr : num) : message :=
  if nle cr (lit 10 100) then
    mkMessage "good" "Consistenza buona"
      ("CR " +:+ toFixed cr 3 +:+ ". I confronti sono coerenti.")
  else if nle cr (lit 20 100) then
    mkMessage "mid" "Consistenza borderline"
      ("CR " +:+ toFixed cr 3 +:+ ". Rivedi 1 o 2 confronti.")
  else
    mkMessage "warn" "Consistenza bassa"
      ("CR " +:+ toFixed cr 3
       +:+ ". Il ranking può cambiare. Rivedi i confronti suggeriti.").

End Badge.

(** The test [cr > 0.10] with which [renderMatricesPage] decides to show
    the hints under a badge. *)
Definition hints_shown (cr : num) : bool := ngt cr (lit 10 100).

Lemma solve_cr_fin (A : matrix) (n : nat) :
  (1 ≤ n)%nat → positive_reciprocal A n →
  ∃ c, cr (ahpSolve A) = Fin c ∧ 0 ≤ c ∧ ((n ≤ 2)%nat → c = 0).
Proof.
  intros Hn HA.
  destruct (positive_reciprocal_cells A n HA) as (Hfin & Hpos & Hrec).
  destruct (powerIterationWeights_fin A n (cell A) maxIter_default tol_default
              Hfin ltac:(lia) Hpos) as (x & Hw & Hx & Hsum & Hlam).
  pose proof (rayleigh_lower_bound (cell A) x n ltac:(lia) Hpos Hrec Hx) as Hbound.
  destruct (consistency_cr_nonneg A n (rayleigh (cell A) x n) (proj1 Hfin) Hn Hbound)
    as (c & Hc & Hc0).
  exists c. unfold ahpSolve. cbn [cr]. rewrite Hlam.
  split; [done|]. split; [done|]. intros Hle.
  destruct (consistency_cr_cases A (Fin (rayleigh (cell A) x n)) n (proj1 Hfin) Hn)
    as [Hsmall _].
  rewrite Hsmall in Hc by done. by injection Hc.
Qed.

(** Badge and hints agree on a pairwise matrix: for a positive reciprocal
    matrix of order [n >= 1] the ratio that [ahpSolve] returns gets one of
    the three levels, the hints are shown exactly when the level is not
    [good], and for [n <= 2] the level is always [good] (over exact
    arithmetic). *)
Theorem badge_matches_hints (toFixed : num → nat → string) (A : matrix) (n : nat) :
  (1 ≤ n)%nat → positive_reciprocal A n →
  (hints_shown (cr (ahpSolve A)) = false
     ↔ m_level (crMessage toFixed (cr (ahpSolve A))) = "good")
  ∧ (hints_shown (cr (ahpSolve A)) = true
     ↔ m_level (crMessage toFixed (cr (ahpSolve A))) = "mid"
       ∨ m_level (crMessage toFixed (cr (ahpSolve A))) = "warn")
  ∧ ((n ≤ 2)%nat →
     m_level (crMessage toFixed (cr (ahpSolve A))) = "good"
     ∧ hints_shown (cr (ahpSolve A)) = false).
Proof.
  intros Hn HA. destruct (solve_cr_fin A n Hn HA) as (c & -> & Hc0 & Hsmall).
  unfold hints_shown, crMessage. cbn [ngt nle nlt lit].
  split; [|split].
  - case_bool_decide; simpl; [|done]. split; [done|].
    by case_bool_decide.
  - case_bool_decide; simpl; [|split; [done|by intros [|]]].
    split; [|done]. intros _. case_bool_decide; simpl; [by right|by left].
  - intros Hle. rewrite (Hsmall Hle).
    rewrite bool_decide_eq_false_2 by (by apply Qcle_not_lt). done.
Qed.

Lemma badge_matches_hints_witness :
  m_level (crMessage (λ _ _, "0.000") (cr (ahpSolve (identityMatrix 2)))) = "good"
  ∧ hints_shown (cr (ahpSolve (identityMatrix 2))) = false.
Proof.
  apply (badge_matches_hints (λ _ _, "0.000") (identityMatrix 2) 2); [lia| |lia].
  apply valid_matrix_reciprocal, neutral_is_valid.
Defined.

(** A ratio that is [NaN] gets the level [warn] and no hints. *)
Example badge_nan (toFixed : num → nat → string) :
  m_level (crMessage toFixed NaN) = "warn" ∧ hints_shown NaN = false.
Proof. done. Qed.

(** * The setup page *)

(** The events of the two editable lists and of the two add buttons of
    [renderSetupPage]. *)
Inductive setup_event : Type :=
  | EditCriterion (i : nat) (v : string)
  | DeleteCriterion (i : nat)
  | AddCriterion
  | EditAlternative (i : nat) (v : string)
  | DeleteAlternative (i : nat)
  | AddAlternative.

(** The [input] handler of row [i] of [renderEditableList]: the list it
    hands to [onChange]. *)
Definition edit_item (items : list json) (i : nat) (v : string) : list json :=
  <[i := JStr v]> items.

(** The [click] handler of the delete button of row [i]: the list it hands
    to [onChange], or [None] when it returns without calling it. *)
Definition delete_item (items : list json) (minLen i : nat) : option (list json) :=
  if decide (length items ≤ minLen)%nat then None else Some (delete i items).

(** The [onChange] callbacks that [renderSetupPage] passes for the two
    lists. *)
Definition change_criteria (arr : list json) (f : gmap string json) : result (gmap string json) :=
  initMatrices (<["activeCritIdx" := JNum (Fin 0)]> (<["criteria" := JArr arr]> f)).

Definition change_alternatives (arr : list json) (f : gmap string json) : result (gmap string json) :=
  initMatrices (<["alternatives" := JArr arr]> f).

(** [st.criteria.push(`C${st.criteria.length + 1}`)] and its twin. *)
Definition push_label (prefix : string) (items : list json) : list json :=
  items ++ [JStr (prefix +:+ pretty (length items + 1)%nat)].

(** One event on the fields [f] of the state.  A row and its two
    controls exist for the indices of the list only: [None] says that
    the page has no such control.  [Some (Ok f')] are the fields after the
    handler has run, [Some Throw] an exception in it. *)
Definition setup_step (e : setup_event) (f : gmap string json) : option (result (gmap string json)) :=
  match f !! "criteria", f !! "alternatives" with
  | Some (JArr cs), Some (JArr alts) =>
      match e with
      | EditCriterion i v =>
          if decide (i < length cs)%nat then Some (change_criteria (edit_item cs i v) f) else None
      | DeleteCriterion i =>
          if decide (i < length cs)%nat then
            Some (match delete_item cs 2 i with
                  | Some next => change_criteria next f
                  | None => Ok f
                  end)
          else None
      | AddCriterion =>
          Some (initMatrices (<["criteria" := JArr (push_label "C" cs)]> f))
      | EditAlternative i v =>
          if decide (i < length alts)%nat then Some (change_alternatives (edit_item alts i v) f)
          else None
      | DeleteAlternative i =>
          if decide (i < length alts)%nat then
            Some (match delete_item alts 2 i with
                  | Some next => change_alternatives next f
                  | None => Ok f
                  end)
          else None
      | AddAlternative =>
          Some (initMatrices (<["alternatives" := JArr (push_label "A" alts)]> f))
      end
  | _, _ => None
  end.

(** [initMatrices] on a state with a truthy [problem], two label arrays
    and an active index in range. *)
Lemma reinit_wellformed (f : gmap string json) (cs alts : list json) :
  truthy (f !! "problem") = true →
  f !! "criteria" = Some (JArr cs) → f !! "alternatives" = Some (JArr alts) →
  index_ok f (length cs) →
  ∃ f', initMatrices f = Ok f' ∧ wellformed (JObj f')
        ∧ f' !! "criteria" = Some (JArr cs) ∧ f' !! "alternatives" = Some (JArr alts)
        ∧ neutral f' cs alts.
Proof.
  intros Hp Hc Ha Hi.
  destruct (initMatrices_spec f cs alts (f !! "problem")) as (f' & E & (Hc' & Ha' & Hp') & Hn & Hx);
    [done|].
  exists f'. split; [done|]. split; [|done].
  exists f', cs, alts. split; [done|]. split; [by rewrite Hp'|].
  split; [done|]. split; [done|]. split; [by apply neutral_row_counts|].
  unfold index_ok. by rewrite Hx.
Qed.

Lemma index_ok_zero (f : gmap string json) (n : nat) :
  index_ok (<["activeCritIdx" := JNum (Fin 0)]> f) n.
Proof. exists (Fin 0). rewrite lookup_insert_eq. split; [done|by left]. Qed.

(** An index in range stays in range when the list grows by one. *)
Lemma index_ok_grow (f : gmap string json) (n : nat) :
  index_ok f n → index_ok f (n + 1).
Proof.
  intros (x & Hx & Hi). exists x. split; [done|].
  destruct Hi as [->|[Hlt Hge]]; [by left|]. right. split; [done|].
  destruct x as [q| | |]; try done.
  unfold of_nat in *. cbn [nle nlt] in *.
  apply negb_false_iff, bool_decide_eq_true in Hge.
  apply negb_false_iff, bool_decide_eq_true.
  apply Qclt_trans with (Qc_of_Z (Z.of_nat n)); [done|].
  apply (proj1 (Z2Qc_inj_lt _ _)). lia.
Qed.

Lemma index_ok_other (f : gmap string json) (k : string) (v : json) (n : nat) :
  k ≠ "activeCritIdx" → index_ok f n → index_ok (<[k := v]> f) n.
Proof. intros Hk. unfold index_ok. by rewrite lookup_insert_ne. Qed.

(** The list handlers and the add buttons of the setup page keep the
    state well-formed and both lists at two labels or more: on a
    well-formed state with at least two criteria and two alternatives
    every control that the page has runs without an exception and leaves
    a well-formed state with at least two labels in each list.  The
    state is unchanged (a delete at the minimum of two labels) or all its
    matrices are the neutral ones of the new sizes: an edit of a label
    resets every judgment. *)
Theorem setup_step_wellformed (e : setup_event) (f : gmap string json)
    (cs alts : list json) (r : result (gmap string json)) :
  wellformed (JObj f) →
  f !! "criteria" = Some (JArr cs) → f !! "alternatives" = Some (JArr alts) →
  (2 ≤ length cs)%nat → (2 ≤ length alts)%nat →
  setup_step e f = Some r →
  ∃ f' cs' alts',
    r = Ok f'
    ∧ wellformed (JObj f')
    ∧ f' !! "criteria" = Some (JArr cs') ∧ f' !! "alternatives" = Some (JArr alts')
    ∧ (2 ≤ length cs')%nat ∧ (2 ≤ length alts')%nat
    ∧ (f' = f ∨ neutral f' cs' alts').
Proof.
  intros Hw Hc Ha Hlc Hla Hstep.
  assert (truthy (f !! "problem") = true ∧ index_ok f (length cs)) as [Hp Hi].
  { destruct Hw as (f0 & cs0 & alts0 & [= <-] & Hp & Hc0 & _ & _ & Hi).
    rewrite Hc in Hc0. injection Hc0 as <-. done. }
  unfold setup_step in Hstep. rewrite Hc, Ha in Hstep.
  assert (∀ arr, (2 ≤ length arr)%nat →
            ∃ f' cs' alts', change_criteria arr f = Ok f' ∧ wellformed (JObj f')
              ∧ f' !! "criteria" = Some (JArr cs') ∧ f' !! "alternatives" = Some (JArr alts')
              ∧ (2 ≤ length cs')%nat ∧ (2 ≤ length alts')%nat
              ∧ (f' = f ∨ neutral f' cs' alts')) as Hcrit.
  { intros arr Harr. unfold change_criteria.
    destruct (reinit_wellformed (<["activeCritIdx" := JNum (Fin 0)]> (<["criteria" := JArr arr]> f))
                arr alts) as (f' & E & Hw' & Hc' & Ha' & Hn').
    - by rewrite !lookup_insert_ne by done.
    - by rewrite lookup_insert_ne, lookup_insert_eq by done.
    - by rewrite !lookup_insert_ne by done.
    - apply index_ok_zero.
    - exists f', arr, alts. by repeat (split; [done|]); right. }
  assert (∀ arr, (2 ≤ length arr)%nat →
            ∃ f' cs' alts', change_alternatives arr f = Ok f' ∧ wellformed (JObj f')
              ∧ f' !! "criteria" = Some (JArr cs') ∧ f' !! "alternatives" = Some (JArr alts')
              ∧ (2 ≤ length cs')%nat ∧ (2 ≤ length alts')%nat
              ∧ (f' = f ∨ neutral f' cs' alts')) as Halt.
  { intros arr Harr. unfold change_alternatives.
    destruct (reinit_wellformed (<["alternatives" := JArr arr]> f) cs arr)
      as (f' & E & Hw' & Hc' & Ha' & Hn').
    - by rewrite !lookup_insert_ne by done.
    - by rewrite lookup_insert_ne by done.
    - by rewrite lookup_insert_eq.
    - by apply index_ok_other.
    - exists f', cs, arr. by repeat (split; [done|]); right. }
  assert (∃ f' cs' alts', Ok f = Ok f' ∧ wellformed (JObj f')
              ∧ f' !! "criteria" = Some (JArr cs') ∧ f' !! "alternatives" = Some (JArr alts')
              ∧ (2 ≤ length cs')%nat ∧ (2 ≤ length alts')%nat
              ∧ (f' = f ∨ neutral f' cs' alts')) as Hsame.
  { exists f, cs, alts. by repeat (split; [done|]); left. }
  destruct e as [i v|i| |i v|i|].
  - case_decide; [|done]. injection Hstep as <-.
    apply Hcrit. unfold edit_item. by rewrite length_insert.
  - case_decide as Hlt; [|done]. injection Hstep as <-.
    unfold delete_item. case_decide as Hmin; [done|].
    apply Hcrit. rewrite length_delete by (by apply lookup_lt_is_Some). lia.
  - injection Hstep as <-.
    destruct (reinit_wellformed (<["criteria" := JArr (push_label "C" cs)]> f)
                (push_label "C" cs) alts) as (f' & E & Hw' & Hc' & Ha' & Hn').
    + by rewrite !lookup_insert_ne by done.
    + by rewrite lookup_insert_eq.
    + by rewrite !lookup_insert_ne by done.
    + apply index_ok_other; [done|]. unfold push_label. rewrite length_app. simpl.
      by apply index_ok_grow.
    + exists f', (push_label "C" cs), alts. repeat (split; [done|]).
      split; [unfold push_label; rewrite length_app; simpl; lia|].
      split; [done|by right].
  - case_decide; [|done]. injection Hstep as <-.
    apply Halt. unfold edit_item. by rewrite length_insert.
  - case_decide as Hlt; [|done]. injection Hstep as <-.
    unfold delete_item. case_decide as Hmin; [done|].
    apply Halt. rewrite length_delete by (by apply lookup_lt_is_Some). lia.
  - injection Hstep as <-.
    destruct (reinit_wellformed (<["alternatives" := JArr (push_label "A" alts)]> f)
                cs (push_label "A" alts)) as (f' & E & Hw' & Hc' & Ha' & Hn').
    + by rewrite !lookup_insert_ne by done.
    + by rewrite !lookup_insert_ne by done.
    + by rewrite lookup_insert_eq.
    + by apply index_ok_other.
    + exists f', cs, (push_label "A" alts). repeat (split; [done|]).
      split; [unfold push_label; rewrite length_app; simpl; lia|].
      by right.
Qed.

Lemma setup_step_wellformed_witness :
  ∃ f', setup_step (EditCriterion 1 "speed") saved_fields = Some (Ok f')
        ∧ wellformed (JObj f')
        ∧ f' !! "criteria" = Some (json_strings ["cost"; "speed"])
        ∧ neutral f' (map JStr ["cost"; "speed"]) (map JStr ["A"; "B"]).
Proof.
  destruct (setup_step_wellformed (EditCriterion 1 "speed") saved_fields
              (map JStr ["cost"; "time"]) (map JStr ["A"; "B"])
              (change_criteria (map JStr ["cost"; "speed"]) saved_fields))
    as (f' & cs' & alts' & E & Hw & Hc & Ha & _ & _ & Hn).
  - apply saved_fields_wellformed.
  - reflexivity.
  - reflexivity.
  - simpl. lia.
  - simpl. lia.
  - reflexivity.
  - exists f'. split.
    { change (Some (change_criteria (map JStr ["cost"; "speed"]) saved_fields) = Some (Ok f')).
      by rewrite E. }
    split; [done|]. unfold change_criteria in E.
    assert (f' !! "criteria" = Some (json_strings ["cost"; "speed"])
            ∧ f' !! "alternatives" = Some (json_strings ["A"; "B"])) as [Hc2 Ha2].
    { apply (initMatrices_other _ _ "criteria") in E as Hc2; [|done..].
      apply (initMatrices_other _ _ "alternatives") in E as Ha2; [|done..].
      by rewrite Hc2, Ha2. }
    split; [done|].
    destruct Hn as [->|Hn].
    + exfalso. vm_compute in Hc2. discriminate Hc2.
    + rewrite Hc2 in Hc. rewrite Ha2 in Ha. injection Hc as <-. injection Ha as <-.
      exact Hn.
Defined.

(** * The solver in binary64

    The functions of the solver once more, over the doubles that the
    source computes with: every operation rounds to the nearest double as
    in IEEE-754.  The definitions follow those over [num] line by line;
    only the numbers differ. *)

Module F64.

(** The double that an array length denotes: counting up by 1 is exact
    below 2^53. *)
Fixpoint of_nat (n : nat) : float :=
  match n with
  | O => 0%float
  | S n' => (of_nat n' + 1)%float
  end.

(** [Math.max] of two numbers: [NaN] as soon as one of them is.  (Its
    arguments in this program are never [-0].) *)
Definition fmax (a b : float) : float :=
  if PrimFloat.is_nan a || PrimFloat.is_nan b then PrimFloat.nan
  else if PrimFloat.ltb a b then b else a.

Definition rd (l : list float) (i : nat) : float := default PrimFloat.nan (l !! i).

Definition rd2 (A : list (list float)) (i j : nat) : float := rd (default [] (A !! i)) j.

Definition identityMatrix (n : nat) : list (list float) :=
  map (λ i, map (λ j, if decide (i = j) then 1%float else 1%float) (seq 0 n)) (seq 0 n).

Definition reduce_i {S : Type} (f : S → float → nat → S) (l : list float) (s0 : S) : S :=
  for_range (length l) (λ i a, f a (rd l i) i) s0.

Definition reduce_add (l : list float) : float := fold_left PrimFloat.add l 0%float.

Definition matvec (A : list (list float)) (w : list float) (n : nat) : list float :=
  for_range n (λ i Aw,
      let s := for_range n (λ j s, (s + rd2 A i j * rd w j)%float) 0%float in
      <[i := s]> Aw)
    (replicate n 0%float).

Definition power_step (A : list (list float)) (n : nat) (w : list float)
    : list float * float :=
  let Aw := matvec A w n in
  let sum := reduce_add Aw in
  let wNew := map (λ x, (x / sum)%float) Aw in
  let diff := for_range n (λ i diff,
                fmax diff (PrimFloat.abs (rd wNew i - rd w i)%float)) 0%float in
  (wNew, diff).

Fixpoint power_loop (A : list (list float)) (n : nat) (tol : float) (remaining : nat)
    (w : list float) : list float :=
  match remaining with
  | O => w
  | S remaining' =>
      let '(wNew, diff) := power_step A n w in
      if PrimFloat.ltb diff tol then wNew else power_loop A n tol remaining' wNew
  end.

Definition powerIterationWeights (A : list (list float)) (maxIter : nat) (tol : float)
    : list float * float :=
  let n := length A in
  let w0 := replicate n (1 / of_nat n)%float in
  let w := power_loop A n tol maxIter w0 in
  let Aw2 := matvec A w n in
  let lambdaMax :=
    (reduce_i (λ a v i, (a + v / rd w i)%float) Aw2 0%float / of_nat n)%float in
  (w, lambdaMax).

#[warnings="-inexact-float"]
Definition RI : gmap nat float :=
  <[1%nat := 0%float]> (<[2%nat := 0%float]> (<[3%nat := 0.58%float]>
  (<[4%nat := 0.90%float]> (<[5%nat := 1.12%float]> (<[6%nat := 1.24%float]>
  (<[7%nat := 1.32%float]> (<[8%nat := 1.41%float]> (<[9%nat := 1.45%float]>
  (<[10%nat := 1.49%float]> ∅))))))))).

#[warnings="-inexact-float"]
Definition random_index (n : nat) : float := default 1.49%float (RI !! n).

(** [consistency]: [ci] and [cr]. *)
Definition consistency (A : list (list float)) (lambdaMax : float) : float * float :=
  let n := length A in
  let ci := ((lambdaMax - of_nat n) / (of_nat n - 1))%float in
  let ri := random_index n in
  let cr := if PrimFloat.eqb ri 0%float then 0%float else (ci / ri)%float in
  (ci, cr).

Record SolveResult : Type :=
  mkSolve { weights : list float; lambdaMax : float; ci : float; cr : float }.

#[warnings="-inexact-float"]
Definition ahpSolve (A : list (list float)) : SolveResult :=
  let '(w, lam) := powerIterationWeights A 1500 1e-11%float in
  let '(ci, cr) := consistency A lam in
  mkSolve w lam ci cr.

End F64.



(** The values that binary64 gives on the neutral matrices of order 7 and
    6: the results of C1 hold up to rounding. *)
#[warnings="-inexact-float"]
Example solve_neutral_binary64 :
  F64.lambdaMax (F64.ahpSolve (F64.identityMatrix 7)) = 6.999999999999999%float
  ∧ F64.cr (F64.ahpSolve (F64.identityMatrix 7)) = (-1.1214373986112691e-16)%float
  ∧ F64.lambdaMax (F64.ahpSolve (F64.identityMatrix 6)) = 6.000000000000001%float
  ∧ F64.rd (F64.weights (F64.ahpSolve (F64.identityMatrix 6))) 0 = 0.16666666666666669%float
  ∧ PrimFloat.eqb (F64.rd (F64.weights (F64.ahpSolve (F64.identityMatrix 6))) 0)
      (1 / 6)%float = false.
Proof. vm_compute. repeat split. Qed.

(** Up to order 5 the neutral matrix is solved exactly in binary64 too. *)
Example solve_neutral_binary64_small :
  Forall (λ n, F64.lambdaMax (F64.ahpSolve (F64.identityMatrix n)) = F64.of_nat n
               ∧ F64.cr (F64.ahpSolve (F64.identityMatrix n)) = 0%float)
         [2; 3; 4; 5]%nat.
Proof. repeat constructor; vm_compute; reflexivity. Qed.

(** The reciprocal is not an involution in binary64, and it overflows. *)
#[warnings="-inexact-float"]
Example reciprocal_binary64 :
  (1 / (1 / 49))%float = 49.00000000000001%float
  ∧ PrimFloat.eqb (1 / (1 / 49))%float 49%float = false
  ∧ (1 / 1e-320)%float = PrimFloat.infinity.
Proof. vm_compute. repeat split. Qed.

(** Two values of [lambdaMax] with the same [cr], and two with the same
    [ci], at order 3. *)
#[warnings="-inexact-float"]
Example consistency_ties_binary64 :
  PrimFloat.ltb 12.500000000000005%float 12.500000000000007%float = true
  ∧ snd (F64.consistency (F64.identityMatrix 3) 12.500000000000005%float)
    = snd (F64.consistency (F64.identityMatrix 3) 12.500000000000007%float)
  ∧ PrimFloat.ltb 1e-20%float 2e-20%float = true
  ∧ fst (F64.consistency (F64.identityMatrix 3) 1e-20%float)
    = fst (F64.consistency (F64.identityMatrix 3) 2e-20%float).
Proof. vm_compute. repeat split. Qed.

(** Finite positive cells that overflow (weights [NaN]) or underflow (a
    weight 0 and an infinite [lambdaMax]). *)
#[warnings="-inexact-float"]
Example power_range_binary64 :
  PrimFloat.is_nan
    (F64.rd (F64.weights (F64.ahpSolve [[1e308; 1e308]; [1e308; 1e308]]%float)) 0) = true
  ∧ F64.weights (F64.ahpSolve [[1e300; 1e300]; [1e-300; 1e-300]]%float) = [1; 0]%float
  ∧ F64.lambdaMax (F64.ahpSolve [[1e300; 1e300]; [1e-300; 1e-300]]%float)
    = PrimFloat.infinity.
Proof. vm_compute. repeat split. Qed.

(** Without the unit diagonal the bounds of C3 fail in exact arithmetic
    too: a positive matrix that is reciprocal off the diagonal, with
    [lambdaMax = 5/2 < 3] and a negative [cr]. *)
Example solve_bounds_without_unit_diagonal :
  lambdaMax (ahpSolve [[lit 1 2; lit 1 1; lit 1 1]; [lit 1 1; lit 1 2; lit 1 1];
                       [lit 1 1; lit 1 1; lit 1 2]]) = lit 5 2
  ∧ nlt (cr (ahpSolve [[lit 1 2; lit 1 1; lit 1 1]; [lit 1 1; lit 1 2; lit 1 1];
                       [lit 1 1; lit 1 1; lit 1 2]])) (Fin 0) = true.
Proof.
  split; [apply (bool_decide_unpack _); vm_compute; exact I|vm_compute; reflexivity].
Qed.
